(** * mania: the download orchestrator and its path resolver

    A shallow embedding of [mania/mania.py]: [sanitize], [get_track_path],
    [resolve_metadata], [download_track] and [download_album], together with
    the properties of the specification that concern them.

    Python strings are sequences of Unicode code points; the file system is a
    finite map from paths to contents; the remote client, the HTTP transport
    and the tag writer are collaborators whose answers are taken from an
    explicit external state. *)

From stdpp Require Import gmap list strings.
From Stdlib Require Import NArith ZArith Lia.

Open Scope N_scope.

(** ** Strings *)

(** A Python [str] is a list of code points. *)
Abbreviation char := N.
Abbreviation str := (list N).

(** Literals of the source are written as Rocq strings and read code point
    by code point (the literals of [mania.py] are all ASCII). *)
Definition u (s : string) : str :=
  map Ascii.N_of_ascii (String.list_ascii_of_string s).

Definition SPACE : char := 32.
Definition HYPHEN : char := 45.
Definition SLASH : char := 47.
Definition DOT : char := 46.
Definition ZERO : char := 48.
Definition QUOTE : char := 34.

(** The ASCII part of the character tables: digits, capital and small
    letters, and the small letter of a capital. *)
Definition isdigit (c : char) : bool := (48 <=? c) && (c <=? 57).
Definition isupper (c : char) : bool := (65 <=? c) && (c <=? 90).
Definition islower (c : char) : bool := (97 <=? c) && (c <=? 122).

Definition ascii_isalnum (c : char) : bool :=
  isdigit c || isupper c || islower c.

Definition ascii_lower (c : char) : char :=
  if isupper c then c + 32 else c.

(** [str.isalnum] and [str.lower] belong to the Python runtime and read the
    Unicode character database.  They are parameters here: [isalnum] is
    [str.isalnum] on one character, as [sanitize] calls it, [lower] is
    [str.lower] on a whole string (the lowercase form of a character may be
    longer than one and may depend on its neighbours).  Of the database the
    development uses what follows; what one statement takes beyond it is
    among its hypotheses:
    - on ASCII the two are the tables above;
    - lowercasing deletes nothing, and makes no path separator;
    - U+0130 (LATIN CAPITAL LETTER I WITH DOT ABOVE) is a letter whose
      lowercase form is the two code points U+0069 U+0307, and U+0307
      (COMBINING DOT ABOVE) is a nonspacing mark, hence not alphanumeric. *)
Class Unicode := {
  isalnum : char → bool;
  lower : str → str;
  isalnum_ascii : ∀ c, c < 128 → isalnum c = ascii_isalnum c;
  lower_ascii : ∀ s, Forall (fun c => c < 128) s → lower s = map ascii_lower s;
  lower_nonempty : ∀ s, s ≠ [] → lower s ≠ [];
  lower_separator : ∀ s, SLASH ∈ lower s → SLASH ∈ s;
  isalnum_dotted_capital : isalnum 304 = true;
  lower_dotted_capital : lower [304] = [105; 775];
  isalnum_combining_dot : isalnum 775 = false;
}.

(** [string.replace(a, b)] for one-character [a] and [b]. *)
Definition replace (a b : char) (s : str) : str :=
  map (fun c => if c =? a then b else c) s.

(** [string.split(sep)] for a one-character separator: never empty, one more
    word than there are separators. *)
Fixpoint split (sep : char) (s : str) : list str :=
  match s with
  | [] => [[]]
  | c :: r =>
      if c =? sep then [] :: split sep r
      else match split sep r with
           | w :: ws => (c :: w) :: ws
           | [] => [[c]]
           end
  end.

(** [sep.join(words)]. *)
Fixpoint join (sep : str) (words : list str) : str :=
  match words with
  | [] => []
  | [w] => w
  | w :: ws => w ++ sep ++ join sep ws
  end.

(** Truth value of a string: non-empty. *)
Definition nonempty (s : str) : bool :=
  match s with [] => false | _ => true end.

(** ** Configuration *)

(** The [config] dictionary, with the keys the orchestrator reads. *)
Record Config := {
  quiet : bool;
  nice_format : bool;
  full_structure : bool;
  skip_metadata : bool;
  output_directory : str;
}.

(** ** sanitize *)

Definition sanitize `{!Unicode} (config : Config) (string : str) : str :=
  if negb (nice_format config) then
    List.filter (fun c => negb (c =? SLASH)) string
  else
    let alphanumeric :=
      List.filter (fun c => isalnum c || (c =? SPACE) || (c =? HYPHEN)) string in
    let hyphenated := replace SPACE HYPHEN alphanumeric in
    lower (join [HYPHEN]
             (List.filter nonempty (split HYPHEN hyphenated))).

(** ** Numerals *)

(** Decimal digits of a natural number, most significant first; [fuel]
    bounds the number of digits produced. *)
Fixpoint digits_of (fuel : nat) (n : N) : str :=
  match fuel with
  | O => []
  | S fuel' =>
      if n <? 10 then [ZERO + n]
      else digits_of fuel' (n / 10) ++ [ZERO + n mod 10]
  end.

(** A number has no more decimal digits than binary ones. *)
Definition str_of_N (n : N) : str := digits_of (S (N.to_nat (N.log2 n))) n.

(** [str(i)] for a Python [int]. *)
Definition str_of_Z (i : Z) : str :=
  if (i <? 0)%Z then HYPHEN :: str_of_N (Z.abs_N i) else str_of_N (Z.to_N i).

(** [s.zfill(width)]: zeros go after a leading sign. *)
Definition zfill (s : str) (width : nat) : str :=
  if (width <=? length s)%nat then s
  else
    let fill := replicate (width - length s) ZERO in
    match s with
    | c :: r => if (c =? 43) || (c =? HYPHEN) then c :: fill ++ r else fill ++ s
    | [] => fill
    end.

(** [max(l)] of a list of integers; [None] stands for the [ValueError] that
    Python raises on an empty list. *)
Definition max_of (l : list Z) : option Z :=
  match l with
  | [] => None
  | x :: r => Some (foldl Z.max x r)
  end.

(** ** Paths ([posixpath]) *)

Definition startswith_sep (s : str) : bool :=
  match s with c :: _ => c =? SLASH | [] => false end.

Definition endswith_sep (s : str) : bool :=
  match last s with Some c => c =? SLASH | None => false end.

(** One turn of the loop of [os.path.join]. *)
Definition join_step (path b : str) : str :=
  if startswith_sep b then b
  else if negb (nonempty path) || endswith_sep path then path ++ b
  else path ++ [SLASH] ++ b.

Definition os_path_join (a : str) (p : list str) : str :=
  foldl join_step a p.

(** [os.path.basename]: what follows the last separator. *)
Definition os_path_basename (p : str) : str :=
  default [] (last (split SLASH p)).

Fixpoint rstrip (c : char) (s : str) : str :=
  match s with
  | [] => []
  | x :: r =>
      match rstrip c r with
      | [] => if x =? c then [] else [x]
      | r' => x :: r'
      end
  end.

(** [os.path.dirname]: up to the last separator, trailing separators
    removed unless nothing else is left. *)
Definition os_path_dirname (p : str) : str :=
  let head := take (length p - length (os_path_basename p)) p in
  if nonempty head && negb (forallb (fun c => c =? SLASH) head)
  then rstrip SLASH head else head.

(** The directories above [path], nearest first: [os.path.dirname] again
    and again, until nothing is left or nothing changes (the root). *)
Fixpoint parents (fuel : nat) (path : str) : list str :=
  match fuel with
  | O => []
  | S fuel' =>
      let head := os_path_dirname path in
      if nonempty head && negb (bool_decide (head = path))
      then head :: parents fuel' head
      else []
  end.

(** ** Entities ([mania.models]) *)

Module Artist.
(** Modelled from the spec: [mania/models.py] is not among the sources;
    an artist has an identity and a display name. *)
Record t := { id : Z; name : str }.
End Artist.

Module Album.
(** Modelled from the spec: an album has an identity, a display name, its
    artists in order (the primary one first), and optionally a release
    year and the locator of a cover image. *)
Record t := {
  id : Z;
  name : str;
  artists : list Artist.t;
  year : option Z;
  cover_url : option str;
}.
End Album.

Module Track.
(** Modelled from the spec: a track has an identity, a display name, its
    artists in order, the album that owns it, a disc number, a track
    number and the tag of its file format. *)
Record t := {
  id : Z;
  name : str;
  artists : list Artist.t;
  album : Album.t;
  disc_number : Z;
  track_number : Z;
  extension : str;
}.
End Track.

(** ** Values exchanged with the collaborators *)

Abbreviation bytes := (list Byte.byte).

(** What [response.json()] gives: a failure to decode, or an object whose
    ["subStatus"] member may be missing. *)
Inductive json_body :=
| NotJson
| JsonObject (subStatus : option Z).

(** A [requests.Response]: status, decoded body, the two headers that are
    read, and the payload as the chunks [iter_content] yields; [broken] says
    that the transfer fails once these chunks have been delivered. *)
Record Response := {
  status_code : Z;
  json : json_body;
  content_length : option Z;
  content_type : option str;
  chunks : list bytes;
  broken : bool;
}.

Inductive exn :=
| HTTPError (response : Response)
| JSONDecodeError
| ValueError
| IndexError
| KeyError (key : str)
| FileNotFoundError
| ConnectionError
| InvalidFileError
| OtherException (name : str).

Inductive result (A : Type) :=
| Ok (a : A)
| Raise (e : exn).
Arguments Ok {A} a.
Arguments Raise {A} e.

(** A decryption capability rewrites the file it is given in place; it is
    modelled by what it makes of the content and whether it fails. *)
Definition decryptor := bytes -> result unit * bytes.

(** [metadata.Cover]. *)
Record Cover := { data : bytes; mime : str }.

(** Calls that leave the process, and operations on files, in the order in
    which they are made. *)
Inductive event :=
| EvPrint (line : str)
| EvGetAlbumTracks (album : Album.t)
| EvGetArtistAlbums (artist : Artist.t)
| EvGetMedia (track : Track.t)
| EvAuthenticate
| EvRequestsGet (url : str) (stream : bool)
| EvIsFile (path : str)
| EvMakedirs (path : str)
| EvOpen (path : str)
| EvWrite (path : str) (chunk : bytes)
| EvDecrypt (path : str)
| EvEmbed (extension : str) (path : str)
| EvRemove (path : str)
| EvRename (src dst : str).

(** What stops [os.makedirs(path, exist_ok=True)] on a disk with the
    regular files [files]: a regular file of that name ([mkdir] fails with
    [FileExistsError], and the name is no directory), or a regular file
    where a directory above it should be ([NotADirectoryError]). *)
Definition in_the_way (files : gmap str bytes) (path : str) : option exn :=
  if bool_decide (is_Some (files !! path))
  then Some (OtherException (u "FileExistsError"))
  else if existsb (fun p => bool_decide (is_Some (files !! p)))
            (parents (length path) path)
  then Some (OtherException (u "NotADirectoryError"))
  else None.

(** [mania.constants] is not part of the sources at hand: the two constants
    the orchestrator reads are parameters. *)
Record Constants := {
  INDENT : str;
  TEMPORARY_EXTENSION : str;
}.

Section Mania.

(** The state of everything outside the process (the catalogue service,
    the session, the network). *)
Context {St : Type} `{unicode : !Unicode}.

(** Modelled from the spec: the [client] object ([mania.models.Client]),
    with the calls of the Media Source; each answers from the external
    state and may change it. *)
Record Client := {
  get_album_tracks : Album.t -> St -> result (list Track.t) * St;
  get_artist_albums : Artist.t -> St -> result (list Album.t) * St;
  get_media : Track.t -> St -> result (str * option decryptor) * St;
  authenticate : St -> result unit * St;
}.

(** The modules [requests] and [mania.metadata]; the latter is not among
    the sources, and its two tag writers are parameters. *)
Record Modules := {
  requests_get : str -> bool -> St -> result Response * St;
  resolve_mp4_metadata :
    Config -> Track.t -> option Cover -> bytes -> result unit * bytes;
  resolve_flac_metadata :
    Config -> Track.t -> option Cover -> bytes -> result unit * bytes;
}.

(** Regular files by path, the external state and the events so far.
    Directories are not tracked: a directory is there when [os.makedirs]
    has made it, which leaves an event. *)
Record world := {
  fs : gmap str bytes;
  ext : St;
  trace : list event;
}.

(** *** The monad of the orchestrator: state and exceptions *)

Definition M (A : Type) : Type := world -> result A * world.

#[global] Instance M_ret : MRet M := fun A a w => (Ok a, w).

#[global] Instance M_bind : MBind M := fun A B f m w =>
  match m w with
  | (Ok a, w') => f a w'
  | (Raise e, w') => (Raise e, w')
  end.

Definition raise {A} (e : exn) : M A := fun w => (Raise e, w).

Definition emit (ev : event) : M unit := fun w =>
  (Ok tt, {| fs := fs w; ext := ext w; trace := trace w ++ [ev] |}).

(** A call to a collaborator: the event is recorded, the answer and the
    new external state are the collaborator's. *)
Definition external {A} (ev : event) (f : St -> result A * St) : M A :=
  fun w =>
    let (r, s) := f (ext w) in
    (r, {| fs := fs w; ext := s; trace := trace w ++ [ev] |}).

Definition set_fs (f : gmap str bytes -> gmap str bytes) : M unit := fun w =>
  (Ok tt, {| fs := f (fs w); ext := ext w; trace := trace w |}).

Definition read_file (path : str) : M (option bytes) := fun w =>
  (Ok (fs w !! path), w).

(** The regular files as they are. *)
Definition snapshot : M (gmap str bytes) := fun w => (Ok (fs w), w).

(** [try: m except requests.exceptions.HTTPError as error: handler]. *)
Definition try_except_HTTPError {A} (m : M A) (handler : Response -> M A)
  : M A := fun w =>
  match m w with
  | (Raise (HTTPError response), w') => handler response w'
  | other => other
  end.

(** [try: m except metadata.InvalidFileError: handler]. *)
Definition try_except_InvalidFileError {A} (m : M A) (handler : M A)
  : M A := fun w =>
  match m w with
  | (Raise InvalidFileError, w') => handler w'
  | other => other
  end.

(** *** The operating system

    The operations act on the map of regular files and fail only where
    the content of that map makes them fail (a missing source, an empty
    directory name); permissions and the state of the disk are outside
    the model. *)

Definition os_path_isfile (path : str) : M bool :=
  emit (EvIsFile path);;
  content ← read_file path;
  mret (bool_decide (is_Some content)).

(** [os.makedirs(path, exist_ok=True)].  The empty path is refused, and
    so is a path with a regular file in the way; directories that are
    there already are no obstacle, and nothing is made before the
    refusal. *)
Definition os_makedirs (path : str) : M unit :=
  match path with
  | [] => raise FileNotFoundError
  | _ =>
      files ← snapshot;
      match in_the_way files path with
      | Some e => raise e
      | None => emit (EvMakedirs path)
      end
  end.

(** [open(path, mode="wb")]: the file is created or emptied. *)
Definition open_wb (path : str) : M unit :=
  emit (EvOpen path);;
  set_fs (insert path []).

Definition write (path : str) (chunk : bytes) : M unit :=
  emit (EvWrite path chunk);;
  set_fs (alter (fun content => content ++ chunk) path).

Definition os_remove (path : str) : M unit :=
  emit (EvRemove path);;
  content ← read_file path;
  match content with
  | Some _ => set_fs (delete path)
  | None => raise FileNotFoundError
  end.

(** [os.rename(src, dst)]: an existing [dst] is replaced. *)
Definition os_rename (src dst : str) : M unit :=
  emit (EvRename src dst);;
  content ← read_file src;
  match content with
  | Some c => set_fs (fun m => <[dst := c]> (delete src m))
  | None => raise FileNotFoundError
  end.

(** A collaborator that rewrites the file at [path] in place. *)
Definition in_place (path : str) (f : bytes -> result unit * bytes)
  : M unit :=
  content ← read_file path;
  match content with
  | Some c =>
      let (r, c') := f c in
      set_fs (insert path c');;
      match r with Ok _ => mret tt | Raise e => raise e end
  | None => raise FileNotFoundError
  end.

(** [response.raise_for_status()]. *)
Definition raise_for_status (response : Response) : M unit :=
  if ((400 <=? status_code response) && (status_code response <? 600))%Z
  then raise (HTTPError response) else mret tt.

Context (K : Constants) (lib : Modules).

(** *** log

    [message] is never [None] at the calls of this file, and [indent]
    never negative. *)

Definition log (config : Config) (message : str) (indent : nat) : M unit :=
  if negb (quiet config)
  then emit (EvPrint (concat (replicate indent (INDENT K)) ++ message))
  else mret tt.

(** *** Loops *)

(** [for x in l: body(x)]. *)
Fixpoint for_each {A} (l : list A) (body : A -> M unit) : M unit :=
  match l with
  | [] => mret tt
  | x :: r => body x;; for_each r body
  end.

(** [enumerate(l, start)]. *)
Fixpoint enumerate {A} (l : list A) (start : nat) : list (nat * A) :=
  match l with
  | [] => []
  | x :: r => (start, x) :: enumerate r (S start)
  end.

(** [for chunk in response.iter_content(...): body(chunk)]: the chunks are
    handed over one by one; a broken transfer raises after the last. *)
Definition for_each_chunk (response : Response) (body : bytes -> M unit)
  : M unit :=
  for_each (chunks response) body;;
  if broken response then raise ConnectionError else mret tt.

(** *** resolve_metadata *)

Definition resolve_metadata (config : Config) (track : Track.t)
    (path : str) (indent : nat) : M unit :=
  log config (u "Resolving metadata...") indent;;
  cover ← match Album.cover_url (Track.album track) with
          | Some (c :: url) =>
              request ← external (EvRequestsGet (c :: url) false)
                          (requests_get lib (c :: url) false);
              raise_for_status request;;
              let data := concat (chunks request) in
              let mime := default [] (content_type request) in
              mret (Some {| data := data; mime := mime |})
          | _ => mret None
          end;
  resolver ←
    (if bool_decide (Track.extension track = u "mp4")
     then mret (resolve_mp4_metadata lib)
     else if bool_decide (Track.extension track = u "flac")
     then mret (resolve_flac_metadata lib)
     else raise (KeyError (Track.extension track)));
  emit (EvEmbed (Track.extension track) path);;
  in_place path (resolver config track cover).

(** *** get_track_path *)

Definition get_track_path (client : Client) (config : Config)
    (track : Track.t) (siblings : option (list Track.t))
    (include_artist include_album : bool) : M str :=
  artist_path ←
    (if include_artist || full_structure config then
       match Album.artists (Track.album track) with
       | artist :: _ => mret (sanitize config (Artist.name artist))
       | [] => raise IndexError
       end
     else mret []);
  '(album_path, disc_path, file_path) ←
    (if include_album || full_structure config then
       siblings ←
         match siblings with
         | Some (s :: l) => mret (s :: l)
         | _ => external (EvGetAlbumTracks (Track.album track))
                  (get_album_tracks client (Track.album track))
         end;
       maximum_disc_number ←
         match max_of (map Track.disc_number siblings) with
         | Some n => mret n
         | None => raise ValueError
         end;
       maximum_track_number ←
         match max_of (map Track.track_number siblings) with
         | Some n => mret n
         | None => raise ValueError
         end;
       let album_path := sanitize config (Album.name (Track.album track)) in
       let disc_path :=
         if (1 <? maximum_disc_number)%Z then
           let disc_number :=
             zfill (str_of_Z (Track.disc_number track))
               (length (str_of_Z maximum_disc_number)) in
           sanitize config (u "Disc " ++ disc_number)
         else [] in
       let track_number :=
         zfill (str_of_Z (Track.track_number track))
           (length (str_of_Z maximum_track_number)) in
       let file_path :=
         sanitize config (track_number ++ [SPACE] ++ Track.name track) in
       mret (album_path, disc_path, file_path)
     else mret ([], [], sanitize config (Track.name track)));
  mret (os_path_join (output_directory config)
          [artist_path; album_path; disc_path; file_path]).

(** *** download_track *)

(** The two names derived from the resolved path (lines 156-157). *)
Definition temporary_path_of (track_path : str) (track : Track.t) : str :=
  track_path ++ [DOT] ++ TEMPORARY_EXTENSION K ++ [DOT]
    ++ Track.extension track.

Definition final_path_of (track_path : str) (track : Track.t) : str :=
  track_path ++ [DOT] ++ Track.extension track.

(** The body of [download_track] is cut at its blank lines into four
    blocks, each given a name of its own here. *)

(** Lines 165-189, the two nested [try] statements: the media locator,
    or [None] when the handler of the outer [try] returns from
    [download_track]. *)
Definition request_media (client : Client) (config : Config)
    (track : Track.t) (final_path : str) (indent : nat)
  : M (option (str * option decryptor)) :=
  try_except_HTTPError
    (media ←
       try_except_HTTPError
         (external (EvGetMedia track) (get_media client track))
         (fun response =>
            if (status_code response =? 429)%Z then
              log config
                (u "Too many requests, logging out and back in...")
                indent;;
              external EvAuthenticate (authenticate client);;
              external (EvGetMedia track) (get_media client track)
            else raise (HTTPError response));
     mret (Some media))
    (fun response =>
       let status_code := status_code response in
       sub_status ←
         match json response with
         | JsonObject sub_status => mret sub_status
         | NotJson => raise JSONDecodeError
         end;
       if bool_decide ((status_code, sub_status) = (401, Some 4005))%Z
       then
         log config
           (u "Skipping download of " ++ os_path_basename final_path
              ++ u "; track is not available.") indent;;
         mret None
       else raise (HTTPError response)).

(** Lines 190-211: the payload goes to the temporary path chunk by
    chunk.  The progress bar of the verbose branch only draws; what that
    branch adds is the read of the [Content-Length] header, whose
    absence the case-insensitive dictionary of [requests] reports under
    the lowercase name. *)
Definition stream_payload (config : Config) (media_url : str)
    (temporary_path final_path : str) : M unit :=
  os_makedirs (os_path_dirname final_path);;
  request ← external (EvRequestsGet media_url true)
              (requests_get lib media_url true);
  raise_for_status request;;
  open_wb temporary_path;;
  if quiet config then
    for_each_chunk request (write temporary_path)
  else
    match content_length request with
    | Some total => for_each_chunk request (write temporary_path)
    | None => raise (KeyError (u "content-length"))
    end.

(** Lines 213-215. *)
Definition decrypt_payload (config : Config) (decryptor : option decryptor)
    (temporary_path : str) (indent : nat) : M unit :=
  match decryptor with
  | Some decrypt =>
      log config (u "Decrypting...") indent;;
      emit (EvDecrypt temporary_path);;
      in_place temporary_path decrypt
  | None => mret tt
  end.

(** Lines 217-227: [false] when the handler returns from
    [download_track], [true] when control reaches the rename. *)
Definition embed_metadata (config : Config) (track : Track.t)
    (temporary_path final_path : str) (indent : nat) : M bool :=
  if negb (skip_metadata config) then
    try_except_InvalidFileError
      (resolve_metadata config track temporary_path indent;;
       mret true)
      (log config
         (u "Skipping " ++ os_path_basename final_path
            ++ u "; received invalid file") indent;;
       os_remove temporary_path;;
       mret false)
  else mret true.

Definition download_track (client : Client) (config : Config)
    (track : Track.t) (siblings : option (list Track.t))
    (include_artist include_album : bool) (indent : nat) : M unit :=
  track_path ← get_track_path client config track siblings
                 include_artist include_album;
  let temporary_path := temporary_path_of track_path track in
  let final_path := final_path_of track_path track in
  exists_ ← os_path_isfile final_path;
  if (exists_ : bool) then
    log config
      (u "Skipping download of " ++ os_path_basename final_path
         ++ u "; it already exists.") indent
  else
    media ← request_media client config track final_path indent;
    match media with
    | None => mret tt
    | Some (media_url, decryptor) =>
        stream_payload config media_url temporary_path final_path;;
        decrypt_payload config decryptor temporary_path indent;;
        finalize ← embed_metadata config track temporary_path final_path
                     indent;
        if (finalize : bool) then os_rename temporary_path final_path
        else mret tt
    end.

(** *** download_album *)

Definition download_album (client : Client) (config : Config)
    (album : Album.t) (include_artist : bool) (indent : nat) : M unit :=
  tracks ← external (EvGetAlbumTracks album) (get_album_tracks client album);
  for_each (enumerate tracks 1) (fun '(index, track) =>
    log config
      (u "Downloading " ++ [QUOTE] ++ Track.name track ++ [QUOTE]
         ++ u " (" ++ str_of_N (N.of_nat index) ++ u " of "
         ++ str_of_N (N.of_nat (length tracks)) ++ u " track(s))...")
      indent;;
    download_track client config track (Some tracks) include_artist true
      (S indent)).

(** *** download_discography *)

Definition download_discography (client : Client) (config : Config)
    (artist : Artist.t) (indent : nat) : M unit :=
  albums ← external (EvGetArtistAlbums artist)
             (get_artist_albums client artist);
  for_each (enumerate albums 1) (fun '(index, album) =>
    log config
      (u "Downloading " ++ [QUOTE] ++ Album.name album ++ [QUOTE]
         ++ u " (" ++ str_of_N (N.of_nat index) ++ u " of "
         ++ str_of_N (N.of_nat (length albums)) ++ u " album(s))...")
      indent;;
    download_album client config album true (S indent)).

End Mania.

Arguments Client : clear implicits.
Arguments Modules : clear implicits.
Arguments world : clear implicits.

(** ** Vocabulary of the statements *)

(** [m] is the greatest element of [l]. *)
Definition is_maximum (m : Z) (l : list Z) : Prop :=
  m ∈ l ∧ ∀ x, x ∈ l → (x <= m)%Z.

(** The numeral of [n] in an album whose greatest number is [maximum]:
    [str(n).zfill(len(str(maximum)))]. *)
Definition numeral (n maximum : Z) : str :=
  zfill (str_of_Z n) (length (str_of_Z maximum)).

(** [get_track_path] lists the album when album inclusion is active and it
    was handed no sibling, or an empty list of them. *)
Definition listing_needed (config : Config)
    (siblings : option (list Track.t)) (include_album : bool) : bool :=
  (include_album || full_structure config)
  && match siblings with Some (_ :: _) => false | _ => true end.

(** What [log] prints. *)
Definition log_events (K : Constants) (config : Config) (message : str)
    (indent : nat) : list event :=
  if quiet config then []
  else [EvPrint (concat (replicate indent (INDENT K)) ++ message)].

(** Kinds of events. *)
Definition is_listing (ev : event) : bool :=
  match ev with EvGetAlbumTracks _ => true | _ => false end.
Definition is_get_media (ev : event) : bool :=
  match ev with EvGetMedia _ => true | _ => false end.
Definition is_authenticate (ev : event) : bool :=
  match ev with EvAuthenticate => true | _ => false end.
Definition is_isfile (ev : event) : bool :=
  match ev with EvIsFile _ => true | _ => false end.
Definition is_rename (ev : event) : bool :=
  match ev with EvRename _ _ => true | _ => false end.
Definition is_transfer (ev : event) : bool :=
  match ev with EvRequestsGet _ _ => true | _ => false end.

(** The path an event writes to, creates, rewrites or removes. *)
Definition file_written (ev : event) : option str :=
  match ev with
  | EvOpen p | EvWrite p _ | EvDecrypt p | EvEmbed _ p | EvRemove p => Some p
  | _ => None
  end.

(** What may happen before the rename: no rename, and no file operation
    but on the temporary path. *)
Definition before_rename (temporary_path : str) (ev : event) : Prop :=
  is_rename ev = false
  ∧ ∀ p, file_written ev = Some p → p = temporary_path.

Definition count (f : event -> bool) (d : list event) : nat :=
  length (List.filter f d).

(** A track that differs from [track] by its own artists only. *)
Definition with_artists (track : Track.t) (artists : list Artist.t)
  : Track.t :=
  {| Track.id := Track.id track;
     Track.name := Track.name track;
     Track.artists := artists;
     Track.album := Track.album track;
     Track.disc_number := Track.disc_number track;
     Track.track_number := Track.track_number track;
     Track.extension := Track.extension track |}.

(** The messages of [download_track]. *)
Definition already_exists_message (final_path : str) : str :=
  u "Skipping download of " ++ os_path_basename final_path
    ++ u "; it already exists.".
Definition not_available_message (final_path : str) : str :=
  u "Skipping download of " ++ os_path_basename final_path
    ++ u "; track is not available.".
Definition invalid_file_message (final_path : str) : str :=
  u "Skipping " ++ os_path_basename final_path ++ u "; received invalid file".
Definition too_many_requests_message : str :=
  u "Too many requests, logging out and back in...".

(** The not-entitled signal: status 401 with sub-status 4005. *)
Definition not_entitled (response : Response) : bool :=
  (status_code response =? 401)%Z
  && match json response with
     | JsonObject (Some sub_status) => (sub_status =? 4005)%Z
     | _ => false
     end.

(** What leaves [download_track] when an HTTP failure is not the
    not-entitled signal: the failure itself, or the failure to decode its
    body. *)
Definition escalated (response : Response) : exn :=
  match json response with
  | NotJson => JSONDecodeError
  | JsonObject _ => HTTPError response
  end.

Section Vocabulary.

Context {St : Type}.
Local Abbreviation M := (@M St).

(** The world [w] once the external state has become [s] and the events
    [d] have been added. *)
Definition after (w : world St) (s : St) (d : list event) : world St :=
  {| fs := fs w; ext := s; trace := trace w ++ d |}.

(** [extends P Q w w']: from [w] to [w'] only events that satisfy [P]
    were added to the trace and every file outside [Q] is as it was. *)
Definition extends (P : event → Prop) (Q : str → Prop) (w w' : world St)
  : Prop :=
  (∃ d, trace w' = trace w ++ d ∧ Forall P d)
  ∧ (∀ p, ¬ Q p → fs w' !! p = fs w !! p).

(** [sound P Q m]: whatever [m] returns, the world it leaves extends the
    one it started from. *)
Definition sound {A} (P : event → Prop) (Q : str → Prop) (m : M A) : Prop :=
  ∀ (w : world St) r w', m w = (r, w') → extends P Q w w'.

Context (K : Constants) (lib : Modules St).

(** The handler of the outer [try] of [download_track], by name. *)
Definition on_http_error (config : Config) (final_path : str)
    (indent : nat) (response : Response)
  : M (option (str * option decryptor)) :=
  let status_code := status_code response in
  sub_status ←
    match json response with
    | JsonObject sub_status => mret sub_status
    | NotJson => raise JSONDecodeError
    end;
  if bool_decide ((status_code, sub_status) = (401, Some 4005))%Z
  then
    log K config
      (u "Skipping download of " ++ os_path_basename final_path
         ++ u "; track is not available.") indent;;
    mret None
  else raise (HTTPError response).

(** What [download_track] does once it holds the media locator. *)
Definition finish (config : Config) (track : Track.t) (media_url : str)
    (decryptor : option decryptor) (temporary_path final_path : str)
    (indent : nat) : M unit :=
  stream_payload lib config media_url temporary_path final_path;;
  decrypt_payload K config decryptor temporary_path indent;;
  finalize ← embed_metadata K lib config track temporary_path final_path
               indent;
  if (finalize : bool) then os_rename temporary_path final_path
  else mret tt.

End Vocabulary.

(** The progress line of [download_album]. *)
Definition track_progress_message (track : Track.t) (index total : nat)
  : str :=
  u "Downloading " ++ [QUOTE] ++ Track.name track ++ [QUOTE]
    ++ u " (" ++ str_of_N (N.of_nat index) ++ u " of "
    ++ str_of_N (N.of_nat total) ++ u " track(s))...".

(** ** Character tables for the examples *)

(** The tables cut down to ASCII and U+0130: every other code point is
    taken as no letter and left as it is. *)
Definition unicode0 : Unicode.
Proof.
  refine
    {| isalnum := fun c => ascii_isalnum c || (c =? 304);
       lower := fun s =>
         concat (map (fun c => if c =? 304 then [105; 775]
                               else [ascii_lower c]) s) |}.
  - intros c Hc. destruct (N.eqb_spec c 304); [lia|apply orb_false_r].
  - intros s Hs. induction Hs as [|c s Hc _ IH]; [done|].
    simpl. rewrite IH. destruct (N.eqb_spec c 304); [lia|done].
  - intros [|c s] Hs; [done|]. simpl. by destruct (c =? 304).
  - intros s. induction s as [|c s IH]; [done|]. simpl.
    intros H. apply elem_of_app in H as [H|H]; [|right; by apply IH].
    destruct (N.eqb_spec c 304) as [->|Hc].
    + apply elem_of_cons in H as [H|H]; [discriminate H|].
      apply elem_of_cons in H as [H|H]; [discriminate H|].
      by apply elem_of_nil in H.
    + apply elem_of_cons in H as [H|H]; [|by apply elem_of_nil in H].
      unfold ascii_lower, isupper, SLASH in *.
      destruct (65 <=? c) eqn:E1; destruct (c <=? 90) eqn:E2; simpl in H;
        try (rewrite H; by left). apply N.leb_le in E1. lia.
  - reflexivity.
  - reflexivity.
  - reflexivity.
Defined.

(** ** A small catalogue, for the examples *)

Definition K0 : Constants :=
  {| INDENT := u "  "; TEMPORARY_EXTENSION := u "part" |}.

Definition artist0 : Artist.t := {| Artist.id := 1; Artist.name := u "Ann" |}.

Definition album0 : Album.t :=
  {| Album.id := 1; Album.name := u "Demo"; Album.artists := [artist0];
     Album.year := None; Album.cover_url := None |}.

Definition track0 : Track.t :=
  {| Track.id := 1; Track.name := u "Song"; Track.artists := [];
     Track.album := album0; Track.disc_number := 1; Track.track_number := 3;
     Track.extension := u "flac" |}.

Definition track1 : Track.t :=
  {| Track.id := 2; Track.name := u "Tune"; Track.artists := [artist0];
     Track.album := album0; Track.disc_number := 2; Track.track_number := 12;
     Track.extension := u "flac" |}.

Definition payload0 : Response :=
  {| status_code := 200; json := NotJson; content_length := Some 2%Z;
     content_type := None; chunks := [[Byte.x01]; [Byte.x02]];
     broken := false |}.

Definition too_many_requests : Response :=
  {| status_code := 429; json := JsonObject None; content_length := None;
     content_type := None; chunks := []; broken := false |}.

Definition not_licensed : Response :=
  {| status_code := 401; json := JsonObject (Some 4005%Z);
     content_length := None; content_type := None; chunks := [];
     broken := false |}.

(** A service that answers every request. *)
Definition client0 : Client unit :=
  {| get_album_tracks := fun _ s => (Ok [track0; track1], s);
     get_artist_albums := fun _ s => (Ok [album0], s);
     get_media := fun _ s => (Ok (u "http://m", None), s);
     authenticate := fun s => (Ok tt, s) |}.

(** A service that always signals a rate limit. *)
Definition client_limited : Client unit :=
  {| get_album_tracks := fun _ s => (Ok [track0; track1], s);
     get_artist_albums := fun _ s => (Ok [album0], s);
     get_media := fun _ s => (Raise (HTTPError too_many_requests), s);
     authenticate := fun s => (Ok tt, s) |}.

(** A service for which the track is not licensed. *)
Definition client_unlicensed : Client unit :=
  {| get_album_tracks := fun _ s => (Ok [track0; track1], s);
     get_artist_albums := fun _ s => (Ok [album0], s);
     get_media := fun _ s => (Raise (HTTPError not_licensed), s);
     authenticate := fun s => (Ok tt, s) |}.

Definition lib0 : Modules unit :=
  {| requests_get := fun _ _ s => (Ok payload0, s);
     resolve_mp4_metadata := fun _ _ _ c => (Ok tt, c);
     resolve_flac_metadata := fun _ _ _ c => (Ok tt, c ++ [Byte.xff]) |}.

(** Tag writers that reject every file. *)
Definition lib_invalid : Modules unit :=
  {| requests_get := fun _ _ s => (Ok payload0, s);
     resolve_mp4_metadata := fun _ _ _ c => (Raise InvalidFileError, c);
     resolve_flac_metadata := fun _ _ _ c => (Raise InvalidFileError, c) |}.

Definition cfg_plain : Config :=
  {| quiet := false; nice_format := false; full_structure := false;
     skip_metadata := false; output_directory := u "out" |}.

Definition cfg_nice : Config :=
  {| quiet := false; nice_format := true; full_structure := false;
     skip_metadata := false; output_directory := u "out" |}.

Definition cfg_full : Config :=
  {| quiet := false; nice_format := false; full_structure := true;
     skip_metadata := false; output_directory := u "out" |}.

Definition cfg_skip : Config :=
  {| quiet := true; nice_format := false; full_structure := false;
     skip_metadata := true; output_directory := u "out" |}.

(** The paths of [track0]: alone, and within its album and artist. *)
Definition path_plain : str := u "out/Song".
Definition path_full : str := u "out/Ann/Demo/Disc 1/03 Song".

Definition w_empty : world unit := {| fs := ∅; ext := tt; trace := [] |}.

(** A disk on which the final file of [track0] is already there. *)
Definition w_present : world unit :=
  {| fs := {[ final_path_of path_full track0 := [Byte.x01] ]};
     ext := tt; trace := [] |}.

(** The worlds of a download of [track0] whose payload the tag writers
    reject: with the media locator, with the payload on disk, and after the
    writer has raised. *)
Definition w_located : world unit :=
  after w_empty tt
    [EvIsFile (final_path_of path_plain track0); EvGetMedia track0].

Definition w_streamed : world unit :=
  (stream_payload lib_invalid cfg_plain (u "http://m")
     (temporary_path_of K0 path_plain track0)
     (final_path_of path_plain track0) w_located).2.

Definition w_rejected : world unit :=
  (resolve_metadata K0 lib_invalid cfg_plain track0
     (temporary_path_of K0 path_plain track0) 0 w_streamed).2.

(** ** Further vocabulary *)

(** A word of a slug: not empty, and free of hyphens, spaces, separators
    and ASCII capitals. *)
Definition slug_word (w : str) : Prop :=
  w ≠ []
  ∧ Forall (fun c => c ≠ HYPHEN ∧ c ≠ SPACE ∧ c ≠ SLASH ∧ isupper c = false) w.

Definition is_print (ev : event) : bool :=
  match ev with EvPrint _ => true | _ => false end.
Definition is_artist_listing (ev : event) : bool :=
  match ev with EvGetArtistAlbums _ => true | _ => false end.

(** Directories are not part of a disk as it is modelled, except for what
    the regular files tell: a path with a regular file below it is a
    directory, and cannot be opened for writing or be the target of the
    rename of a file. *)
Definition is_directory (files : gmap str bytes) (path : str) : Prop :=
  ∃ p, is_Some (files !! p) ∧ (path ++ [SLASH]) `prefix_of` p.

(** A computation that leaves the console alone. *)
Definition silent {St A} (m : @M St A) : Prop :=
  ∀ (w : world St) r w', m w = (r, w') →
    ∃ d, trace w' = trace w ++ d ∧ Forall (fun ev => is_print ev = false) d.

(** The progress line of [download_discography]. *)
Definition album_progress_message (album : Album.t) (index total : nat)
  : str :=
  u "Downloading " ++ [QUOTE] ++ Album.name album ++ [QUOTE]
    ++ u " (" ++ str_of_N (N.of_nat index) ++ u " of "
    ++ str_of_N (N.of_nat total) ++ u " album(s))...".

(** ** load_config *)

(** What an argument of the command line or an entry of the configuration
    file holds: Python's [None], a boolean, an integer or a string.
    [load_config] passes the values along and looks into none but the
    configuration path and the output directory, so arrays and tables are
    left out. *)
Inductive value :=
| VNone
| VBool (b : bool)
| VInt (n : Z)
| VStr (s : str).

(** Truth of a value in a condition. *)
Definition truthy (v : value) : bool :=
  match v with
  | VNone => false
  | VBool b => b
  | VInt n => negb (n =? 0)%Z
  | VStr s => nonempty s
  end.

(** [d.get(key)]. *)
Definition get (d : gmap str value) (key : str) : value :=
  default VNone (d !! key).

(** The local function [resolve] of [load_config]. *)
Definition resolve (from_args from_file default : value) : value :=
  match from_args with
  | VNone =>
      match from_file with
      | VNone => default
      | _ => from_file
      end
  | _ => from_args
  end.

(** The three constants of [mania.constants] that [load_config] reads;
    [DEFAULT_CONFIG] is the text of the default file as it reaches the
    disk. *)
Record ConfigConstants := {
  CONFIG_PATH : str;
  DEFAULT_CONFIG : bytes;
  DEFAULT_CONFIG_TOML : gmap str value;
}.

(** What [load_config] takes from its libraries: the TOML reader, from the
    content of a file to its top-level table or to the exception it
    raises, and [os.path.expanduser]. *)
Record Platform := {
  toml_loads : bytes → result (gmap str value);
  expanduser : str → str;
}.

(** Lines 306-312: the table [load_config] returns, from the arguments,
    the path of the file and its table.  Each key of the defaults is
    resolved; the output directory has to be there, and a string; the path
    of the file is entered last. *)
Definition config_of (C : ConfigConstants) (platform : Platform)
    (args : gmap str value) (config_path : value)
    (config_toml : gmap str value) : result (gmap str value) :=
  let config :=
    map_imap
      (fun key default =>
         Some (resolve (get args key) (get config_toml key) default))
      (DEFAULT_CONFIG_TOML C) in
  match config !! u "output-directory" with
  | Some (VStr s) =>
      Ok (<[u "config-path" := config_path]>
            (<[u "output-directory" := VStr (expanduser platform s)]> config))
  | Some _ => Raise (OtherException (u "TypeError"))
  | None => Raise (KeyError (u "output-directory"))
  end.

Section Configuration.

Context {St : Type}.
Local Abbreviation M := (@M St).
Context (C : ConfigConstants) (platform : Platform).

(** A computation with no effect but its outcome. *)
Definition of_result {A} (r : result A) : M A := fun w => (r, w).

(** [toml.load(path)]: a string names a file, which has to be there;
    a boolean or an integer is refused. *)
Definition toml_load (path : value) : M (gmap str value) :=
  match path with
  | VStr p =>
      content ← read_file p;
      match content with
      | Some c => of_result (toml_loads platform c)
      | None => raise FileNotFoundError
      end
  | _ => raise (OtherException (u "TypeError"))
  end.

(** Lines 291-296: the default path, its file written first when it is
    not there.  The file is opened in text mode; the model opens it as
    the payload files are opened and writes the encoded text. *)
Definition default_config_path : M value :=
  exists_ ← os_path_isfile (CONFIG_PATH C);
  (if (exists_ : bool) then mret tt
   else
     os_makedirs (os_path_dirname (CONFIG_PATH C));;
     open_wb (CONFIG_PATH C);;
     write (CONFIG_PATH C) (DEFAULT_CONFIG C));;
  mret (VStr (CONFIG_PATH C)).

(** Lines 287-312. *)
Definition load_config (args : gmap str value) : M (gmap str value) :=
  given ← match args !! u "config-path" with
          | Some v => mret v
          | None => raise (KeyError (u "config-path"))
          end;
  config_path ←
    (if truthy given then mret given else default_config_path);
  config_toml ← toml_load config_path;
  of_result (config_of C platform args config_path config_toml).

End Configuration.

(** ** Further inputs for the examples *)

(** A service whose album listings are empty. *)
Definition client_empty : Client unit :=
  {| get_album_tracks := fun _ s => (Ok [], s);
     get_artist_albums := fun _ s => (Ok [album0], s);
     get_media := fun _ s => (Ok (u "http://m", None), s);
     authenticate := fun s => (Ok tt, s) |}.

(** A payload that comes without its length. *)
Definition payload_headless : Response :=
  {| status_code := 200; json := NotJson; content_length := None;
     content_type := None; chunks := [[Byte.x01]; [Byte.x02]];
     broken := false |}.

Definition lib_headless : Modules unit :=
  {| requests_get := fun _ _ s => (Ok payload_headless, s);
     resolve_mp4_metadata := fun _ _ _ c => (Ok tt, c);
     resolve_flac_metadata := fun _ _ _ c => (Ok tt, c) |}.

(** No output directory. *)
Definition cfg_flat : Config :=
  {| quiet := false; nice_format := false; full_structure := false;
     skip_metadata := false; output_directory := [] |}.

(** An album with a cover, and a track of it in a container that has no
    tag writer. *)
Definition album_art : Album.t :=
  {| Album.id := 2; Album.name := u "Live"; Album.artists := [artist0];
     Album.year := None; Album.cover_url := Some (u "http://c") |}.

Definition track_ogg : Track.t :=
  {| Track.id := 3; Track.name := u "Reel"; Track.artists := [];
     Track.album := album_art; Track.disc_number := 1;
     Track.track_number := 1; Track.extension := u "ogg" |}.

(** A configuration with two keys; a TOML reader that knows two texts, the
    empty one and the one that sets [quiet]; a home directory. *)
Definition C0 : ConfigConstants :=
  {| CONFIG_PATH := u "etc/mania.toml";
     DEFAULT_CONFIG := [];
     DEFAULT_CONFIG_TOML :=
       {[ u "quiet" := VBool false;
          u "output-directory" := VStr (u "~/Music") ]} |}.

Definition platform0 : Platform :=
  {| toml_loads := fun content =>
       match content with
       | [] => Ok ∅
       | _ => Ok {[ u "quiet" := VBool true; u "colour" := VBool true ]}
       end;
     expanduser := fun path =>
       match path with
       | 126 :: rest => u "/home/ann" ++ rest
       | _ => path
       end |}.

(** Arguments with no configuration path and [quiet] switched off by
    name. *)
Definition args0 : gmap str value :=
  {[ u "config-path" := VNone; u "quiet" := VBool false;
     u "query" := VStr (u "demo") ]}.


(** A disk with a configuration file that sets [quiet]. *)
Definition w_configured : world unit :=
  {| fs := {[ u "etc/mania.toml" := [Byte.x71] ]}; ext := tt; trace := [] |}.

(** A disk on which a regular file holds the name of the output
    directory. *)
Definition w_blocked : world unit :=
  {| fs := {[ u "out" := [Byte.x00] ]}; ext := tt; trace := [] |}.

(** * Sanitization *)

(** *** filter *)

Lemma Forall_filter_bool {A} (f : A → bool) (P : A → Prop) l :
  Forall P l → Forall (fun x => P x ∧ f x = true) (List.filter f l).
Proof.
  induction 1 as [|x l Hx _ IH]; simpl; [constructor|].
  destruct (f x) eqn:E; [constructor|]; auto.
Qed.

(** *** split and join *)

Lemma split_no_sep sep w : sep ∉ w → split sep w = [w].
Proof.
  induction w as [|c w IH]; intros H; simpl; [done|].
  apply not_elem_of_cons in H as [Hc Hw].
  destruct (N.eqb_spec c sep); [congruence|]. by rewrite IH.
Qed.

Lemma split_app sep w rest :
  sep ∉ w → split sep (w ++ sep :: rest) = w :: split sep rest.
Proof.
  induction w as [|c w IH]; intros H; simpl.
  - by rewrite N.eqb_refl.
  - apply not_elem_of_cons in H as [Hc Hw].
    destruct (N.eqb_spec c sep); [congruence|]. by rewrite IH.
Qed.

(** The words of a split carry characters of the input, none of them the
    separator. *)
Lemma split_chars sep s :
  Forall (Forall (fun c => c ∈ s ∧ c ≠ sep)) (split sep s).
Proof.
  induction s as [|c r IH]; simpl; [repeat constructor|].
  assert (Hr : Forall (Forall (fun x => x ∈ c :: r ∧ x ≠ sep)) (split sep r)).
  { eapply Forall_impl; [exact IH|]. intros w Hw.
    eapply Forall_impl; [exact Hw|].
    intros x [? ?]. split; [by right|done]. }
  destruct (N.eqb_spec c sep).
  - by constructor.
  - destruct (split sep r) as [|w ws].
    { constructor; [|constructor]. constructor; [|constructor].
      split; [left|done]. }
    inversion Hr; subst. constructor; [|done].
    constructor; [split; [left|done]|done].
Qed.

Lemma Forall_join (P : char → Prop) sep ws :
  Forall P sep → Forall (Forall P) ws → Forall P (join sep ws).
Proof.
  intros Hsep H. induction H as [|w ws Hw Hws IH]; simpl; [constructor|].
  destruct ws; [done|]. apply Forall_app; split; [done|].
  apply Forall_app; split; [done|]. by apply IH.
Qed.

(** *** replace and lower *)

Lemma replace_chars a b s :
  Forall (fun c => c = b ∨ (c ∈ s ∧ c ≠ a)) (replace a b s).
Proof.
  unfold replace. apply Forall_forall. intros c Hc.
  apply list_elem_of_fmap in Hc as (x & -> & Hx).
  destruct (N.eqb_spec x a); [by left|by right].
Qed.

Lemma nonempty_true (w : str) : nonempty w = true ↔ w ≠ [].
Proof. by destruct w. Qed.

(** *** The two tables *)

Section Tables.

Context `{unicode : !Unicode}.

Lemma isalnum_not_space c : isalnum c = true → c ≠ SPACE.
Proof. intros H ->. by rewrite isalnum_ascii in H. Qed.

Lemma isalnum_not_hyphen c : isalnum c = true → c ≠ HYPHEN.
Proof. intros H ->. by rewrite isalnum_ascii in H. Qed.

Lemma isalnum_not_slash c : isalnum c = true → c ≠ SLASH.
Proof. intros H ->. by rewrite isalnum_ascii in H. Qed.

Lemma lower_nil : lower [] = [].
Proof. by rewrite lower_ascii. Qed.

Lemma lower_empty s : lower s = [] ↔ s = [].
Proof.
  split; [|intros ->; apply lower_nil].
  intros H. destruct s as [|c s]; [done|].
  by apply lower_nonempty in H.
Qed.

(** The words that the nice style joins: those of the input, cut at spaces
    and hyphens, the empty ones left out. *)
Lemma nice_words s :
  Forall (fun w => w ≠ []
                   ∧ Forall (fun c => c ∈ s ∧ isalnum c = true) w)
    (List.filter nonempty
       (split HYPHEN
          (replace SPACE HYPHEN
             (List.filter
                (fun c => isalnum c || (c =? SPACE) || (c =? HYPHEN)) s)))).
Proof.
  set (kept := List.filter _ s).
  pose proof (Forall_filter_bool
                (fun c => isalnum c || (c =? SPACE) || (c =? HYPHEN))
                (fun c => c ∈ s) s) as Hkept.
  fold kept in Hkept.
  assert (Hs : Forall (fun c => c ∈ s) s) by (by apply Forall_forall).
  specialize (Hkept Hs). rewrite Forall_forall in Hkept.
  pose proof (replace_chars SPACE HYPHEN kept) as Hr.
  rewrite Forall_forall in Hr.
  eapply Forall_impl;
    [apply (Forall_filter_bool nonempty), split_chars|].
  intros w [Hw Hne]. split; [by apply nonempty_true|].
  eapply Forall_impl; [exact Hw|]. intros c [Hc Hh].
  destruct (Hr c Hc) as [?|[Hin Hsp]]; [done|].
  destruct (Hkept c Hin) as [Hcs Hk]. split; [done|].
  destruct (isalnum c); [done|]. simpl in Hk.
  destruct (N.eqb_spec c SPACE); [done|].
  destruct (N.eqb_spec c HYPHEN); done.
Qed.

(** No style lets a path separator through: the plain one removes it, the
    nice one keeps no character that is one, and lowercasing makes
    none. *)
Lemma sanitize_not_slash config s : SLASH ∉ sanitize config s.
Proof.
  unfold sanitize. destruct (nice_format config); simpl.
  - intros Hin. apply lower_separator in Hin. revert Hin.
    match goal with |- _ ∈ ?l → _ =>
      assert (H : Forall (fun x => x ≠ SLASH) l) end.
    { apply Forall_join; [by repeat constructor|].
      eapply Forall_impl; [apply nice_words|]. intros w [_ Hw].
      eapply Forall_impl; [exact Hw|]. intros c [_ Hc].
      by apply isalnum_not_slash. }
    intros Hin. rewrite Forall_forall in H. by apply (H _ Hin).
  - intros Hin. apply list_elem_of_In, List.filter_In in Hin as [_ Hin].
    by rewrite N.eqb_refl in Hin.
Qed.

(** C2: the nice style is not idempotent on U+0130.  The letter passes
    the filter and is lowercased afterwards, to [i] and the combining dot
    U+0307; the second pass filters that mark out, which the first pass
    never met. *)
Theorem sanitize_dotted_capital_i :
  sanitize cfg_nice [304] = [105; 775]
  ∧ sanitize cfg_nice (sanitize cfg_nice [304]) = [105]
  ∧ sanitize cfg_nice (sanitize cfg_nice [304]) ≠ sanitize cfg_nice [304].
Proof.
  assert (H1 : sanitize cfg_nice [304] = [105; 775]).
  { unfold sanitize. simpl. rewrite isalnum_dotted_capital. simpl.
    apply lower_dotted_capital. }
  assert (H2 : sanitize cfg_nice [105; 775] = [105]).
  { unfold sanitize. simpl.
    rewrite (isalnum_ascii 105), isalnum_combining_dot by done. simpl.
    rewrite lower_ascii; [done|]. by repeat constructor. }
  rewrite H1, H2. done.
Qed.

End Tables.

(** * Runs of the orchestrator *)

Section Runs.

Context {St : Type} `{unicode : !Unicode}.
Local Abbreviation M := (@M St).
Local Abbreviation world := (world St).
Local Abbreviation sound := (@sound St _).

(** *** Sequencing *)

Lemma bind_ok {A B} (m : M A) (f : A → M B) w a w1 :
  m w = (Ok a, w1) → (m ≫= f) w = f a w1.
Proof. intros H. unfold mbind, M_bind. by rewrite H. Qed.

Lemma bind_raise {A B} (m : M A) (f : A → M B) w e w1 :
  m w = (Raise e, w1) → (m ≫= f) w = (Raise e, w1).
Proof. intros H. unfold mbind, M_bind. by rewrite H. Qed.

Lemma bind_inv {A B} (m : M A) (f : A → M B) w r w' :
  (m ≫= f) w = (r, w') →
  (∃ e, m w = (Raise e, w') ∧ r = Raise e)
  ∨ (∃ a w1, m w = (Ok a, w1) ∧ f a w1 = (r, w')).
Proof.
  unfold mbind, M_bind. destruct (m w) as [[a|e] w1]; intros H.
  - right. eauto.
  - left. inversion H; subst. eauto.
Qed.

(** *** What a computation may do *)

Lemma sound_same {A} P Q (m : M A) :
  (∀ w r w', m w = (r, w') → fs w' = fs w ∧ trace w' = trace w) →
  sound P Q m.
Proof.
  unfold sound, extends.
  intros H w r w' E. destruct (H _ _ _ E) as [-> ->]. split; [|done].
  exists []. by rewrite app_nil_r.
Qed.

Lemma sound_ret {A} P Q (a : A) : sound P Q (mret a).
Proof. apply sound_same. intros w r w' E. by inversion E. Qed.

Lemma sound_raise {A} P Q e : sound P Q (raise e : M A).
Proof. apply sound_same. intros w r w' E. by inversion E. Qed.

Lemma sound_read P Q path : sound P Q (read_file path).
Proof. apply sound_same. intros w r w' E. by inversion E. Qed.

Lemma sound_snapshot P Q : sound P Q snapshot.
Proof. apply sound_same. intros w r w' E. by inversion E. Qed.

Lemma sound_emit (P : event → Prop) Q ev : P ev → sound P Q (emit ev).
Proof.
  unfold sound, extends.
  intros H w r w' E. inversion E; subst; simpl. split; [|done].
  exists [ev]. split; [done|]. by constructor.
Qed.

Lemma sound_external {A} (P : event → Prop) Q ev
    (f : St → result A * St) :
  P ev → sound P Q (external ev f).
Proof.
  unfold sound, extends.
  intros H w r w' E. unfold external in E. destruct (f (ext w)) as [r0 s].
  inversion E; subst; simpl. split; [|done].
  exists [ev]. split; [done|]. by constructor.
Qed.

Lemma sound_set_fs P (Q : str → Prop) f :
  (∀ m p, ¬ Q p → f m !! p = m !! p) → sound P Q (set_fs f).
Proof.
  unfold sound, extends.
  intros H w r w' E. inversion E; subst; simpl. split; [|by auto].
  exists []. by rewrite app_nil_r.
Qed.

Lemma sound_bind {A B} P Q (m : M A) (f : A → M B) :
  sound P Q m → (∀ a, sound P Q (f a)) → sound P Q (m ≫= f).
Proof.
  unfold sound, extends.
  intros Hm Hf w r w' E. apply bind_inv in E as [(e & E & ->)|(a & w1 & E1 & E2)].
  - by apply Hm in E.
  - apply Hm in E1 as [(d1 & T1 & F1) S1].
    apply Hf in E2 as [(d2 & T2 & F2) S2]. split.
    + exists (d1 ++ d2). rewrite T2, T1, app_assoc. split; [done|].
      by apply Forall_app.
    + intros p Hp. by rewrite S2, S1.
Qed.

Lemma sound_try_http {A} P Q (m : M A) handler :
  sound P Q m → (∀ response, sound P Q (handler response)) →
  sound P Q (try_except_HTTPError m handler).
Proof.
  unfold sound, extends.
  intros Hm Hh w r w' E. unfold try_except_HTTPError in E.
  destruct (m w) as [r0 w1] eqn:E1.
  assert (Hsame : (r0, w1) = (r, w') → extends P Q w w').
  { intros X; inversion X; subst. by apply Hm in E1. }
  unfold extends in Hsame.
  destruct r0 as [a|e]; [by auto|]. destruct e; try by auto.
  apply Hm in E1 as [(d1 & T1 & F1) S1].
  apply Hh in E as [(d2 & T2 & F2) S2]. split.
  - exists (d1 ++ d2). rewrite T2, T1, app_assoc. split; [done|].
    by apply Forall_app.
  - intros p Hp. by rewrite S2, S1.
Qed.

Lemma sound_try_invalid {A} P Q (m : M A) handler :
  sound P Q m → sound P Q handler →
  sound P Q (try_except_InvalidFileError m handler).
Proof.
  unfold sound, extends.
  intros Hm Hh w r w' E. unfold try_except_InvalidFileError in E.
  destruct (m w) as [r0 w1] eqn:E1.
  assert (Hsame : (r0, w1) = (r, w') → extends P Q w w').
  { intros X; inversion X; subst. by apply Hm in E1. }
  unfold extends in Hsame.
  destruct r0 as [a|e]; [by auto|]. destruct e; try by auto.
  apply Hm in E1 as [(d1 & T1 & F1) S1].
  apply Hh in E as [(d2 & T2 & F2) S2]. split.
  - exists (d1 ++ d2). rewrite T2, T1, app_assoc. split; [done|].
    by apply Forall_app.
  - intros p Hp. by rewrite S2, S1.
Qed.

Lemma sound_for_each {A} P Q (l : list A) (body : A → M unit) :
  (∀ x, x ∈ l → sound P Q (body x)) → sound P Q (for_each l body).
Proof.
  induction l as [|x l IH]; intros H; simpl; [apply sound_ret|].
  apply sound_bind; [apply H; by left|]. intros _. apply IH.
  intros y Hy. apply H. by right.
Qed.

Lemma sound_weaken {A} (P P' : event → Prop) (Q Q' : str → Prop) (m : M A) :
  (∀ e, P e → P' e) → (∀ p, Q p → Q' p) → sound P Q m → sound P' Q' m.
Proof.
  unfold sound, extends.
  intros HP HQ H w r w' E. apply H in E as [(d & T & F) S]. split.
  - exists d. split; [done|]. eapply Forall_impl; [exact F|done].
  - intros p Hp. apply S. auto.
Qed.


End Runs.

Ltac sound_step :=
  first
    [ apply sound_ret | apply sound_raise | apply sound_read
    | apply sound_snapshot
    | apply sound_bind; [|intros ?]
    | apply sound_try_http; [|intros ?]
    | apply sound_try_invalid
    | apply sound_emit; solve [auto]
    | apply sound_external; solve [auto]
    | apply sound_for_each; intros ? ?
    | match goal with
      | |- sound _ _ (match ?x with _ => _ end) => destruct x
      end ].

Section Blocks.

Context {St : Type} `{unicode : !Unicode}.
Local Abbreviation M := (@M St).
Local Abbreviation world := (world St).
Local Abbreviation sound := (@sound St _).

(** *** The operating system and [log] *)

Lemma sound_isfile (P : event → Prop) Q path :
  P (EvIsFile path) → sound P Q (os_path_isfile path).
Proof. intros. unfold os_path_isfile. repeat sound_step. Qed.

Lemma sound_makedirs (P : event → Prop) Q path :
  P (EvMakedirs path) → sound P Q (os_makedirs path).
Proof. intros. unfold os_makedirs. repeat sound_step. Qed.

Lemma sound_open (P : event → Prop) (Q : str → Prop) path :
  P (EvOpen path) → Q path → sound P Q (open_wb path).
Proof.
  intros. unfold open_wb. repeat sound_step.
  apply sound_set_fs. intros m p Hp. apply lookup_insert_ne. congruence.
Qed.

Lemma sound_write (P : event → Prop) (Q : str → Prop) path chunk :
  P (EvWrite path chunk) → Q path → sound P Q (write path chunk).
Proof.
  intros. unfold write. repeat sound_step.
  apply sound_set_fs. intros m p Hp. apply lookup_alter_ne. congruence.
Qed.

Lemma sound_remove (P : event → Prop) (Q : str → Prop) path :
  P (EvRemove path) → Q path → sound P Q (os_remove path).
Proof.
  intros. unfold os_remove. repeat sound_step.
  apply sound_set_fs. intros m p Hp. apply lookup_delete_ne. congruence.
Qed.

Lemma sound_rename (P : event → Prop) (Q : str → Prop) src dst :
  P (EvRename src dst) → Q src → Q dst → sound P Q (os_rename src dst).
Proof.
  intros. unfold os_rename. repeat sound_step.
  apply sound_set_fs. intros m p Hp.
  rewrite lookup_insert_ne by congruence. apply lookup_delete_ne. congruence.
Qed.

Lemma sound_in_place P (Q : str → Prop) path f :
  Q path → sound P Q (in_place path f).
Proof.
  intros. unfold in_place.
  repeat first
    [ apply sound_set_fs; intros m p Hp; apply lookup_insert_ne; congruence
    | sound_step ].
Qed.

Lemma sound_raise_for_status P Q response :
  sound P Q (raise_for_status response).
Proof. unfold raise_for_status. repeat sound_step. Qed.

Context (K : Constants) (lib : Modules St).

Lemma sound_log (P : event → Prop) Q config message indent :
  (∀ line, P (EvPrint line)) → sound P Q (log K config message indent).
Proof. intros. unfold log. repeat sound_step. Qed.

Lemma sound_for_each_chunk P Q response body :
  (∀ chunk, sound P Q (body chunk)) →
  sound P Q (for_each_chunk response body).
Proof. intros. unfold for_each_chunk. repeat sound_step; auto. Qed.

(** *** The blocks of [download_track] *)

Lemma sound_get_track_path (P : event → Prop) Q client config track
    siblings include_artist include_album :
  P (EvGetAlbumTracks (Track.album track)) →
  sound P Q (get_track_path client config track siblings
               include_artist include_album).
Proof. intros. unfold get_track_path. repeat sound_step. Qed.

Lemma sound_resolve_metadata (P : event → Prop) (Q : str → Prop)
    config track path indent :
  (∀ line, P (EvPrint line)) → (∀ url, P (EvRequestsGet url false)) →
  P (EvEmbed (Track.extension track) path) → Q path →
  sound P Q (resolve_metadata K lib config track path indent).
Proof.
  intros. unfold resolve_metadata.
  repeat first [ apply sound_log; solve [auto]
               | apply sound_raise_for_status
               | apply sound_in_place; solve [auto]
               | sound_step ].
Qed.

Lemma sound_request_media (P : event → Prop) Q client config track
    final_path indent :
  (∀ line, P (EvPrint line)) → P (EvGetMedia track) → P EvAuthenticate →
  sound P Q (request_media K client config track final_path indent).
Proof.
  intros. unfold request_media.
  repeat first [ apply sound_log; solve [auto] | sound_step ].
Qed.

Lemma sound_stream_payload (P : event → Prop) (Q : str → Prop) config
    media_url temporary_path final_path :
  P (EvMakedirs (os_path_dirname final_path)) →
  P (EvRequestsGet media_url true) → P (EvOpen temporary_path) →
  (∀ chunk, P (EvWrite temporary_path chunk)) → Q temporary_path →
  sound P Q (stream_payload lib config media_url temporary_path final_path).
Proof.
  intros. unfold stream_payload.
  repeat first [ apply sound_makedirs; solve [auto]
               | apply sound_raise_for_status
               | apply sound_open; solve [auto]
               | apply sound_for_each_chunk; intros ?
               | apply sound_write; solve [auto]
               | sound_step ].
Qed.

Lemma sound_decrypt_payload (P : event → Prop) (Q : str → Prop) config
    decryptor temporary_path indent :
  (∀ line, P (EvPrint line)) → P (EvDecrypt temporary_path) →
  Q temporary_path →
  sound P Q (decrypt_payload K config decryptor temporary_path indent).
Proof.
  intros. unfold decrypt_payload.
  repeat first [ apply sound_log; solve [auto]
               | apply sound_in_place; solve [auto]
               | sound_step ].
Qed.

Lemma sound_embed_metadata (P : event → Prop) (Q : str → Prop) config
    track temporary_path final_path indent :
  (∀ line, P (EvPrint line)) → (∀ url, P (EvRequestsGet url false)) →
  P (EvEmbed (Track.extension track) temporary_path) →
  P (EvRemove temporary_path) → Q temporary_path →
  sound P Q (embed_metadata K lib config track temporary_path final_path
               indent).
Proof.
  intros. unfold embed_metadata.
  repeat first [ apply sound_log; solve [auto]
               | apply sound_resolve_metadata; solve [auto]
               | apply sound_remove; solve [auto]
               | sound_step ].
Qed.

End Blocks.

(** * Numerals *)

Lemma digits_of_S fuel n :
  digits_of (S fuel) n =
  if n <? 10 then [ZERO + n] else digits_of fuel (n / 10) ++ [ZERO + n mod 10].
Proof. done. Qed.

Lemma digits_of_length_mono fuel : ∀ fuel' n m,
  n <= m → n < 10 ^ N.of_nat (S fuel) → m < 10 ^ N.of_nat (S fuel') →
  (length (digits_of (S fuel) n) <= length (digits_of (S fuel') m))%nat.
Proof.
  induction fuel as [|fuel IH]; intros fuel' n m Hnm Hn Hm;
    rewrite (digits_of_S _ n), (digits_of_S _ m).
  - change (10 ^ N.of_nat 1) with 10 in Hn.
    apply N.ltb_lt in Hn. rewrite Hn.
    destruct (m <? 10); [done|]. rewrite length_app. simpl. lia.
  - destruct (N.ltb_spec n 10) as [H10|H10].
    + destruct (m <? 10); [done|]. rewrite length_app. simpl. lia.
    + destruct (N.ltb_spec m 10) as [?|_]; [lia|].
      destruct fuel' as [|fuel'].
      { change (10 ^ N.of_nat 1) with 10 in Hm. lia. }
      rewrite !length_app. cbn [length].
      assert ((length (digits_of (S fuel) (n / 10))
               <= length (digits_of (S fuel') (m / 10)))%nat); [|lia].
      apply IH.
      * by apply N.Div0.div_le_mono.
      * apply N.Div0.div_lt_upper_bound.
        rewrite <- N.pow_succ_r'. by rewrite <- Nat2N.inj_succ.
      * apply N.Div0.div_lt_upper_bound.
        rewrite <- N.pow_succ_r'. by rewrite <- Nat2N.inj_succ.
Qed.

Lemma fuel_enough n : n < 10 ^ N.of_nat (S (N.to_nat (N.log2 n))).
Proof.
  rewrite Nat2N.inj_succ, N2Nat.id.
  destruct (N.eq_dec n 0) as [->|Hn]; [done|].
  assert (H : n < 2 ^ N.succ (N.log2 n)) by (apply N.log2_spec; lia).
  eapply N.lt_le_trans; [exact H|]. apply N.pow_le_mono_l. lia.
Qed.

Lemma str_of_N_length_mono n m :
  n <= m → (length (str_of_N n) <= length (str_of_N m))%nat.
Proof.
  intros H. unfold str_of_N.
  apply digits_of_length_mono; [done|apply fuel_enough..].
Qed.

Lemma str_of_Z_length_mono n m :
  (0 <= n <= m)%Z → (length (str_of_Z n) <= length (str_of_Z m))%nat.
Proof.
  intros [H0 H]. unfold str_of_Z.
  destruct (Z.ltb_spec n 0); [lia|]. destruct (Z.ltb_spec m 0); [lia|].
  apply str_of_N_length_mono. lia.
Qed.

Lemma zfill_length s width :
  length (zfill s width) = (length s `max` width)%nat.
Proof.
  unfold zfill. destruct (Nat.leb_spec width (length s)) as [H|H]; [lia|].
  destruct s as [|c r].
  - rewrite length_replicate. cbn [length]. lia.
  - destruct ((c =? 43) || (c =? HYPHEN)); cbn [length] in *;
      rewrite length_app, length_replicate; cbn [length]; lia.
Qed.


Lemma numeral_length n maximum :
  (0 <= n <= maximum)%Z →
  length (numeral n maximum) = length (str_of_Z maximum).
Proof.
  intros H. unfold numeral. rewrite zfill_length.
  pose proof (str_of_Z_length_mono n maximum H). lia.
Qed.

(** * The maximum of the siblings *)

Lemma foldl_max_spec l : ∀ x,
  is_maximum (foldl Z.max x l) (x :: l).
Proof.
  induction l as [|y l IH]; intros x; simpl.
  - split; [left|]. intros z Hz. apply list_elem_of_singleton in Hz. lia.
  - destruct (IH (x `max` y)%Z) as [Hin Hle]. split.
    + apply elem_of_cons in Hin as [Hin|Hin]; [|by do 2 right].
      rewrite Hin. destruct (Z.max_spec x y) as [[_ ->]|[_ ->]];
        [right; left|left].
    + intros z Hz.
      assert (z <= foldl Z.max (x `max` y) l ∨ z <= x `max` y)%Z as [?|?].
      { apply elem_of_cons in Hz as [->|Hz]; [right; lia|].
        apply elem_of_cons in Hz as [->|Hz]; [right; lia|].
        left. apply Hle. by right. }
      * done.
      * etrans; [done|]. apply Hle. left.
Qed.

Lemma max_of_spec l m : max_of l = Some m → is_maximum m l.
Proof.
  destruct l as [|x l]; [done|]. intros [= <-]. apply foldl_max_spec.
Qed.

Lemma is_maximum_unique m m' l l' :
  l ≡ₚ l' → is_maximum m l → is_maximum m' l' → m = m'.
Proof.
  intros Hp [Hin Hle] [Hin' Hle'].
  assert (m <= m')%Z by (apply Hle'; by rewrite <- Hp).
  assert (m' <= m)%Z by (apply Hle; by rewrite Hp).
  lia.
Qed.

Lemma max_of_perm l l' : l ≡ₚ l' → max_of l = max_of l'.
Proof.
  intros Hp. destruct (max_of l) as [m|] eqn:E, (max_of l') as [m'|] eqn:E'.
  - f_equal. eapply is_maximum_unique; eauto using max_of_spec.
  - destruct l'; [|done]. apply Permutation_nil_r in Hp. by subst.
  - destruct l; [|done]. symmetry in Hp. apply Permutation_nil_r in Hp.
    by subst.
  - done.
Qed.

(** * The disc segment is never empty *)

Lemma sanitize_disc_nonempty `{unicode : !Unicode} config s :
  sanitize config (u "Disc " ++ s) ≠ [].
Proof.
  unfold sanitize. destruct (nice_format config); simpl; [|done].
  rewrite (isalnum_ascii 68), (isalnum_ascii 105), (isalnum_ascii 115),
    (isalnum_ascii 99), (isalnum_ascii 32) by done.
  simpl. apply lower_nonempty. by destruct (List.filter nonempty _).
Qed.

(** * get_track_path *)

(** The string functions stay folded while a run is unfolded. *)
Arguments sanitize : simpl never.
Arguments os_path_join : simpl never.
Arguments os_path_basename : simpl never.
Arguments os_path_dirname : simpl never.
Arguments zfill : simpl never.
Arguments str_of_Z : simpl never.
Arguments max_of : simpl never.
Arguments u : simpl never.

(** *** Segments that do not start over *)

Lemma startswith_sep_absent b : SLASH ∉ b → startswith_sep b = false.
Proof.
  destruct b as [|c b]; [done|]. intros H. simpl.
  destruct (N.eqb_spec c SLASH) as [->|]; [|done]. exfalso. apply H. left.
Qed.

Lemma join_step_prefix p b :
  startswith_sep b = false → p `prefix_of` join_step p b.
Proof.
  intros H. unfold join_step. rewrite H.
  destruct (negb (nonempty p) || endswith_sep p); by eexists.
Qed.

Lemma os_path_join_prefix l : ∀ a,
  Forall (fun b => startswith_sep b = false) l → a `prefix_of` os_path_join a l.
Proof.
  unfold os_path_join.
  induction l as [|b l IH]; intros a H; simpl; [done|].
  inversion H; subst. etrans; [by apply join_step_prefix|]. by apply IH.
Qed.

Section Paths.

Context {St : Type} `{unicode : !Unicode}.
Local Abbreviation M := (@M St).
Local Abbreviation world := (world St).
Implicit Types (client : Client St) (w : world).

Ltac run_in H :=
  unfold mbind, M_bind, mret, M_ret, raise, external in H;
  cbn [fs ext trace] in H.

(** With siblings supplied nothing outside is consulted. *)
Lemma get_track_path_supplied client config track s l include_artist
    include_album w r w' :
  get_track_path client config track (Some (s :: l)) include_artist
    include_album w = (r, w') →
  w' = w.
Proof.
  unfold get_track_path. intros H.
  destruct (include_artist || full_structure config),
    (Album.artists (Track.album track)),
    (include_album || full_structure config); run_in H;
    repeat match type of H with
           | context [match max_of ?x with _ => _ end] => destruct (max_of x)
           end; by inversion H.
Qed.

(** When [get_track_path] returns, it has listed the album exactly when
    [listing_needed] says so, and has done nothing else. *)
Lemma get_track_path_ok client config track siblings include_artist
    include_album w path w1 :
  get_track_path client config track siblings include_artist
    include_album w = (Ok path, w1) →
  fs w1 = fs w
  ∧ trace w1 = trace w ++
      (if listing_needed config siblings include_album
       then [EvGetAlbumTracks (Track.album track)] else [])
  ∧ (listing_needed config siblings include_album = false → w1 = w).
Proof.
  unfold get_track_path, listing_needed. intros H.
  destruct (include_artist || full_structure config),
    (Album.artists (Track.album track)),
    (include_album || full_structure config);
    destruct siblings as [[|? ?]|]; run_in H;
    repeat match type of H with
           | context [get_album_tracks ?c ?a ?s] =>
               destruct (get_album_tracks c a s) as [[?|?] ?]
           | context [match max_of ?x with _ => _ end] => destruct (max_of x)
           end; inversion H; subst; simpl; rewrite ?app_nil_r; done.
Qed.

(** C7: with album inclusion active, the numerals of the path are padded
    to the widths of the greatest track and disc numbers of the sibling
    list (the one supplied, or the one fetched); these widths are those of
    every sibling's numeral and do not depend on the order of the list;
    the disc segment is there exactly when the greatest disc number
    exceeds one. *)
Theorem get_track_path_padding client config track siblings include_artist
    include_album w path w1 :
  include_album || full_structure config = true →
  get_track_path client config track siblings include_artist
    include_album w = (Ok path, w1) →
  ∃ sibs max_disc max_track artist_path disc_path,
    (siblings = Some sibs ∧ sibs ≠ [] ∧ w1 = w
     ∨ (siblings = None ∨ siblings = Some [])
       ∧ get_album_tracks client (Track.album track) (ext w)
         = (Ok sibs, ext w1))
    ∧ is_maximum max_disc (map Track.disc_number sibs)
    ∧ is_maximum max_track (map Track.track_number sibs)
    ∧ path = os_path_join (output_directory config)
               [artist_path;
                sanitize config (Album.name (Track.album track));
                disc_path;
                sanitize config
                  (numeral (Track.track_number track) max_track
                     ++ [SPACE] ++ Track.name track)]
    ∧ disc_path =
        (if (1 <? max_disc)%Z
         then sanitize config
                (u "Disc " ++ numeral (Track.disc_number track) max_disc)
         else [])
    ∧ (disc_path ≠ [] ↔ (1 < max_disc)%Z)
    ∧ (∀ s, s ∈ sibs → (0 <= Track.track_number s)%Z →
         length (numeral (Track.track_number s) max_track)
         = length (str_of_Z max_track))
    ∧ (∀ s, s ∈ sibs → (0 <= Track.disc_number s)%Z →
         length (numeral (Track.disc_number s) max_disc)
         = length (str_of_Z max_disc))
    ∧ (∀ sibs', sibs' ≡ₚ sibs →
         get_track_path client config track (Some sibs') include_artist
           include_album w = (Ok path, w)).
Proof.
  intros Halbum H.
  assert (Hcore : ∃ sibs max_disc max_track artist_path,
    (siblings = Some sibs ∧ sibs ≠ [] ∧ w1 = w
     ∨ (siblings = None ∨ siblings = Some [])
       ∧ get_album_tracks client (Track.album track) (ext w)
         = (Ok sibs, ext w1))
    ∧ max_of (map Track.disc_number sibs) = Some max_disc
    ∧ max_of (map Track.track_number sibs) = Some max_track
    ∧ (if include_artist || full_structure config then
         ∃ artist rest, Album.artists (Track.album track) = artist :: rest
           ∧ artist_path = sanitize config (Artist.name artist)
       else artist_path = [])
    ∧ path = os_path_join (output_directory config)
               [artist_path;
                sanitize config (Album.name (Track.album track));
                (if (1 <? max_disc)%Z
                 then sanitize config
                   (u "Disc " ++ numeral (Track.disc_number track) max_disc)
                 else []);
                sanitize config
                  (numeral (Track.track_number track) max_track
                     ++ [SPACE] ++ Track.name track)]).
  { unfold get_track_path in H. rewrite Halbum in H.
    apply bind_inv in H as [(e & _ & [=])|(artist_path & wa & Ha & H)].
    assert (wa = w ∧
      if include_artist || full_structure config then
         ∃ artist rest, Album.artists (Track.album track) = artist :: rest
           ∧ artist_path = sanitize config (Artist.name artist)
       else artist_path = []) as [-> Hartist].
    { destruct (include_artist || full_structure config);
        [destruct (Album.artists (Track.album track)) as [|artist rest];
         [done|]|]; inversion Ha; subst; eauto. }
    clear Ha.
    apply bind_inv in H as [(e & _ & [=])|([[album_path disc_path] file_path]
                                            & wb & Hb & H)].
    inversion H; subst; clear H.
    apply bind_inv in Hb as [(e & _ & [=])|(sibs & ws & Hs & Hb)].
    apply bind_inv in Hb as [(e & _ & [=])|(max_disc & wd & Hd & Hb)].
    apply bind_inv in Hb as [(e & _ & [=])|(max_track & wt & Ht & Hb)].
    destruct (max_of (map Track.disc_number sibs)) as [?|] eqn:Ed;
      inversion Hd; subst; clear Hd.
    destruct (max_of (map Track.track_number sibs)) as [?|] eqn:Et;
      inversion Ht; subst; clear Ht.
    inversion Hb; subst; clear Hb.
    exists sibs, max_disc, max_track, artist_path.
    split; [|done].
    destruct siblings as [[|s l]|].
    - right. split; [by right|]. unfold external in Hs.
      destruct (get_album_tracks client (Track.album track) (ext w))
        as [r st]. by inversion Hs.
    - left. by inversion Hs.
    - right. split; [by left|]. unfold external in Hs.
      destruct (get_album_tracks client (Track.album track) (ext w))
        as [r st]. by inversion Hs. }
  destruct Hcore as (sibs & max_disc & max_track & artist_path
                     & Hsibs & Ed & Et & Hartist & ->).
  exists sibs, max_disc, max_track, artist_path.
  eexists. split; [done|].
  pose proof (max_of_spec _ _ Ed) as Hd.
  pose proof (max_of_spec _ _ Et) as Ht.
  do 4 (split; [done|]).
  split; [|split; [|split]].
  - destruct (Z.ltb_spec 1 max_disc) as [Hlt|Hle].
    + split; [done|]. intros _. apply sanitize_disc_nonempty.
    + split; [done|lia].
  - intros s Hs H0. apply numeral_length. split; [done|].
    apply Ht. apply list_elem_of_fmap. eauto.
  - intros s Hs H0. apply numeral_length. split; [done|].
    apply Hd. apply list_elem_of_fmap. eauto.
  - intros sibs' Hp.
    assert (Hne : sibs ≠ []).
    { intros ->. done. }
    destruct sibs' as [|s' l'].
    { apply Permutation_nil_l in Hp. done. }
    unfold get_track_path. rewrite Halbum.
    unfold mbind, M_bind, mret, M_ret, raise. cbn [fs ext trace].
    rewrite <- (max_of_perm _ _ (Permutation_map Track.disc_number Hp)) in Ed.
    rewrite <- (max_of_perm _ _ (Permutation_map Track.track_number Hp)) in Et.
    destruct (include_artist || full_structure config).
    + destruct Hartist as (artist & rest & -> & ->).
      rewrite Ed, Et. done.
    + subst artist_path.
      rewrite Ed, Et. done.
Qed.

(** C10: the artist segment is the sanitized name of the first artist of
    the track's album, joined right behind the output directory: the
    three segments that follow hold no separator, so none of them makes
    the join start over, and they are the ones the album, the disc and
    the track give.  The artists of the track itself play no part; with
    an album that has no artist the lookup raises [IndexError]. *)
Theorem get_track_path_artist client config track siblings include_artist
    include_album w :
  include_artist || full_structure config = true →
  (Album.artists (Track.album track) = [] →
   get_track_path client config track siblings include_artist
     include_album w = (Raise IndexError, w))
  ∧ (∀ artist rest path w1,
       Album.artists (Track.album track) = artist :: rest →
       get_track_path client config track siblings include_artist
         include_album w = (Ok path, w1) →
       ∃ album_path disc_path file_path,
         path = os_path_join (output_directory config)
                  [sanitize config (Artist.name artist);
                   album_path; disc_path; file_path]
         ∧ (SLASH ∉ album_path) ∧ (SLASH ∉ disc_path)
         ∧ (SLASH ∉ file_path)
         ∧ os_path_join (output_directory config)
             [sanitize config (Artist.name artist)] `prefix_of` path
         ∧ (if include_album || full_structure config
            then album_path
                 = sanitize config (Album.name (Track.album track))
                 ∧ ∃ max_disc max_track,
                     disc_path
                     = (if (1 <? max_disc)%Z
                        then sanitize config
                               (u "Disc "
                                  ++ numeral (Track.disc_number track)
                                       max_disc)
                        else [])
                     ∧ file_path
                       = sanitize config
                           (numeral (Track.track_number track) max_track
                              ++ [SPACE] ++ Track.name track)
            else album_path = [] ∧ disc_path = []
                 ∧ file_path = sanitize config (Track.name track)))
  ∧ (∀ artists,
       get_track_path client config (with_artists track artists) siblings
         include_artist include_album w
       = get_track_path client config track siblings include_artist
           include_album w).
Proof.
  intros Hartist. split; [|split].
  - intros Hnil. unfold get_track_path. rewrite Hartist, Hnil. done.
  - intros artist rest path w1 Hcons H.
    unfold get_track_path in H. rewrite Hartist, Hcons in H.
    apply bind_inv in H as [(e & _ & [=])|(artist_path & wa & Ha & H)].
    inversion Ha; subst; clear Ha.
    apply bind_inv in H as [(e & _ & [=])|([[album_path disc_path] file_path]
                                            & wb & Hb & H)].
    injection H as <- <-.
    exists album_path, disc_path, file_path. split; [done|].
    assert (Hrest :
      (SLASH ∉ album_path) ∧ (SLASH ∉ disc_path) ∧ (SLASH ∉ file_path)
      ∧ (if include_album || full_structure config
         then album_path
              = sanitize config (Album.name (Track.album track))
              ∧ ∃ max_disc max_track,
                  disc_path
                  = (if (1 <? max_disc)%Z
                     then sanitize config
                            (u "Disc "
                               ++ numeral (Track.disc_number track)
                                    max_disc)
                     else [])
                  ∧ file_path
                    = sanitize config
                        (numeral (Track.track_number track) max_track
                           ++ [SPACE] ++ Track.name track)
         else album_path = [] ∧ disc_path = []
              ∧ file_path = sanitize config (Track.name track))).
    { destruct (include_album || full_structure config).
      - apply bind_inv in Hb as [(e & _ & [=])|(sibs & ws & _ & Hb)].
        apply bind_inv in Hb as [(e & _ & [=])|(max_disc & wd & _ & Hb)].
        apply bind_inv in Hb as [(e & _ & [=])|(max_track & wt & _ & Hb)].
        injection Hb as <- <- <- _.
        split; [apply sanitize_not_slash|].
        split; [destruct (1 <? max_disc)%Z;
                  [apply sanitize_not_slash|apply not_elem_of_nil]|].
        split; [apply sanitize_not_slash|].
        split; [done|]. by exists max_disc, max_track.
      - injection Hb as <- <- <- _.
        split; [apply not_elem_of_nil|].
        split; [apply not_elem_of_nil|].
        split; [apply sanitize_not_slash|done]. }
    destruct Hrest as (Ha & Hd & Hf & Hpin).
    split; [done|]. split; [done|]. split; [done|]. split; [|done].
    change (os_path_join (output_directory config)
              [sanitize config (Artist.name artist); album_path; disc_path;
               file_path])
      with (os_path_join
              (os_path_join (output_directory config)
                 [sanitize config (Artist.name artist)])
              [album_path; disc_path; file_path]).
    apply os_path_join_prefix.
    repeat constructor; by apply startswith_sep_absent.
  - done.
Qed.

End Paths.

(** * Runs of download_track *)

Section Download.

Context {St : Type} `{unicode : !Unicode}.
Local Abbreviation M := (@M St).
Local Abbreviation world := (world St).
Local Abbreviation sound := (@sound St _).
Implicit Types (client : Client St) (w : world) (d : list event).

Lemma after_after w s d s' d' :
  after (after w s d) s' d' = after w s' (d ++ d').
Proof. unfold after. simpl. by rewrite app_assoc. Qed.

Lemma after_id w : after w (ext w) [] = w.
Proof. destruct w. unfold after. simpl. by rewrite app_nil_r. Qed.

Lemma external_run {A} ev (f : St → result A * St) w r s :
  f (ext w) = (r, s) → external ev f w = (r, after w s [ev]).
Proof. intros H. unfold external. by rewrite H. Qed.

Lemma isfile_run path w :
  os_path_isfile path w
  = (Ok (bool_decide (is_Some (fs w !! path))),
     after w (ext w) [EvIsFile path]).
Proof. done. Qed.

Context (K : Constants) (lib : Modules St).

Lemma log_run config message indent w :
  log K config message indent w
  = (Ok tt, after w (ext w) (log_events K config message indent)).
Proof.
  unfold log, log_events. destruct (quiet config); simpl; [|done].
  by rewrite after_id.
Qed.

(** *** The media locator *)

Lemma not_entitled_spec response :
  not_entitled response = true
  ↔ status_code response = 401%Z ∧ json response = JsonObject (Some 4005%Z).
Proof.
  unfold not_entitled. rewrite andb_true_iff, Z.eqb_eq.
  destruct (json response) as [|[sub|]].
  - split; intros [_ [=]].
  - rewrite Z.eqb_eq. split; [by intros [-> ->]|by intros [-> [= ->]]].
  - split; intros [_ [=]].
Qed.

Lemma on_http_error_run config final_path indent response w :
  on_http_error K config final_path indent response w
  = if not_entitled response
    then (Ok None,
          after w (ext w)
            (log_events K config (not_available_message final_path) indent))
    else (Raise (escalated response), w).
Proof.
  unfold on_http_error, not_entitled, escalated.
  destruct (json response) as [|sub]; simpl.
  { by rewrite andb_false_r. }
  unfold mbind, M_bind, mret, M_ret. simpl.
  destruct (Z.eqb_spec (status_code response) 401) as [->|Hs]; simpl.
  - destruct sub as [sub|]; [|done].
    destruct (Z.eqb_spec sub 4005) as [->|Hsub].
    + rewrite bool_decide_eq_true_2 by done. by rewrite log_run.
    + rewrite bool_decide_eq_false_2; [done|]. congruence.
  - rewrite bool_decide_eq_false_2; [done|]. congruence.
Qed.

Lemma request_media_ok client config track final_path indent w media s :
  get_media client track (ext w) = (Ok media, s) →
  request_media K client config track final_path indent w
  = (Ok (Some media), after w s [EvGetMedia track]).
Proof.
  intros H. unfold request_media, try_except_HTTPError, mbind, M_bind.
  by rewrite (external_run _ _ _ _ _ H).
Qed.

Lemma request_media_http client config track final_path indent w response s :
  get_media client track (ext w) = (Raise (HTTPError response), s) →
  status_code response ≠ 429%Z →
  request_media K client config track final_path indent w
  = on_http_error K config final_path indent response
      (after w s [EvGetMedia track]).
Proof.
  intros H Hs. unfold request_media, try_except_HTTPError, mbind, M_bind.
  rewrite (external_run _ _ _ _ _ H).
  destruct (Z.eqb_spec (status_code response) 429); done.
Qed.

Lemma request_media_rate_limited client config track final_path indent w
    response s :
  get_media client track (ext w) = (Raise (HTTPError response), s) →
  status_code response = 429%Z →
  request_media K client config track final_path indent w
  = let d := EvGetMedia track
             :: log_events K config too_many_requests_message indent
             ++ [EvAuthenticate] in
    match authenticate client s with
    | (Ok _, s2) =>
        match get_media client track s2 with
        | (Ok media, s3) =>
            (Ok (Some media), after w s3 (d ++ [EvGetMedia track]))
        | (Raise (HTTPError response2), s3) =>
            on_http_error K config final_path indent response2
              (after w s3 (d ++ [EvGetMedia track]))
        | (Raise e, s3) => (Raise e, after w s3 (d ++ [EvGetMedia track]))
        end
    | (Raise (HTTPError response1), s2) =>
        on_http_error K config final_path indent response1 (after w s2 d)
    | (Raise e, s2) => (Raise e, after w s2 d)
    end.
Proof.
  intros H Hs. unfold request_media, try_except_HTTPError, mbind, M_bind.
  rewrite (external_run _ _ _ _ _ H), Hs. simpl.
  rewrite log_run. unfold external. simpl.
  destruct (authenticate client s) as [[[]|e] s2]; simpl.
  - destruct (get_media client track s2) as [[media|e] s3]; simpl;
      unfold after; simpl; rewrite <- ?app_assoc; simpl; try done.
    destruct e; done.
  - unfold after; simpl; rewrite <- ?app_assoc; simpl.
    destruct e; done.
Qed.

(** *** From the existence check to the media locator *)

Lemma download_track_after_check client config track siblings
    include_artist include_album indent w track_path w1 :
  get_track_path client config track siblings include_artist
    include_album w = (Ok track_path, w1) →
  fs w !! final_path_of track_path track = None →
  download_track K lib client config track siblings include_artist
    include_album indent w
  = match request_media K client config track
            (final_path_of track_path track) indent
            (after w1 (ext w1) [EvIsFile (final_path_of track_path track)])
    with
    | (Ok (Some (media_url, decryptor)), wm) =>
        finish K lib config track media_url decryptor
          (temporary_path_of K track_path track)
          (final_path_of track_path track) indent wm
    | (Ok None, wm) => (Ok tt, wm)
    | (Raise e, wm) => (Raise e, wm)
    end.
Proof.
  intros Hpath Hfinal. unfold download_track.
  rewrite (bind_ok _ _ _ _ _ Hpath).
  rewrite (bind_ok _ _ _ _ _ (isfile_run _ _)).
  destruct (get_track_path_ok _ _ _ _ _ _ _ _ _ Hpath) as (Hfs & _ & _).
  rewrite Hfs, Hfinal.
  rewrite bool_decide_eq_false_2 by (by intros [? ?]).
  unfold mbind at 1, M_bind at 1.
  destruct (request_media _ _ _ _ _ _ _) as [[[[url dec]|]|e] wm]; done.
Qed.

(** C1 (as amended): when the final path of the track exists,
    [download_track] logs that it skips the track and returns; it requests
    no media locator, transfers nothing and touches no file.  The one call
    that may leave the process is the listing of the album that
    [get_track_path] makes, before the check, when album inclusion is
    active and no sibling was supplied. *)
Theorem download_track_existing client config track siblings
    include_artist include_album indent w track_path w1 :
  get_track_path client config track siblings include_artist
    include_album w = (Ok track_path, w1) →
  is_Some (fs w !! final_path_of track_path track) →
  ∃ w',
    download_track K lib client config track siblings include_artist
      include_album indent w = (Ok tt, w')
    ∧ fs w' = fs w
    ∧ trace w' = trace w
        ++ (if listing_needed config siblings include_album
            then [EvGetAlbumTracks (Track.album track)] else [])
        ++ [EvIsFile (final_path_of track_path track)]
        ++ log_events K config
             (already_exists_message (final_path_of track_path track))
             indent
    ∧ (listing_needed config siblings include_album = false →
       ext w' = ext w).
Proof.
  intros Hpath Hfinal. unfold download_track.
  rewrite (bind_ok _ _ _ _ _ Hpath).
  rewrite (bind_ok _ _ _ _ _ (isfile_run _ _)).
  destruct (get_track_path_ok _ _ _ _ _ _ _ _ _ Hpath) as (Hfs & Htr & Hw).
  rewrite Hfs, bool_decide_eq_true_2 by done.
  rewrite log_run. eexists. split; [done|]. simpl.
  split; [done|]. split.
  - rewrite Htr, <- !app_assoc. done.
  - intros Hn. by rewrite (Hw Hn).
Qed.

End Download.

(** * Counting events *)

Lemma count_app f d d' : count f (d ++ d') = (count f d + count f d')%nat.
Proof. unfold count. by rewrite List.filter_app, length_app. Qed.

Lemma count_cons f ev d :
  count f (ev :: d) = ((if f ev then 1 else 0) + count f d)%nat.
Proof. unfold count. simpl. by destruct (f ev). Qed.

Lemma count_none f d : Forall (fun ev => f ev = false) d → count f d = 0%nat.
Proof.
  induction 1 as [|ev d Hev _ IH]; [done|]. by rewrite count_cons, Hev, IH.
Qed.

Lemma count_log_events f K config message indent :
  (∀ line, f (EvPrint line) = false) →
  count f (log_events K config message indent) = 0%nat.
Proof.
  intros H. unfold log_events. destruct (quiet config); [done|].
  by rewrite count_cons, H.
Qed.

Lemma exn_http_cases e :
  (∃ response, e = HTTPError response) ∨ (∀ response, e ≠ HTTPError response).
Proof. destruct e; eauto. Qed.

Section Media.

Context {St : Type} `{unicode : !Unicode}.
Local Abbreviation M := (@M St).
Local Abbreviation world := (world St).
Local Abbreviation sound := (@sound St _).
Implicit Types (client : Client St) (w : world) (d : list event).
Context (K : Constants) (lib : Modules St).

Lemma sound_finish (P : event → Prop) (Q : str → Prop) config track
    media_url decryptor temporary_path final_path indent :
  (∀ line, P (EvPrint line)) →
  P (EvMakedirs (os_path_dirname final_path)) →
  (∀ url stream, P (EvRequestsGet url stream)) →
  P (EvOpen temporary_path) →
  (∀ chunk, P (EvWrite temporary_path chunk)) →
  P (EvDecrypt temporary_path) →
  P (EvEmbed (Track.extension track) temporary_path) →
  P (EvRemove temporary_path) →
  P (EvRename temporary_path final_path) →
  Q temporary_path → Q final_path →
  sound P Q (finish K lib config track media_url decryptor temporary_path
               final_path indent).
Proof.
  intros. unfold finish.
  repeat first [ apply sound_stream_payload; solve [auto]
               | apply sound_decrypt_payload; solve [auto]
               | apply sound_embed_metadata; solve [auto]
               | apply sound_rename; solve [auto]
               | sound_step ].
Qed.

(** Once the media locator is held, no further locator is requested and
    the session is not renewed. *)
Lemma finish_no_media config track media_url decryptor temporary_path
    final_path indent w r w' :
  finish K lib config track media_url decryptor temporary_path final_path
    indent w = (r, w') →
  ∃ d, trace w' = trace w ++ d
       ∧ count is_authenticate d = 0%nat ∧ count is_get_media d = 0%nat.
Proof.
  intros H.
  assert (Hs : sound
    (fun ev => is_authenticate ev = false ∧ is_get_media ev = false)
    (fun _ => True)
    (finish K lib config track media_url decryptor temporary_path
       final_path indent)) by (apply sound_finish; done).
  apply Hs in H as [(d & Htr & Hd) _]. exists d. split; [done|].
  split; apply count_none; (eapply Forall_impl; [exact Hd|]);
    by intros ev [? ?].
Qed.

Lemma not_entitled_429 response :
  status_code response = 429%Z → not_entitled response = false.
Proof. intros H. unfold not_entitled. by rewrite H. Qed.

(** The outer handler adds at most a printed line. *)
Lemma on_http_error_leaf config final_path indent response w s d rm wm :
  on_http_error K config final_path indent response (after w s d)
  = (rm, wm) →
  fs wm = fs w ∧ ext wm = s
  ∧ ∃ dl, trace wm = trace w ++ d ++ dl
      ∧ count is_authenticate dl = 0%nat ∧ count is_get_media dl = 0%nat
      ∧ (not_entitled response = false →
         rm = Raise (escalated response) ∧ dl = []).
Proof.
  rewrite on_http_error_run. destruct (not_entitled response); intros [= <- <-].
  - simpl. do 2 (split; [done|]). eexists. split; [by rewrite app_assoc|].
    by rewrite !count_log_events.
  - simpl. do 2 (split; [done|]). exists []. by rewrite app_nil_r.
Qed.

(** The media locator after a first rate-limit signal. *)
Lemma request_media_retry client config track final_path indent w
    response s1 rm wm :
  get_media client track (ext w) = (Raise (HTTPError response), s1) →
  status_code response = 429%Z →
  request_media K client config track final_path indent w = (rm, wm) →
  fs wm = fs w
  ∧ ∃ d, trace wm = trace w ++ d
    ∧ count is_authenticate d = 1%nat
    ∧ (count is_get_media d <= 2)%nat
    ∧ ∀ s2, authenticate client s1 = (Ok tt, s2) →
        count is_get_media d = 2%nat
        ∧ ∀ response2 s3,
            get_media client track s2 = (Raise (HTTPError response2), s3) →
            status_code response2 = 429%Z →
            rm = Raise (escalated response2)
            ∧ ext wm = s3
            ∧ d = EvGetMedia track
                  :: log_events K config too_many_requests_message indent
                  ++ [EvAuthenticate; EvGetMedia track].
Proof.
  intros H1 Hs H.
  rewrite (request_media_rate_limited _ _ _ _ _ _ _ _ _ H1 Hs) in H.
  cbv zeta in H.
  set (d0 := EvGetMedia track
             :: log_events K config too_many_requests_message indent
             ++ [EvAuthenticate]) in *.
  assert (Ha0 : count is_authenticate d0 = 1%nat).
  { subst d0. by rewrite count_cons, count_app, count_log_events. }
  assert (Hg0 : count is_get_media d0 = 1%nat).
  { subst d0. by rewrite count_cons, count_app, count_log_events. }
  assert (Hd0 : d0 ++ [EvGetMedia track]
                = EvGetMedia track
                  :: log_events K config too_many_requests_message indent
                  ++ [EvAuthenticate; EvGetMedia track]).
  { subst d0. simpl. by rewrite <- app_assoc. }
  destruct (authenticate client s1) as [[[]|e] s2] eqn:Ea.
  - (* the session is renewed: the locator is requested again *)
    destruct (get_media client track s2) as [[media|e] s3] eqn:Eg.
    + inversion H; subst. split; [done|].
      exists (d0 ++ [EvGetMedia track]). split; [done|].
      rewrite !count_app, Ha0, Hg0.
      split; [done|]. split; [unfold count; simpl; lia|]. intros ? [= <-].
      split; [done|]. intros ? ? E. by rewrite Eg in E.
    + destruct (exn_http_cases e) as [[response2 ->]|Hne].
      * apply on_http_error_leaf in H
          as (Hfs & Hext & dl & Htr & Hal & Hgl & Hesc).
        split; [done|]. exists ((d0 ++ [EvGetMedia track]) ++ dl).
        split; [done|]. rewrite !count_app, Ha0, Hg0, Hal, Hgl.
        split; [done|]. split; [unfold count; simpl; lia|]. intros ? [= <-].
        split; [done|]. intros ? ? E H429. rewrite Eg in E.
        inversion E; subst.
        destruct (Hesc (not_entitled_429 _ H429)) as [-> ->].
        by rewrite app_nil_r.
      * assert ((rm, wm) = (Raise e, after w s3 (d0 ++ [EvGetMedia track])))
          as [= -> ->].
        { destruct e; try done. by edestruct Hne. }
        split; [done|]. exists (d0 ++ [EvGetMedia track]). split; [done|].
        rewrite !count_app, Ha0, Hg0.
        split; [done|]. split; [unfold count; simpl; lia|]. intros ? [= <-].
        split; [done|]. intros ? ? E. rewrite Eg in E.
        inversion E; subst. by edestruct Hne.
  - (* renewing the session fails: nothing is requested again *)
    destruct (exn_http_cases e) as [[response1 ->]|Hne].
    + apply on_http_error_leaf in H
        as (Hfs & Hext & dl & Htr & Hal & Hgl & Hesc).
      split; [done|]. exists (d0 ++ dl). split; [done|].
      rewrite !count_app, Ha0, Hg0, Hal, Hgl.
      split; [done|]. split; [unfold count; simpl; lia|]. intros ? [=].
    + assert ((rm, wm) = (Raise e, after w s2 d0)) as [= -> ->].
      { destruct e; try done. by edestruct Hne. }
      split; [done|]. exists d0. split; [done|].
      rewrite Ha0, Hg0. split; [done|]. split; [unfold count; simpl; lia|]. intros ? [=].
Qed.

(** C3: after a first rate-limit signal the session is renewed once and
    the media locator is requested once more, never more; a second
    rate-limit signal leaves [download_track] as an exception, with no
    file touched. *)
Theorem download_track_rate_limited client config track siblings
    include_artist include_album indent w track_path w1 response s1 r w' :
  get_track_path client config track siblings include_artist
    include_album w = (Ok track_path, w1) →
  fs w !! final_path_of track_path track = None →
  get_media client track (ext w1) = (Raise (HTTPError response), s1) →
  status_code response = 429%Z →
  download_track K lib client config track siblings include_artist
    include_album indent w = (r, w') →
  ∃ d, trace w' = trace w1 ++ EvIsFile (final_path_of track_path track) :: d
    ∧ count is_authenticate d = 1%nat
    ∧ (count is_get_media d <= 2)%nat
    ∧ ∀ s2, authenticate client s1 = (Ok tt, s2) →
        count is_get_media d = 2%nat
        ∧ ∀ response2 s3,
            get_media client track s2 = (Raise (HTTPError response2), s3) →
            status_code response2 = 429%Z →
            r = Raise (escalated response2)
            ∧ fs w' = fs w
            ∧ ext w' = s3
            ∧ d = EvGetMedia track
                  :: log_events K config too_many_requests_message indent
                  ++ [EvAuthenticate; EvGetMedia track].
Proof.
  intros Hpath Hfinal H1 Hs H.
  rewrite (download_track_after_check _ _ _ _ _ _ _ _ _ _ _ _ Hpath Hfinal)
    in H.
  destruct (get_track_path_ok _ _ _ _ _ _ _ _ _ Hpath) as (Hfs1 & _ & _).
  set (w2 := after w1 (ext w1)
               [EvIsFile (final_path_of track_path track)]) in *.
  destruct (request_media K client config track
              (final_path_of track_path track) indent w2)
    as [rm wm] eqn:Em.
  destruct (request_media_retry client config track _ indent w2 response s1
              rm wm H1 Hs Em) as (Hfs & d & Htr & Ha & Hg & Hretry).
  assert (Hw2 : ∀ d', trace w2 ++ d'
            = trace w1 ++ EvIsFile (final_path_of track_path track) :: d').
  { intros d'. subst w2. simpl. by rewrite <- app_assoc. }
  destruct rm as [[[media_url decryptor]|]|e].
  - (* the second request gave the locator: the rest requests nothing *)
    apply finish_no_media in H as (d' & Htr' & Ha' & Hg').
    exists (d ++ d'). rewrite Htr', Htr, <- app_assoc, Hw2.
    split; [done|]. rewrite !count_app, Ha, Ha', Hg'.
    split; [done|]. split; [lia|]. intros s2 Hauth.
    destruct (Hretry s2 Hauth) as [Hg2 Hsecond]. split; [lia|].
    intros response2 s3 E2 H429.
    by destruct (Hsecond response2 s3 E2 H429) as [[=] _].
  - inversion H; subst. exists d. rewrite Htr, Hw2. split; [done|].
    split; [done|]. split; [done|]. intros s2 Hauth.
    destruct (Hretry s2 Hauth) as [Hg2 Hsecond]. split; [done|].
    intros response2 s3 E2 H429.
    by destruct (Hsecond response2 s3 E2 H429) as [[=] _].
  - inversion H; subst. exists d. rewrite Htr, Hw2. split; [done|].
    split; [done|]. split; [done|]. intros s2 Hauth.
    destruct (Hretry s2 Hauth) as [Hg2 Hsecond]. split; [done|].
    intros response2 s3 E2 H429.
    destruct (Hsecond response2 s3 E2 H429) as ([= ->] & Hext & Hd).
    split; [done|]. split; [by rewrite Hfs, <- Hfs1|]. done.
Qed.

(** The loop over the siblings goes on after a track that returns. *)
Lemma for_each_next {A} (body : A → M unit) x rest w w' :
  body x w = (Ok tt, w') → for_each (x :: rest) body w = for_each rest body w'.
Proof. intros H. simpl. by rewrite (bind_ok _ _ _ _ _ H). Qed.

(** C4: a failure of the media locator request with status 401 and
    sub-status 4005, at the first attempt or at the attempt that follows a
    rate-limit signal, is logged and [download_track] returns with no file
    touched, so that a loop over the siblings goes on; an HTTP failure
    with any other pair that reaches the outer handler (from the first
    attempt when it is no rate-limit signal, from the second attempt, or
    from the renewal of the session) leaves [download_track] as an
    exception. *)
Theorem download_track_not_entitled client config track siblings
    include_artist include_album indent w track_path w1 :
  get_track_path client config track siblings include_artist
    include_album w = (Ok track_path, w1) →
  fs w !! final_path_of track_path track = None →
  fs w1 = fs w
  ∧ (∀ response s,
       get_media client track (ext w1) = (Raise (HTTPError response), s) →
       status_code response ≠ 429%Z →
       download_track K lib client config track siblings include_artist
         include_album indent w
       = (if not_entitled response then Ok tt
          else Raise (escalated response),
          after w1 s
            (EvIsFile (final_path_of track_path track)
             :: EvGetMedia track
             :: if not_entitled response
                then log_events K config
                       (not_available_message
                          (final_path_of track_path track)) indent
                else [])))
  ∧ (∀ response1 s1 s2 response2 s3,
       get_media client track (ext w1) = (Raise (HTTPError response1), s1) →
       status_code response1 = 429%Z →
       authenticate client s1 = (Ok tt, s2) →
       get_media client track s2 = (Raise (HTTPError response2), s3) →
       download_track K lib client config track siblings include_artist
         include_album indent w
       = (if not_entitled response2 then Ok tt
          else Raise (escalated response2),
          after w1 s3
            (EvIsFile (final_path_of track_path track)
             :: EvGetMedia track
             :: log_events K config too_many_requests_message indent
             ++ [EvAuthenticate; EvGetMedia track]
             ++ if not_entitled response2
                then log_events K config
                       (not_available_message
                          (final_path_of track_path track)) indent
                else [])))
  ∧ (∀ response1 s1 response2 s2,
       get_media client track (ext w1) = (Raise (HTTPError response1), s1) →
       status_code response1 = 429%Z →
       authenticate client s1 = (Raise (HTTPError response2), s2) →
       download_track K lib client config track siblings include_artist
         include_album indent w
       = (if not_entitled response2 then Ok tt
          else Raise (escalated response2),
          after w1 s2
            (EvIsFile (final_path_of track_path track)
             :: EvGetMedia track
             :: log_events K config too_many_requests_message indent
             ++ [EvAuthenticate]
             ++ if not_entitled response2
                then log_events K config
                       (not_available_message
                          (final_path_of track_path track)) indent
                else [])))
  ∧ (∀ w' rest,
       download_track K lib client config track siblings include_artist
         include_album indent w = (Ok tt, w') →
       for_each (track :: rest)
         (fun t => download_track K lib client config t siblings
                     include_artist include_album indent) w
       = for_each rest
           (fun t => download_track K lib client config t siblings
                       include_artist include_album indent) w').
Proof.
  intros Hpath Hfinal.
  destruct (get_track_path_ok _ _ _ _ _ _ _ _ _ Hpath) as (Hfs1 & _ & _).
  split; [done|]. split; [|split; [|split]].
  - intros response s H1 Hs.
    rewrite (download_track_after_check _ _ _ _ _ _ _ _ _ _ _ _ Hpath Hfinal).
    rewrite (request_media_http K client config track _ indent
             (after w1 (ext w1) [EvIsFile (final_path_of track_path track)])
             response s H1 Hs), on_http_error_run.
    destruct (not_entitled response); by rewrite !after_after.
  - intros response1 s1 s2 response2 s3 H1 Hs Ha H2.
    rewrite (download_track_after_check _ _ _ _ _ _ _ _ _ _ _ _ Hpath Hfinal).
    rewrite (request_media_rate_limited K client config track _ indent
             (after w1 (ext w1) [EvIsFile (final_path_of track_path track)])
             response1 s1 H1 Hs).
    cbv zeta. rewrite Ha, H2, on_http_error_run.
    destruct (not_entitled response2); rewrite !after_after; simpl;
      rewrite <- ?app_assoc; simpl; rewrite ?app_nil_r; done.
  - intros response1 s1 response2 s2 H1 Hs Ha.
    rewrite (download_track_after_check _ _ _ _ _ _ _ _ _ _ _ _ Hpath Hfinal).
    rewrite (request_media_rate_limited K client config track _ indent
             (after w1 (ext w1) [EvIsFile (final_path_of track_path track)])
             response1 s1 H1 Hs).
    cbv zeta. rewrite Ha, on_http_error_run.
    destruct (not_entitled response2); rewrite !after_after; simpl;
      rewrite <- ?app_assoc; simpl; rewrite ?app_nil_r; done.
  - intros w' rest H. by apply for_each_next.
Qed.

End Media.

(** * From the media locator to the final file *)

Section Finish.

Context {St : Type} `{unicode : !Unicode}.
Local Abbreviation M := (@M St).
Local Abbreviation world := (world St).
Local Abbreviation sound := (@sound St _).
Local Abbreviation extends := (@extends St).
Implicit Types (client : Client St) (w : world) (d : list event).
Context (K : Constants) (lib : Modules St).

Lemma extends_refl P Q w : extends P Q w w.
Proof. split; [|done]. exists []. by rewrite app_nil_r. Qed.

Lemma extends_trans P Q w1 w2 w3 :
  extends P Q w1 w2 → extends P Q w2 w3 → extends P Q w1 w3.
Proof.
  intros [(d1 & T1 & F1) S1] [(d2 & T2 & F2) S2]. split.
  - exists (d1 ++ d2). rewrite T2, T1, app_assoc. split; [done|].
    by apply Forall_app.
  - intros p Hp. by rewrite S2, S1.
Qed.

Lemma extends_after (P : event → Prop) Q w s d :
  Forall P d → extends P Q w (after w s d).
Proof. intros H. split; [|done]. by exists d. Qed.

(** The two names differ: the temporary one is the longer. *)
Lemma temporary_path_not_final track_path track :
  temporary_path_of K track_path track ≠ final_path_of track_path track.
Proof.
  unfold temporary_path_of, final_path_of. intros H.
  apply (f_equal length) in H. rewrite !length_app in H. simpl in H. lia.
Qed.

(** *** Files that stay *)

Lemma for_each_write_keeps path chunks : ∀ w r w',
  for_each chunks (write path) w = (r, w') →
  is_Some (fs w !! path) → r = Ok tt ∧ is_Some (fs w' !! path).
Proof.
  induction chunks as [|chunk chunks IH]; intros w r w' H Hsome.
  - inversion H; subst. done.
  - simpl in H. apply bind_inv in H as [(e & [=] & _)|([] & w1 & H1 & H)].
    apply (IH _ _ _ H). inversion H1; subst; simpl.
    rewrite lookup_alter_eq. destruct Hsome as [c ->]. by eexists.
Qed.

Lemma stream_payload_creates config media_url temporary_path final_path
    w w' :
  stream_payload lib config media_url temporary_path final_path w
  = (Ok tt, w') →
  is_Some (fs w' !! temporary_path).
Proof.
  unfold stream_payload. intros H.
  apply bind_inv in H as [(e & _ & [=])|([] & w1 & _ & H)].
  apply bind_inv in H as [(e & _ & [=])|(request & w2 & _ & H)].
  apply bind_inv in H as [(e & _ & [=])|([] & w3 & _ & H)].
  apply bind_inv in H as [(e & _ & [=])|([] & w4 & H4 & H)].
  assert (Hopen : is_Some (fs w4 !! temporary_path)).
  { inversion H4; subst; simpl. rewrite lookup_insert_eq. by eexists. }
  assert (Hchunks : for_each_chunk request (write temporary_path) w4
                    = (Ok tt, w') → is_Some (fs w' !! temporary_path)).
  { unfold for_each_chunk. intros Hc.
    apply bind_inv in Hc as [(e & _ & [=])|([] & w5 & H5 & Hc)].
    apply for_each_write_keeps in H5 as [_ H5]; [|done].
    destruct (broken request); by inversion Hc; subst. }
  destruct (quiet config); [by apply Hchunks|].
  destruct (content_length request); [by apply Hchunks|done].
Qed.

Lemma in_place_keeps path f w r w' :
  in_place path f w = (r, w') → is_Some (fs w' !! path) ∨ w' = w.
Proof.
  unfold in_place. intros H.
  apply bind_inv in H as [(e & [=] & _)|(content & w1 & H1 & H)].
  injection H1 as <- <-.
  destruct (fs w !! path) as [c|]; [|right; by inversion H].
  destruct (f c) as [r0 c']. left.
  apply bind_inv in H as [(e & [=] & _)|([] & w2 & H2 & H)].
  injection H2 as <-.
  assert (w' = {| fs := <[path:=c']> (fs w); ext := ext w; trace := trace w |})
    as -> by (destruct r0; by inversion H).
  simpl. rewrite lookup_insert_eq. by eexists.
Qed.

Lemma decrypt_payload_keeps config decryptor temporary_path indent w r w' :
  decrypt_payload K config decryptor temporary_path indent w = (r, w') →
  is_Some (fs w !! temporary_path) → is_Some (fs w' !! temporary_path).
Proof.
  unfold decrypt_payload. intros H Hsome. destruct decryptor as [decrypt|].
  - rewrite (bind_ok _ _ _ _ _ (log_run K _ _ _ _)) in H.
    apply bind_inv in H as [(e & [=] & _)|([] & w1 & H1 & H)].
    inversion H1; subst.
    apply in_place_keeps in H as [?| ->]; done.
  - by inversion H; subst.
Qed.

Lemma resolve_metadata_keeps config track path indent w r w' :
  resolve_metadata K lib config track path indent w = (r, w') →
  is_Some (fs w !! path) → is_Some (fs w' !! path).
Proof.
  unfold resolve_metadata. intros H Hsome.
  rewrite (bind_ok _ _ _ _ _ (log_run K _ _ _ _)) in H.
  set (w0 := after w (ext w) _) in H.
  assert (H0 : is_Some (fs w0 !! path)) by done. clearbody w0. clear Hsome.
  apply bind_inv in H as [(e & H1 & _)|(cover & w1 & H1 & H)].
  - assert (fs w' = fs w0) as -> ; [|done].
    destruct (Album.cover_url (Track.album track)) as [[|c url]|];
      try by inversion H1.
    apply bind_inv in H1 as [(e' & H1 & _)|(request & w1 & H1 & H2)].
    + unfold external in H1. destruct (requests_get _ _ _ _).
      by inversion H1.
    + unfold external in H1. destruct (requests_get _ _ _ _).
      inversion H1; subst.
      apply bind_inv in H2 as [(e' & H2 & _)|([] & w2 & _ & [=])].
      unfold raise_for_status in H2. by destruct (_ && _); inversion H2.
  - assert (fs w1 = fs w0) as Hfs.
    { destruct (Album.cover_url (Track.album track)) as [[|c url]|];
        try by inversion H1.
      apply bind_inv in H1 as [(e' & _ & [=])|(request & w2 & H1 & H2)].
      unfold external in H1. destruct (requests_get _ _ _ _).
      inversion H1; subst.
      apply bind_inv in H2 as [(e' & _ & [=])|([] & w3 & H2 & H3)].
      unfold raise_for_status in H2.
      destruct (_ && _); inversion H2; subst. by inversion H3. }
    rewrite <- Hfs in H0. clear Hfs H1.
    apply bind_inv in H as [(e & H1 & _)|(resolver & w2 & H1 & H)].
    { by repeat case_bool_decide; inversion H1; subst. }
    assert (w2 = w1) as -> by (by repeat case_bool_decide; inversion H1).
    apply bind_inv in H as [(e & [=] & _)|([] & w3 & H3 & H)].
    inversion H3; subst.
    apply in_place_keeps in H as [?| ->]; done.
Qed.

(** *** Remove and rename *)

Lemma os_remove_run path w content :
  fs w !! path = Some content →
  os_remove path w
  = (Ok tt, {| fs := delete path (fs w); ext := ext w;
               trace := trace w ++ [EvRemove path] |}).
Proof.
  intros H. unfold os_remove, mbind, M_bind, emit, read_file, set_fs.
  simpl. by rewrite H.
Qed.

Lemma os_rename_run src dst w content :
  fs w !! src = Some content →
  os_rename src dst w
  = (Ok tt, {| fs := <[dst:=content]> (delete src (fs w)); ext := ext w;
               trace := trace w ++ [EvRename src dst] |}).
Proof.
  intros H. unfold os_rename, mbind, M_bind, emit, read_file, set_fs.
  simpl. by rewrite H.
Qed.

(** *** Metadata *)

Lemma embed_metadata_true config track temporary_path final_path indent
    w w' :
  embed_metadata K lib config track temporary_path final_path indent w
  = (Ok true, w') →
  skip_metadata config = true ∧ w' = w
  ∨ skip_metadata config = false
    ∧ resolve_metadata K lib config track temporary_path indent w
      = (Ok tt, w').
Proof.
  unfold embed_metadata. destruct (skip_metadata config); simpl.
  { intros [= <-]. by left. }
  intros H. right. split; [done|].
  unfold try_except_InvalidFileError, mbind at 1, M_bind at 1 in H.
  destruct (resolve_metadata K lib config track temporary_path indent w)
    as [[[]|e] w1].
  - by inversion H.
  - destruct e; try done.
    rewrite (bind_ok _ _ _ _ _ (log_run K _ _ _ _)) in H.
    apply bind_inv in H as [(e & _ & [=])|([] & w2 & _ & [=])].
Qed.

Lemma embed_metadata_invalid config track temporary_path final_path indent
    w w' content :
  skip_metadata config = false →
  resolve_metadata K lib config track temporary_path indent w
  = (Raise InvalidFileError, w') →
  fs w' !! temporary_path = Some content →
  embed_metadata K lib config track temporary_path final_path indent w
  = (Ok false,
     {| fs := delete temporary_path (fs w'); ext := ext w';
        trace := trace w'
          ++ log_events K config (invalid_file_message final_path) indent
          ++ [EvRemove temporary_path] |}).
Proof.
  intros Hskip H Hc. unfold embed_metadata. rewrite Hskip. simpl.
  unfold try_except_InvalidFileError, mbind at 1, M_bind at 1.
  rewrite H. rewrite (bind_ok _ _ _ _ _ (log_run K _ _ _ _)).
  erewrite bind_ok; [|by eapply os_remove_run]. simpl.
  by rewrite <- app_assoc.
Qed.

(** *** Everything before the rename *)

Lemma before_rename_log temporary_path config message indent w :
  extends (before_rename temporary_path) (fun p => p = temporary_path) w
    (after w (ext w) (log_events K config message indent)).
Proof.
  apply extends_after. unfold log_events. destruct (quiet config); [done|].
  by repeat constructor.
Qed.

Lemma before_rename_path temporary_path client config track siblings
    include_artist include_album :
  sound (before_rename temporary_path) (fun p => p = temporary_path)
    (get_track_path client config track siblings include_artist
       include_album).
Proof. by apply sound_get_track_path. Qed.

Lemma before_rename_media temporary_path client config track final_path
    indent :
  sound (before_rename temporary_path) (fun p => p = temporary_path)
    (request_media K client config track final_path indent).
Proof. by apply sound_request_media. Qed.

Lemma before_rename_stream config media_url temporary_path final_path :
  sound (before_rename temporary_path) (fun p => p = temporary_path)
    (stream_payload lib config media_url temporary_path final_path).
Proof.
  apply sound_stream_payload; try done; repeat split; by intros ? [= <-].
Qed.

Lemma before_rename_decrypt config decryptor temporary_path indent :
  sound (before_rename temporary_path) (fun p => p = temporary_path)
    (decrypt_payload K config decryptor temporary_path indent).
Proof.
  apply sound_decrypt_payload; try done; repeat split; by intros ? [= <-].
Qed.

Lemma before_rename_embed config track temporary_path final_path indent :
  sound (before_rename temporary_path) (fun p => p = temporary_path)
    (embed_metadata K lib config track temporary_path final_path indent).
Proof.
  apply sound_embed_metadata; try done; repeat split; by intros ? [= <-].
Qed.

End Finish.

Section Finalization.

Context {St : Type} `{unicode : !Unicode}.
Local Abbreviation M := (@M St).
Local Abbreviation world := (world St).
Local Abbreviation sound := (@sound St _).
Local Abbreviation extends := (@extends St).
Implicit Types (client : Client St) (w : world) (d : list event).
Context (K : Constants) (lib : Modules St).

(** C5: the rename of the temporary path to the final path, when there is
    one, is the last event of the run; it comes after the payload has been
    streamed, the decryption has returned and the embedding has returned
    or was skipped, and the final path holds no file until then.  A run
    without it, in particular a run that raises, touches no file but the
    temporary one and leaves the final path as it found it. *)
Theorem download_track_finalization client config track siblings
    include_artist include_album indent w track_path w1 r w' :
  get_track_path client config track siblings include_artist
    include_album w = (Ok track_path, w1) →
  download_track K lib client config track siblings include_artist
    include_album indent w = (r, w') →
  temporary_path_of K track_path track ≠ final_path_of track_path track
  ∧ ∃ d, trace w' = trace w ++ d
    ∧ (Forall (before_rename (temporary_path_of K track_path track)) d
       ∧ fs w' !! final_path_of track_path track
         = fs w !! final_path_of track_path track
       ∨ r = Ok tt
         ∧ fs w !! final_path_of track_path track = None
         ∧ ∃ d0 media_url decryptor wa wb wc wd content,
             d = d0 ++ [EvRename (temporary_path_of K track_path track)
                          (final_path_of track_path track)]
             ∧ Forall (before_rename (temporary_path_of K track_path track))
                 d0
             ∧ request_media K client config track
                 (final_path_of track_path track) indent
                 (after w1 (ext w1)
                    [EvIsFile (final_path_of track_path track)])
               = (Ok (Some (media_url, decryptor)), wa)
             ∧ stream_payload lib config media_url
                 (temporary_path_of K track_path track)
                 (final_path_of track_path track) wa = (Ok tt, wb)
             ∧ decrypt_payload K config decryptor
                 (temporary_path_of K track_path track) indent wb
               = (Ok tt, wc)
             ∧ (skip_metadata config = true ∧ wd = wc
                ∨ skip_metadata config = false
                  ∧ resolve_metadata K lib config track
                      (temporary_path_of K track_path track) indent wc
                    = (Ok tt, wd))
             ∧ fs wd !! temporary_path_of K track_path track = Some content
             ∧ fs wd !! final_path_of track_path track = None
             ∧ fs w' = <[final_path_of track_path track := content]>
                         (delete (temporary_path_of K track_path track)
                            (fs wd))).
Proof.
  intros Hpath H.
  pose proof (temporary_path_not_final K track_path track) as Hne.
  set (tmp := temporary_path_of K track_path track) in *.
  set (final := final_path_of track_path track) in *.
  split; [done|].
  assert (Hearly : ∀ w'',
    extends (before_rename tmp) (fun p => p = tmp) w w'' →
    ∃ d, trace w'' = trace w ++ d
      ∧ Forall (before_rename tmp) d
      ∧ fs w'' !! final = fs w !! final).
  { intros w'' [(d & T & F) S]. exists d. split; [done|]. split; [done|].
    apply S. intros E. by apply Hne. }
  assert (E1 : extends (before_rename tmp) (fun p => p = tmp) w w1).
  { eapply before_rename_path. exact Hpath. }
  set (w2 := after w1 (ext w1) [EvIsFile final]).
  assert (E2 : extends (before_rename tmp) (fun p => p = tmp) w w2).
  { eapply extends_trans; [exact E1|]. apply extends_after.
    by repeat constructor. }
  destruct (fs w !! final) as [c|] eqn:Hfinal.
  { (* the final path exists: the track is skipped *)
    unfold download_track in H. rewrite (bind_ok _ _ _ _ _ Hpath) in H.
    rewrite (bind_ok _ _ _ _ _ (isfile_run _ _)) in H.
    destruct (get_track_path_ok _ _ _ _ _ _ _ _ _ Hpath) as (Hfs & _ & _).
    fold final in H. rewrite Hfs, Hfinal in H.
    rewrite bool_decide_eq_true_2 in H by done.
    rewrite log_run in H. injection H as <- <-.
    destruct (Hearly (after w2 (ext w2) (log_events K config
                (already_exists_message final) indent)))
      as (d & T & HA).
    { eapply extends_trans; [exact E2|]. apply before_rename_log. }
    exists d. split; [exact T|]. left. exact HA. }
  rewrite (download_track_after_check _ _ _ _ _ _ _ _ _ _ _ _ Hpath Hfinal)
    in H.
  fold tmp final w2 in H.
  destruct (request_media K client config track final indent w2)
    as [rm wa] eqn:Em.
  assert (Ea : extends (before_rename tmp) (fun p => p = tmp) w wa).
  { eapply extends_trans; [exact E2|].
    eapply before_rename_media. exact Em. }
  destruct rm as [[[media_url decryptor]|]|e].
  2,3: injection H as <- <-; destruct (Hearly _ Ea) as (d & T & HA);
       exists d; (split; [exact T|]); left; exact HA.
  unfold finish in H.
  apply bind_inv in H as [(e & Hs & ->)|([] & wb & Hs & H)].
  { assert (Eb : extends (before_rename tmp) (fun p => p = tmp) w w').
    { eapply extends_trans; [exact Ea|].
      eapply before_rename_stream. exact Hs. }
    destruct (Hearly _ Eb) as (d & T & HA).
    exists d. split; [exact T|]. left. exact HA. }
  assert (Eb : extends (before_rename tmp) (fun p => p = tmp) w wb).
  { eapply extends_trans; [exact Ea|].
    eapply before_rename_stream. exact Hs. }
  apply bind_inv in H as [(e & Hd & ->)|([] & wc & Hd & H)].
  { assert (Ec : extends (before_rename tmp) (fun p => p = tmp) w w').
    { eapply extends_trans; [exact Eb|].
      eapply before_rename_decrypt. exact Hd. }
    destruct (Hearly _ Ec) as (d & T & HA).
    exists d. split; [exact T|]. left. exact HA. }
  assert (Ec : extends (before_rename tmp) (fun p => p = tmp) w wc).
  { eapply extends_trans; [exact Eb|].
    eapply before_rename_decrypt. exact Hd. }
  apply bind_inv in H as [(e & He & ->)|(finalize & wd & He & H)].
  { assert (Ed : extends (before_rename tmp) (fun p => p = tmp) w w').
    { eapply extends_trans; [exact Ec|].
      eapply before_rename_embed. exact He. }
    destruct (Hearly _ Ed) as (d & T & HA).
    exists d. split; [exact T|]. left. exact HA. }
  assert (Ed : extends (before_rename tmp) (fun p => p = tmp) w wd).
  { eapply extends_trans; [exact Ec|].
    eapply before_rename_embed. exact He. }
  destruct finalize.
  2:{ injection H as <- <-. destruct (Hearly _ Ed) as (d & T & HA).
      exists d. split; [exact T|]. left. exact HA. }
  (* the rename *)
  pose proof (stream_payload_creates lib _ _ _ _ _ _ Hs) as Hb.
  pose proof (decrypt_payload_keeps K _ _ _ _ _ _ _ Hd Hb) as Hc.
  pose proof (embed_metadata_true K lib _ _ _ _ _ _ _ He) as Hmeta.
  assert (Hwd : is_Some (fs wd !! tmp)).
  { destruct Hmeta as [[_ ->]|[_ Hr]]; [done|].
    by eapply resolve_metadata_keeps. }
  destruct Hwd as [content Hcontent].
  rewrite (os_rename_run _ _ _ _ Hcontent) in H. injection H as <- <-.
  destruct Ed as [(d0 & T0 & F0) S0].
  exists (d0 ++ [EvRename tmp final]). simpl.
  split; [by rewrite T0, app_assoc|]. right.
  split; [done|]. split; [done|].
  exists d0, media_url, decryptor, wa, wb, wc, wd, content.
  do 7 (split; [done|]). split; [|done].
  rewrite S0; [done|]. intros E. by apply Hne.
Qed.

(** C6: when the embedding raises the invalid-file condition the
    temporary file is removed, the skip is logged and [download_track]
    returns: nothing is at the final path, nothing is tried again, and a
    loop over the siblings goes on. *)
Theorem download_track_invalid_file client config track siblings
    include_artist include_album indent w track_path w1 media_url
    decryptor wa wb wc wd :
  get_track_path client config track siblings include_artist
    include_album w = (Ok track_path, w1) →
  fs w !! final_path_of track_path track = None →
  request_media K client config track (final_path_of track_path track)
    indent (after w1 (ext w1) [EvIsFile (final_path_of track_path track)])
  = (Ok (Some (media_url, decryptor)), wa) →
  stream_payload lib config media_url
    (temporary_path_of K track_path track)
    (final_path_of track_path track) wa = (Ok tt, wb) →
  decrypt_payload K config decryptor
    (temporary_path_of K track_path track) indent wb = (Ok tt, wc) →
  skip_metadata config = false →
  resolve_metadata K lib config track
    (temporary_path_of K track_path track) indent wc
  = (Raise InvalidFileError, wd) →
  ∃ w',
    download_track K lib client config track siblings include_artist
      include_album indent w = (Ok tt, w')
    ∧ fs w' = delete (temporary_path_of K track_path track) (fs wd)
    ∧ fs w' !! temporary_path_of K track_path track = None
    ∧ fs w' !! final_path_of track_path track = None
    ∧ ext w' = ext wd
    ∧ trace w' = trace wd
        ++ log_events K config
             (invalid_file_message (final_path_of track_path track)) indent
        ++ [EvRemove (temporary_path_of K track_path track)]
    ∧ ∀ rest,
        for_each (track :: rest)
          (fun t => download_track K lib client config t siblings
                      include_artist include_album indent) w
        = for_each rest
            (fun t => download_track K lib client config t siblings
                        include_artist include_album indent) w'.
Proof.
  intros Hpath Hfinal Em Hs Hd Hskip Hr.
  pose proof (temporary_path_not_final K track_path track) as Hne.
  set (tmp := temporary_path_of K track_path track) in *.
  set (final := final_path_of track_path track) in *.
  pose proof (stream_payload_creates lib _ _ _ _ _ _ Hs) as Hb.
  pose proof (decrypt_payload_keeps K _ _ _ _ _ _ _ Hd Hb) as Hc.
  pose proof (resolve_metadata_keeps K lib _ _ _ _ _ _ _ Hr Hc)
    as [content Hcontent].
  assert (Hrun : download_track K lib client config track siblings
            include_artist include_album indent w
          = (Ok tt,
             {| fs := delete tmp (fs wd); ext := ext wd;
                trace := trace wd
                  ++ log_events K config (invalid_file_message final) indent
                  ++ [EvRemove tmp] |})).
  { rewrite (download_track_after_check _ _ _ _ _ _ _ _ _ _ _ _ Hpath Hfinal).
    fold tmp final. rewrite Em. unfold finish.
    rewrite (bind_ok _ _ _ _ _ Hs), (bind_ok _ _ _ _ _ Hd).
    by rewrite (bind_ok _ _ _ _ _
                  (embed_metadata_invalid K lib _ _ _ final _ _ _ _
                     Hskip Hr Hcontent)). }
  eexists. split; [exact Hrun|]. simpl.
  split; [done|]. split; [apply lookup_delete_eq|].
  split; [|split; [done|split; [done|]]].
  - rewrite lookup_delete_ne by done. rewrite <- Hfinal.
    assert (E : extends (before_rename tmp) (fun p => p = tmp) w wd).
    { eapply extends_trans; [eapply before_rename_path; exact Hpath|].
      eapply extends_trans;
        [apply (extends_after _ _ w1 (ext w1) [EvIsFile final]);
         by repeat constructor|].
      eapply extends_trans; [eapply before_rename_media; exact Em|].
      eapply extends_trans; [eapply before_rename_stream; exact Hs|].
      eapply extends_trans; [eapply before_rename_decrypt; exact Hd|].
      eapply sound_resolve_metadata; [..|exact Hr]; try done;
        repeat split; by intros ? [= <-]. }
    destruct E as [_ S]. apply S. intros E. by apply Hne.
  - intros rest.
    exact (for_each_next
             (fun t => download_track K lib client config t siblings
                         include_artist include_album indent)
             track rest w _ Hrun).
Qed.



End Finalization.

(** * download_album *)

Section Album.

Context {St : Type} `{unicode : !Unicode}.
Local Abbreviation M := (@M St).
Local Abbreviation world := (world St).
Local Abbreviation sound := (@sound St _).
Local Abbreviation extends := (@extends St).
Implicit Types (client : Client St) (w : world) (d : list event).
Context (K : Constants) (lib : Modules St).

(** [enumerate] numbers the elements from [start] on. *)
Lemma for_each_enumerate {A} (body : nat * A → M unit) l : ∀ start w,
  for_each (enumerate l start) body w
  = for_each (imap (fun i x => body (start + i, x)%nat) l) (fun m => m) w.
Proof.
  induction l as [|x l IH]; intros start w; [done|].
  cbn [enumerate for_each imap]. rewrite Nat.add_0_r.
  unfold mbind, M_bind. destruct (body (start, x) w) as [[[]|e] w1]; [|done].
  rewrite IH.
  rewrite (imap_ext _ ((fun i y => body (start + i, y)%nat) ∘ S) l); [done|].
  intros i y _. simpl. do 2 f_equal. lia.
Qed.

(** What [download_track] does after the existence check. *)
Lemma sound_after_check (P : event → Prop) (Q : str → Prop) client config
    track track_path indent (exists_ : bool) :
  (∀ ev, is_listing ev = false → is_isfile ev = false → P ev) →
  (∀ p, Q p) →
  sound P Q
    (if exists_ then
       log K config
         (u "Skipping download of "
            ++ os_path_basename (final_path_of track_path track)
            ++ u "; it already exists.") indent
     else
       media ← request_media K client config track
                 (final_path_of track_path track) indent;
       match media with
       | None => mret tt
       | Some (media_url, decryptor) =>
           finish K lib config track media_url decryptor
             (temporary_path_of K track_path track)
             (final_path_of track_path track) indent
       end).
Proof.
  intros HP HQ.
  repeat first [ apply sound_log; solve [auto]
               | apply sound_request_media; solve [auto]
               | apply sound_finish; solve [auto]
               | sound_step ].
Qed.

(** With siblings supplied, a run of [download_track] lists no album and
    checks one path at most: the final path of the track. *)
Lemma download_track_supplied client config track s l include_artist
    include_album indent w r w' :
  download_track K lib client config track (Some (s :: l)) include_artist
    include_album indent w = (r, w') →
  ∃ d, trace w' = trace w ++ d
    ∧ count is_listing d = 0%nat
    ∧ (r = Ok tt →
       ∃ track_path,
         get_track_path client config track (Some (s :: l)) include_artist
           include_album w = (Ok track_path, w)
         ∧ List.filter is_isfile d
           = [EvIsFile (final_path_of track_path track)]).
Proof.
  intros H. unfold download_track in H.
  apply bind_inv in H as [(e & Hp & ->)|(track_path & w1 & Hp & H)].
  { apply get_track_path_supplied in Hp as Hw. subst w'. exists [].
    rewrite app_nil_r. done. }
  apply get_track_path_supplied in Hp as Hw. subst w1.
  rewrite (bind_ok _ _ _ _ _ (isfile_run _ _)) in H. cbv zeta in H.
  eapply (sound_after_check
            (fun ev => is_listing ev = false ∧ is_isfile ev = false)
            (fun _ => True)) in H as [(d & T & F) _]; [|done..].
  exists (EvIsFile (final_path_of track_path track) :: d).
  simpl in T. rewrite <- app_assoc in T. split; [exact T|].
  assert (Hl : count is_listing d = 0%nat).
  { apply count_none. eapply Forall_impl; [exact F|]. by intros ev [? ?]. }
  assert (Hi : List.filter is_isfile d = []).
  { apply length_zero_iff_nil. apply count_none.
    eapply Forall_impl; [exact F|]. by intros ev [? ?]. }
  split; [by rewrite count_cons|]. intros _. exists track_path.
  split; [done|]. simpl. by rewrite Hi.
Qed.

Lemma filter_log_events f config message indent :
  (∀ line, f (EvPrint line) = false) →
  List.filter f (log_events K config message indent) = [].
Proof.
  intros H. unfold log_events. destruct (quiet config); [done|].
  simpl. by rewrite H.
Qed.

(** The loop of [download_album] over a part [rest] of the fetched list
    [s :: l]. *)
Lemma download_album_loop client config s l include_artist indent rest :
  ∀ index w r w',
  for_each (enumerate rest index) (fun '(index, track) =>
    log K config
      (u "Downloading " ++ [QUOTE] ++ Track.name track ++ [QUOTE]
         ++ u " (" ++ str_of_N (N.of_nat index) ++ u " of "
         ++ str_of_N (N.of_nat (length (s :: l))) ++ u " track(s))...")
      indent;;
    download_track K lib client config track (Some (s :: l))
      include_artist true (S indent)) w = (r, w') →
  ∃ d, trace w' = trace w ++ d
    ∧ count is_listing d = 0%nat
    ∧ (r = Ok tt →
       Forall2
         (fun track ev =>
            ∃ track_path w0,
              get_track_path client config track (Some (s :: l))
                include_artist true w0 = (Ok track_path, w0)
              ∧ ev = EvIsFile (final_path_of track_path track))
         rest (List.filter is_isfile d)).
Proof.
  induction rest as [|track rest IH]; intros index w r w' H.
  { injection H as <- <-. exists []. rewrite app_nil_r.
    split; [done|]. split; [done|]. intros _. constructor. }
  cbn [enumerate for_each] in H.
  apply bind_inv in H as [(e & H1 & ->)|([] & w1 & H1 & H)];
    rewrite (bind_ok _ _ _ _ _ (log_run K _ _ _ _)) in H1;
    apply download_track_supplied in H1 as (d1 & T1 & L1 & C1);
    simpl in T1; rewrite <- app_assoc in T1.
  { eexists. split; [exact T1|].
    by rewrite count_app, count_log_events, L1. }
  apply IH in H as (d2 & T2 & L2 & C2).
  eexists. split; [by rewrite T2, T1, <- !app_assoc|].
  split; [by rewrite !count_app, count_log_events, L1, L2|].
  intros ->. destruct (C1 eq_refl) as (track_path & Hp & Hf).
  rewrite !List.filter_app, filter_log_events, Hf by done. simpl.
  constructor; [|by apply C2]. eauto.
Qed.

(** C8: [download_album] lists the album once and then takes the tracks in
    the order of the listing, each with the whole list as its siblings,
    with album inclusion forced and with its position, counted from one,
    in the progress line. *)
Theorem download_album_in_order client config album include_artist indent
    w r w' :
  download_album K lib client config album include_artist indent w
  = (r, w') →
  ∃ d, trace w' = trace w ++ d
    ∧ count is_listing d = 1%nat
    ∧ ∃ listing s,
        get_album_tracks client album (ext w) = (listing, s)
        ∧ match listing with
          | Raise e => r = Raise e ∧ w' = after w s [EvGetAlbumTracks album]
          | Ok tracks =>
              (r, w')
              = for_each
                  (imap
                     (fun i track =>
                        log K config
                          (track_progress_message track (S i)
                             (length tracks)) indent;;
                        download_track K lib client config track
                          (Some tracks) include_artist true (S indent))
                     tracks)
                  (fun m => m) (after w s [EvGetAlbumTracks album])
              ∧ (r = Ok tt →
                 Forall2
                   (fun track ev =>
                      ∃ track_path w0,
                        get_track_path client config track (Some tracks)
                          include_artist true w0 = (Ok track_path, w0)
                        ∧ ev = EvIsFile (final_path_of track_path track))
                   tracks (List.filter is_isfile d))
          end.
Proof.
  intros H. unfold download_album in H.
  destruct (get_album_tracks client album (ext w)) as [listing s] eqn:E.
  apply bind_inv in H as [(e & H1 & ->)|(tracks & w1 & H1 & H)];
    rewrite (external_run _ _ _ _ _ E) in H1; injection H1 as -> <-.
  { exists [EvGetAlbumTracks album]. split; [done|]. split; [done|].
    by exists (Raise e), s. }
  assert (Heq : (r, w')
    = for_each
        (imap
           (fun i track =>
              log K config
                (track_progress_message track (S i) (length tracks))
                indent;;
              download_track K lib client config track (Some tracks)
                include_artist true (S indent))
           tracks)
        (fun m => m) (after w s [EvGetAlbumTracks album])).
  { rewrite <- H. by rewrite for_each_enumerate. }
  destruct tracks as [|s0 l].
  { injection H as <- <-. exists [EvGetAlbumTracks album].
    split; [done|]. split; [done|]. exists (Ok []), s.
    split; [done|]. split; [done|]. intros _. constructor. }
  apply download_album_loop in H as (d & T & L & C).
  exists (EvGetAlbumTracks album :: d). simpl in T.
  rewrite <- app_assoc in T. split; [exact T|].
  split; [by rewrite count_cons, L|].
  exists (Ok (s0 :: l)), s. split; [done|]. split; [exact Heq|].
  intros Hr. simpl. by apply C.
Qed.

End Album.

(** * More on sanitize *)

Lemma split_covers sep s c :
  c ∈ s → c ≠ sep → ∃ w, w ∈ split sep s ∧ c ∈ w.
Proof.
  induction s as [|x s IH]; intros Hin Hc; [by apply elem_of_nil in Hin|].
  simpl. apply elem_of_cons in Hin as [->|Hin].
  - destruct (N.eqb_spec x sep); [done|].
    destruct (split sep s) as [|w ws]; eexists; (split; [left|left]).
  - destruct (IH Hin Hc) as (w & Hw & Hcw).
    destruct (N.eqb_spec x sep); [exists w; split; [by right|done]|].
    destruct (split sep s) as [|w0 ws]; [by apply elem_of_nil in Hw|].
    apply elem_of_cons in Hw as [->|Hw].
    + exists (x :: w0). split; [left|by right].
    + exists w. split; [by right|done].
Qed.

Lemma split_all_sep sep s :
  Forall (fun c => c = sep) s → Forall (fun w => w = []) (split sep s).
Proof.
  induction 1 as [|c s -> _ IH]; simpl; [by repeat constructor|].
  rewrite N.eqb_refl. by constructor.
Qed.

Lemma join_nonempty sep ws :
  ws ≠ [] → Forall (fun w => w ≠ []) ws → join sep ws ≠ [].
Proof.
  intros Hne H. destruct H as [|w ws Hw _]; [done|].
  simpl. destruct ws; [done|]. by destruct w.
Qed.

Lemma join_cons_cons sep w w' ws :
  join sep (w :: w' :: ws) = w ++ sep ++ join sep (w' :: ws).
Proof. done. Qed.

Section Shape.

Context `{unicode : !Unicode}.

(** X1: whatever the style, the result holds no path separator. *)
Theorem sanitize_no_separator config s : SLASH ∉ sanitize config s.
Proof. apply sanitize_not_slash. Qed.

(** X3: the result is empty exactly when nothing of the input is kept: in
    the nice style when it holds no alphanumeric character, in the plain
    style when it is made of separators only. *)
Theorem sanitize_empty config s :
  sanitize config s = []
  ↔ Forall (fun c => if nice_format config then isalnum c = false
                     else c = SLASH) s.
Proof.
  unfold sanitize. destruct (nice_format config); simpl.
  - split.
    + intros H. apply (proj1 (lower_empty _)) in H. apply Forall_forall. intros c Hc.
      destruct (isalnum c) eqn:Ha; [exfalso|done].
      set (kept := List.filter
                     (fun c => isalnum c || (c =? SPACE) || (c =? HYPHEN)) s)
        in *.
      assert (Hk : c ∈ replace SPACE HYPHEN kept).
      { unfold replace. apply list_elem_of_fmap. exists c. split.
        - destruct (N.eqb_spec c SPACE) as [->|];
          [by apply isalnum_not_space in Ha|done].
        - apply list_elem_of_In, List.filter_In. split.
          + by apply list_elem_of_In.
          + by rewrite Ha. }
      destruct (split_covers HYPHEN _ c Hk (isalnum_not_hyphen _ Ha))
        as (w & Hw & Hcw).
      revert H. apply join_nonempty.
      * intros Hnil.
        assert (Hin : w ∈ List.filter nonempty
                        (split HYPHEN (replace SPACE HYPHEN kept))).
        { apply list_elem_of_In, List.filter_In. split.
          - by apply list_elem_of_In.
          - destruct w; [by apply elem_of_nil in Hcw|done]. }
        rewrite Hnil in Hin. by apply elem_of_nil in Hin.
      * eapply Forall_impl; [apply nice_words|]. by intros x [? _].
    + intros H.
      assert (Hall : Forall (fun c => c = HYPHEN)
                (replace SPACE HYPHEN
                   (List.filter
                      (fun c => isalnum c || (c =? SPACE) || (c =? HYPHEN))
                      s))).
      { eapply Forall_impl; [apply replace_chars|].
        intros c [->|[Hin Hsp]]; [done|].
        apply list_elem_of_In, List.filter_In in Hin as [Hin Hk].
        rewrite Forall_forall in H.
        rewrite (H c) in Hk by (by apply list_elem_of_In). simpl in Hk.
        destruct (N.eqb_spec c SPACE); [done|].
        destruct (N.eqb_spec c HYPHEN); done. }
      apply split_all_sep in Hall.
      assert (Hf : List.filter nonempty
                (split HYPHEN
                   (replace SPACE HYPHEN
                      (List.filter
                         (fun c => isalnum c || (c =? SPACE) || (c =? HYPHEN))
                         s))) = []).
      { induction Hall as [|w ws -> _ IH]; [done|]. simpl. exact IH. }
      rewrite Hf. apply lower_nil.
  - split.
    + intros H. apply Forall_forall. intros c Hc.
      destruct (N.eqb_spec c SLASH) as [->|Hne]; [done|exfalso].
      assert (Hin : c ∈ List.filter (fun c => negb (c =? SLASH)) s).
      { apply list_elem_of_In, List.filter_In. split.
        - by apply list_elem_of_In.
        - by destruct (N.eqb_spec c SLASH). }
      rewrite H in Hin. by apply elem_of_nil in Hin.
    + induction 1 as [|c s -> _ IH]; [done|]. simpl. exact IH.
Qed.

(** What the shape of the nice style takes from [str.lower], beyond what
    every statement takes: a hyphen is its own lowercase form and cuts
    the string in two parts that are lowercased each on its own; no
    hyphen and no space comes from another character; no ASCII capital
    is left. *)
Hypothesis lower_hyphen : ∀ s t,
  lower (s ++ HYPHEN :: t) = lower s ++ HYPHEN :: lower t.
Hypothesis lower_fresh : ∀ s c,
  c ∈ lower s → c = HYPHEN ∨ c = SPACE → c ∈ s.
Hypothesis lower_small : ∀ s c, c ∈ lower s → isupper c = false.

Lemma lower_join ws :
  lower (join [HYPHEN] ws) = join [HYPHEN] (map lower ws).
Proof.
  induction ws as [|w ws IH]; [apply lower_nil|].
  destruct ws as [|w' ws]; [done|].
  rewrite join_cons_cons.
  change ([HYPHEN] ++ join [HYPHEN] (w' :: ws))
    with (HYPHEN :: join [HYPHEN] (w' :: ws)).
  rewrite lower_hyphen, IH. done.
Qed.

(** X2: in the nice style the result is made of non-empty words joined by
    single hyphens: it neither starts nor ends with a hyphen, holds no
    two hyphens in a row, no space, no separator and no ASCII capital. *)
Theorem sanitize_nice_shape config s :
  nice_format config = true →
  ∃ ws, sanitize config s = join [HYPHEN] ws ∧ Forall slug_word ws.
Proof.
  intros Hn. unfold sanitize. rewrite Hn. simpl. rewrite lower_join.
  eexists. split; [reflexivity|].
  apply Forall_fmap. eapply Forall_impl; [apply nice_words|].
  intros w [Hne Hw]. simpl. split; [by apply lower_nonempty|].
  apply Forall_forall. intros c Hc.
  rewrite Forall_forall in Hw.
  split; [|split; [|split]].
  - intros ->. apply lower_fresh in Hc; [|by left].
    destruct (Hw _ Hc) as [_ Ha]. by apply isalnum_not_hyphen in Ha.
  - intros ->. apply lower_fresh in Hc; [|by right].
    destruct (Hw _ Hc) as [_ Ha]. by apply isalnum_not_space in Ha.
  - intros ->. apply lower_separator in Hc.
    destruct (Hw _ Hc) as [_ Ha]. by apply isalnum_not_slash in Ha.
  - by apply (lower_small w).
Qed.

End Shape.

(** * More on get_track_path *)

Section MorePaths.

Context {St : Type} `{unicode : !Unicode}.
Local Abbreviation M := (@M St).
Local Abbreviation world := (world St).
Implicit Types (client : Client St) (w : world).

(** The four segments that are joined to the output directory. *)
Lemma get_track_path_segments client config track siblings include_artist
    include_album w path w1 :
  get_track_path client config track siblings include_artist
    include_album w = (Ok path, w1) →
  ∃ segments,
    path = os_path_join (output_directory config) segments
    ∧ length segments = 4%nat
    ∧ Forall (fun b => SLASH ∉ b) segments.
Proof.
  intros H. unfold get_track_path in H.
  apply bind_inv in H as [(e & _ & [=])|(artist_path & wa & Ha & H)].
  apply bind_inv in H as [(e & _ & [=])|([[album_path disc_path] file_path]
                                          & wb & Hb & H)].
  injection H as <- <-.
  exists [artist_path; album_path; disc_path; file_path].
  split; [done|]. split; [done|].
  assert (Hartist : SLASH ∉ artist_path).
  { destruct (include_artist || full_structure config).
    - destruct (Album.artists (Track.album track)); [done|].
      injection Ha as <- _. apply sanitize_not_slash.
    - injection Ha as <- _. apply not_elem_of_nil. }
  assert (Hrest : (SLASH ∉ album_path) ∧ (SLASH ∉ disc_path)
                  ∧ (SLASH ∉ file_path)).
  { destruct (include_album || full_structure config).
    - apply bind_inv in Hb as [(e & _ & [=])|(sibs & ws & _ & Hb)].
      apply bind_inv in Hb as [(e & _ & [=])|(max_disc & wd & _ & Hb)].
      apply bind_inv in Hb as [(e & _ & [=])|(max_track & wt & _ & Hb)].
      injection Hb as <- <- <- _.
      split; [apply sanitize_not_slash|].
      split; [|apply sanitize_not_slash].
      destruct (1 <? max_disc)%Z;
        [apply sanitize_not_slash|apply not_elem_of_nil].
    - injection Hb as <- <- <- _.
      split; [apply not_elem_of_nil|].
      split; [apply not_elem_of_nil|apply sanitize_not_slash]. }
  destruct Hrest as (? & ? & ?). by repeat constructor.
Qed.

(** X4: the path returned starts with the output directory of the
    configuration: no name of an artist, an album or a track can make
    [os.path.join] start over from the root. *)
Theorem get_track_path_under_output_directory client config track siblings
    include_artist include_album w path w1 :
  get_track_path client config track siblings include_artist
    include_album w = (Ok path, w1) →
  output_directory config `prefix_of` path.
Proof.
  intros H.
  destruct (get_track_path_segments _ _ _ _ _ _ _ _ _ H)
    as (segments & -> & _ & Hs).
  apply os_path_join_prefix. eapply Forall_impl; [exact Hs|].
  intros b. apply startswith_sep_absent.
Qed.

(** X5: [get_track_path] changes no file; the one call it can make is the
    listing of the track's album, and it makes none when it is handed a
    non-empty list of siblings or when album inclusion is off. *)
Theorem get_track_path_reads_only client config track siblings
    include_artist include_album w r w' :
  get_track_path client config track siblings include_artist
    include_album w = (r, w') →
  fs w' = fs w
  ∧ (trace w' = trace w
     ∨ trace w' = trace w ++ [EvGetAlbumTracks (Track.album track)])
  ∧ (listing_needed config siblings include_album = false → w' = w).
Proof.
  unfold get_track_path, listing_needed. intros H.
  destruct (include_artist || full_structure config),
    (Album.artists (Track.album track)),
    (include_album || full_structure config);
    destruct siblings as [[|? ?]|];
    unfold mbind, M_bind, mret, M_ret, raise, external in H;
    cbn [fs ext trace] in H;
    repeat match type of H with
           | context [get_album_tracks ?c ?a ?s] =>
               destruct (get_album_tracks c a s) as [[?|?] ?]
           | context [match max_of ?x with _ => _ end] => destruct (max_of x)
           end; injection H as <- <-; simpl;
    (split; [done|]); (split; [by auto|]); done.
Qed.

(** X6: when the album has to be listed and the listing comes back empty,
    [get_track_path] raises [ValueError]: there is no greatest disc
    number. *)
Theorem get_track_path_empty_listing client config track siblings
    include_artist include_album w s :
  listing_needed config siblings include_album = true →
  (include_artist || full_structure config = true →
   Album.artists (Track.album track) ≠ []) →
  get_album_tracks client (Track.album track) (ext w) = (Ok [], s) →
  get_track_path client config track siblings include_artist
    include_album w
  = (Raise ValueError, after w s [EvGetAlbumTracks (Track.album track)]).
Proof.
  unfold listing_needed. intros Hl Hartist Hlist.
  apply andb_true_iff in Hl as [Halbum Hsib].
  unfold get_track_path. rewrite Halbum.
  assert (Hfetch : ∀ w0, ext w0 = ext w →
    match siblings with
    | Some (s :: l) => mret (s :: l)
    | _ => external (EvGetAlbumTracks (Track.album track))
             (get_album_tracks client (Track.album track))
    end w0 = (Ok [], after w0 s [EvGetAlbumTracks (Track.album track)])).
  { intros w0 Hw0. destruct siblings as [[|? ?]|]; try done;
      apply external_run; by rewrite Hw0. }
  destruct (include_artist || full_structure config).
  - destruct (Album.artists (Track.album track)) as [|artist rest];
      [by destruct Hartist|].
    unfold mbind at 1, M_bind at 1, mret at 1, M_ret at 1.
    unfold mbind at 1, M_bind at 1.
    unfold mbind at 1, M_bind at 1. by rewrite (Hfetch w eq_refl).
  - unfold mbind at 1, M_bind at 1, mret at 1, M_ret at 1.
    unfold mbind at 1, M_bind at 1.
    unfold mbind at 1, M_bind at 1. by rewrite (Hfetch w eq_refl).
Qed.

End MorePaths.

(** * More on download_track *)

Lemma os_path_dirname_flat p : SLASH ∉ p → os_path_dirname p = [].
Proof.
  intros H. unfold os_path_dirname, os_path_basename.
  rewrite split_no_sep by done. simpl. by rewrite Nat.sub_diag.
Qed.

Lemma os_path_join_flat file_path :
  SLASH ∉ file_path → os_path_join [] [[]; []; []; file_path] = file_path.
Proof.
  intros H. unfold os_path_join. simpl. unfold join_step at 1. simpl.
  by rewrite (startswith_sep_absent _ H).
Qed.

Section MoreDownload.

Context {St : Type} `{unicode : !Unicode}.
Local Abbreviation M := (@M St).
Local Abbreviation world := (world St).
Local Abbreviation sound := (@sound St _).
Local Abbreviation extends := (@extends St).
Implicit Types (client : Client St) (w : world) (d : list event).
Context (K : Constants) (lib : Modules St).

(** Chunks written one after the other pile up behind what the file
    holds. *)
Lemma for_each_write_run path chunks : ∀ w content,
  fs w !! path = Some content →
  for_each chunks (write path) w
  = (Ok tt,
     {| fs := <[path := content ++ concat chunks]> (fs w); ext := ext w;
        trace := trace w ++ map (EvWrite path) chunks |}).
Proof.
  induction chunks as [|chunk chunks IH]; intros w content Hc.
  - simpl. rewrite !app_nil_r, insert_id by done. by destruct w.
  - cbn [for_each]. unfold mbind at 1, M_bind at 1.
    unfold write at 1, mbind at 1, M_bind at 1, emit, set_fs.
    erewrite IH; [|simpl; rewrite lookup_alter_eq, Hc; reflexivity].
    simpl. f_equal. f_equal.
    + rewrite <- app_assoc. apply map_eq. intros p.
      destruct (decide (path = p)) as [->|Hne].
      * by rewrite !lookup_insert_eq.
      * by rewrite !lookup_insert_ne, lookup_alter_ne.
    + by rewrite <- app_assoc.
Qed.

(** [os.makedirs] with nothing in the way, and with something. *)
Lemma makedirs_run path w :
  path ≠ [] → in_the_way (fs w) path = None →
  os_makedirs path w = (Ok tt, after w (ext w) [EvMakedirs path]).
Proof.
  intros Hp Hw. unfold os_makedirs. destruct path; [done|].
  unfold mbind, M_bind, snapshot. by rewrite Hw.
Qed.

Lemma makedirs_refused path w e :
  path ≠ [] → in_the_way (fs w) path = Some e →
  os_makedirs path w = (Raise e, w).
Proof.
  intros Hp Hw. unfold os_makedirs. destruct path; [done|].
  unfold mbind, M_bind, snapshot. by rewrite Hw.
Qed.

(** What [stream_payload] leaves once the directory is there and the
    request has been answered with a status that is no error. *)
Lemma stream_payload_run config media_url temporary_path final_path w
    response s :
  os_path_dirname final_path ≠ [] →
  in_the_way (fs w) (os_path_dirname final_path) = None →
  requests_get lib media_url true (ext w) = (Ok response, s) →
  ((400 <=? status_code response) && (status_code response <? 600))%Z
  = false →
  stream_payload lib config media_url temporary_path final_path w
  = let opened :=
      [EvMakedirs (os_path_dirname final_path);
       EvRequestsGet media_url true; EvOpen temporary_path] in
    if negb (quiet config) && negb (bool_decide (is_Some (content_length response)))
    then (Raise (KeyError (u "content-length")),
          {| fs := <[temporary_path := []]> (fs w); ext := s;
             trace := trace w ++ opened |})
    else (if broken response then Raise ConnectionError else Ok tt,
          {| fs := <[temporary_path := concat (chunks response)]> (fs w);
             ext := s;
             trace := trace w ++ opened
                        ++ map (EvWrite temporary_path) (chunks response) |}).
Proof.
  intros Hdir Hclear Hget Hstatus. unfold stream_payload.
  rewrite (bind_ok _ _ _ _ _ (makedirs_run _ _ Hdir Hclear)).
  rewrite (bind_ok _ _ _ _ _
             (external_run (EvRequestsGet media_url true) _
                (after w (ext w) [EvMakedirs (os_path_dirname final_path)])
                _ _ Hget)).
  unfold raise_for_status. rewrite Hstatus.
  unfold mbind at 1, M_bind at 1, mret at 1, M_ret at 1.
  unfold mbind at 1, M_bind at 1.
  unfold open_wb, mbind at 1, M_bind at 1, emit, set_fs.
  cbn [fs ext trace after].
  set (w3 := {| fs := <[temporary_path:=[]]> (fs w); ext := s;
                trace := ((trace w ++ [EvMakedirs (os_path_dirname final_path)])
                          ++ [EvRequestsGet media_url true])
                          ++ [EvOpen temporary_path] |}).
  assert (Hchunks : for_each_chunk response (write temporary_path) w3
    = (if broken response then Raise ConnectionError else Ok tt,
       {| fs := <[temporary_path := concat (chunks response)]> (fs w);
          ext := s;
          trace := trace w
            ++ [EvMakedirs (os_path_dirname final_path);
                EvRequestsGet media_url true; EvOpen temporary_path]
            ++ map (EvWrite temporary_path) (chunks response) |})).
  { unfold for_each_chunk.
    erewrite bind_ok;
      [|apply (for_each_write_run _ _ w3 []); subst w3; simpl;
        apply lookup_insert_eq].
    subst w3. cbn [fs ext trace]. rewrite insert_insert_eq. simpl.
    rewrite <- !app_assoc. simpl. by destruct (broken response). }
  cbv zeta. destruct (quiet config); simpl.
  - exact Hchunks.
  - destruct (content_length response) as [total|]; simpl.
    + exact Hchunks.
    + subst w3. by rewrite <- !app_assoc.
Qed.

Lemma status_ok response :
  (status_code response < 400 ∨ 600 <= status_code response)%Z →
  ((400 <=? status_code response) && (status_code response <? 600))%Z
  = false.
Proof.
  intros H. apply andb_false_iff.
  destruct H; [left; apply Z.leb_gt|right; apply Z.ltb_ge]; lia.
Qed.

(** X7: once the directory of the final path is there (nothing in the
    way of [os.makedirs]), the temporary path is no directory and the
    request is answered with a status that is no error, the temporary file holds the chunks received, in order
    and nothing else, whatever was at that path before; this is so too
    when the transfer breaks, and the partial file is then left
    behind. *)
Theorem stream_payload_content config media_url temporary_path final_path
    w response s :
  os_path_dirname final_path ≠ [] →
  in_the_way (fs w) (os_path_dirname final_path) = None →
  ¬ is_directory (fs w) temporary_path →
  requests_get lib media_url true (ext w) = (Ok response, s) →
  (status_code response < 400 ∨ 600 <= status_code response)%Z →
  (quiet config = false → is_Some (content_length response)) →
  ∃ w',
    stream_payload lib config media_url temporary_path final_path w
    = (if broken response then Raise ConnectionError else Ok tt, w')
    ∧ fs w' = <[temporary_path := concat (chunks response)]> (fs w).
Proof.
  intros Hdir Hclear _ Hget Hstatus Hlength.
  rewrite (stream_payload_run _ _ _ _ _ _ _ Hdir Hclear Hget
             (status_ok _ Hstatus)).
  cbv zeta. destruct (quiet config); simpl.
  - by eexists.
  - rewrite bool_decide_eq_true_2 by auto. simpl. by eexists.
Qed.

(** X8: a response without [Content-Length] is streamed when [quiet] is
    set; when it is not, the read of the header raises [KeyError], under
    the lowercase name, once the temporary file has been created, and
    the file stays, empty. *)
Theorem stream_payload_without_length config media_url temporary_path
    final_path w response s :
  os_path_dirname final_path ≠ [] →
  in_the_way (fs w) (os_path_dirname final_path) = None →
  ¬ is_directory (fs w) temporary_path →
  requests_get lib media_url true (ext w) = (Ok response, s) →
  (status_code response < 400 ∨ 600 <= status_code response)%Z →
  content_length response = None →
  ∃ w',
    stream_payload lib config media_url temporary_path final_path w
    = (if quiet config
       then if broken response then Raise ConnectionError else Ok tt
       else Raise (KeyError (u "content-length")), w')
    ∧ fs w' = <[temporary_path :=
                  if quiet config then concat (chunks response) else []]>
                (fs w).
Proof.
  intros Hdir Hclear _ Hget Hstatus Hlength.
  rewrite (stream_payload_run _ _ _ _ _ _ _ Hdir Hclear Hget
             (status_ok _ Hstatus)).
  cbv zeta. rewrite Hlength. destruct (quiet config); simpl; by eexists.
Qed.

(** X9: the files that a run of [download_track] changes are the
    temporary and the final path of the track, and no other. *)
Theorem download_track_frame client config track siblings include_artist
    include_album indent w r w' p :
  download_track K lib client config track siblings include_artist
    include_album indent w = (r, w') →
  fs w' !! p ≠ fs w !! p →
  ∃ track_path w1,
    get_track_path client config track siblings include_artist
      include_album w = (Ok track_path, w1)
    ∧ (p = temporary_path_of K track_path track
       ∨ p = final_path_of track_path track).
Proof.
  intros H Hp. unfold download_track in H.
  apply bind_inv in H as [(e & H1 & ->)|(track_path & w1 & H1 & H)].
  { exfalso. apply Hp.
    eapply (sound_get_track_path (fun _ => True) (fun _ => False)) in H1
      as [_ S]; [|done]. apply S. intros []. }
  exists track_path, w1. split; [done|].
  destruct (decide (p = temporary_path_of K track_path track)) as [|Ht];
    [by left|].
  destruct (decide (p = final_path_of track_path track)) as [|Hf];
    [by right|].
  exfalso. apply Hp.
  eapply (sound_get_track_path (fun _ => True) (fun _ => False)) in H1
    as [_ S1]; [|done].
  rewrite <- (S1 p) by (intros []).
  cbv zeta in H.
  assert (Hs : sound (fun _ => True)
    (fun q => q = temporary_path_of K track_path track
              ∨ q = final_path_of track_path track)
    (exists_ ← os_path_isfile (final_path_of track_path track);
     if (exists_ : bool) then
       log K config
         (u "Skipping download of "
            ++ os_path_basename (final_path_of track_path track)
            ++ u "; it already exists.") indent
     else
       media ← request_media K client config track
                 (final_path_of track_path track) indent;
       match media with
       | None => mret tt
       | Some (media_url, decryptor) =>
           finish K lib config track media_url decryptor
             (temporary_path_of K track_path track)
             (final_path_of track_path track) indent
       end)).
  { repeat first [ apply sound_isfile; solve [auto]
                 | apply sound_log; solve [auto]
                 | apply sound_request_media; solve [auto]
                 | apply sound_finish; solve [auto]
                 | sound_step ]. }
  apply Hs in H as [_ S]. apply S. by intros [?|?].
Qed.

(** X10: with an empty output directory and no directory segment the
    final path has no directory part; [os.makedirs] refuses the empty
    name, and the download ends there with [FileNotFoundError], the media
    locator requested and nothing transferred. *)
Theorem download_track_flat_directory client config track siblings indent
    w media s :
  output_directory config = [] →
  full_structure config = false →
  SLASH ∉ Track.extension track →
  fs w !! (sanitize config (Track.name track) ++ [DOT]
             ++ Track.extension track) = None →
  get_media client track (ext w) = (Ok media, s) →
  download_track K lib client config track siblings false false indent w
  = (Raise FileNotFoundError,
     after w s
       [EvIsFile (sanitize config (Track.name track) ++ [DOT]
                    ++ Track.extension track);
        EvGetMedia track]).
Proof.
  intros Hout Hfull Hext Hfinal Hmedia.
  assert (Hpath : get_track_path client config track siblings false false w
                  = (Ok (sanitize config (Track.name track)), w)).
  { unfold get_track_path. rewrite Hfull, Hout. simpl.
    unfold mbind, M_bind, mret, M_ret.
    by rewrite (os_path_join_flat _ (sanitize_not_slash _ _)). }
  rewrite (download_track_after_check _ _ _ _ _ _ _ _ _ _ _ _ Hpath Hfinal).
  rewrite (request_media_ok K client config track _ indent
             (after w (ext w) _) media s Hmedia).
  destruct media as [media_url decryptor]. unfold finish, stream_payload.
  rewrite os_path_dirname_flat.
  - rewrite after_after. done.
  - unfold final_path_of. intros Hin.
    apply elem_of_app in Hin as [Hin|Hin];
      [by apply sanitize_not_slash in Hin|].
    apply elem_of_app in Hin as [Hin|Hin]; [|done].
    apply list_elem_of_singleton in Hin. discriminate Hin.
Qed.

Lemma decrypt_payload_run config decryptor temporary_path indent w content
    decrypted :
  fs w !! temporary_path = Some content →
  match decryptor with
  | Some decrypt => decrypt content = (Ok tt, decrypted)
  | None => decrypted = content
  end →
  ∃ w',
    decrypt_payload K config decryptor temporary_path indent w = (Ok tt, w')
    ∧ fs w' = <[temporary_path := decrypted]> (fs w) ∧ ext w' = ext w.
Proof.
  intros Hc Hd. unfold decrypt_payload. destruct decryptor as [decrypt|].
  - rewrite (bind_ok _ _ _ _ _ (log_run K _ _ _ _)).
    unfold mbind at 1, M_bind at 1, emit, in_place, read_file.
    unfold mbind at 1, M_bind at 1. cbn [fs ext trace after].
    rewrite Hc, Hd. by eexists.
  - subst. exists w. by rewrite insert_id.
Qed.

Lemma resolve_flac_run config track path indent w content tagged :
  fs w !! path = Some content →
  Album.cover_url (Track.album track) = None →
  Track.extension track = u "flac" →
  resolve_flac_metadata lib config track None content = (Ok tt, tagged) →
  ∃ w',
    resolve_metadata K lib config track path indent w = (Ok tt, w')
    ∧ fs w' = <[path := tagged]> (fs w) ∧ ext w' = ext w.
Proof.
  intros Hc Hcover Hext Htag. unfold resolve_metadata.
  rewrite (bind_ok _ _ _ _ _ (log_run K _ _ _ _)).
  rewrite Hcover, Hext.
  unfold mbind at 1, M_bind at 1, mret at 1, M_ret at 1.
  rewrite bool_decide_eq_false_2 by (by vm_compute).
  rewrite bool_decide_eq_true_2 by done.
  unfold mbind at 1, M_bind at 1, mret at 1, M_ret at 1.
  unfold mbind at 1, M_bind at 1, emit, in_place, read_file.
  unfold mbind at 1, M_bind at 1. cbn [fs ext trace after].
  rewrite Hc, Htag. by eexists.
Qed.

(** X11: a download in which nothing is in the way of the directory of
    the final path, neither the temporary nor the final path is a
    directory, and every call is answered.  The final file
    holds the chunks of the payload in order, as the decryption
    capability, if there is one, and then the tag writer, unless metadata
    is skipped, have rewritten them; the temporary file is gone. *)
Theorem download_track_content client config track siblings include_artist
    include_album indent w track_path w1 media_url decryptor s1 response
    s2 decrypted tagged :
  get_track_path client config track siblings include_artist
    include_album w = (Ok track_path, w1) →
  fs w !! final_path_of track_path track = None →
  get_media client track (ext w1) = (Ok (media_url, decryptor), s1) →
  os_path_dirname (final_path_of track_path track) ≠ [] →
  in_the_way (fs w) (os_path_dirname (final_path_of track_path track))
  = None →
  ¬ is_directory (fs w) (temporary_path_of K track_path track) →
  ¬ is_directory (fs w) (final_path_of track_path track) →
  requests_get lib media_url true s1 = (Ok response, s2) →
  (status_code response < 400 ∨ 600 <= status_code response)%Z →
  broken response = false →
  (quiet config = false → is_Some (content_length response)) →
  match decryptor with
  | Some decrypt => decrypt (concat (chunks response)) = (Ok tt, decrypted)
  | None => decrypted = concat (chunks response)
  end →
  (if skip_metadata config then tagged = decrypted
   else Album.cover_url (Track.album track) = None
        ∧ Track.extension track = u "flac"
        ∧ resolve_flac_metadata lib config track None decrypted
          = (Ok tt, tagged)) →
  ∃ w',
    download_track K lib client config track siblings include_artist
      include_album indent w = (Ok tt, w')
    ∧ fs w' = <[final_path_of track_path track := tagged]>
                (delete (temporary_path_of K track_path track) (fs w))
    ∧ ext w' = s2.
Proof.
  intros Hpath Hfinal Hmedia Hdir Hclear _ _ Hget Hstatus Hbroken Hlength
    Hdec Hmeta.
  destruct (get_track_path_ok _ _ _ _ _ _ _ _ _ Hpath) as (Hfs1 & _ & _).
  set (tmp := temporary_path_of K track_path track) in *.
  set (final := final_path_of track_path track) in *.
  rewrite (download_track_after_check _ _ _ _ _ _ _ _ _ _ _ _ Hpath Hfinal).
  fold tmp final.
  rewrite (request_media_ok K client config track _ indent
             (after w1 (ext w1) _) _ s1 Hmedia).
  unfold finish.
  assert (Hlen : negb (quiet config)
                 && negb (bool_decide (is_Some (content_length response)))
                 = false).
  { destruct (quiet config); [done|]. simpl.
    by rewrite bool_decide_eq_true_2 by auto. }
  assert (Hclear1 : in_the_way
                      (fs (after (after w1 (ext w1) [EvIsFile final]) s1
                             [EvGetMedia track]))
                      (os_path_dirname final) = None)
    by (simpl; by rewrite Hfs1).
  pose proof (stream_payload_run config media_url tmp final
                (after (after w1 (ext w1) [EvIsFile final]) s1
                   [EvGetMedia track]) response s2 Hdir Hclear1 Hget
                (status_ok _ Hstatus)) as Hs.
  cbv zeta in Hs. rewrite Hlen, Hbroken in Hs.
  rewrite (bind_ok _ _ _ _ _ Hs). clear Hs. cbn [fs ext trace after].
  match goal with |- context [(_ ≫= _) ?x] => set (wb := x) end.
  destruct (decrypt_payload_run config decryptor tmp indent wb
              (concat (chunks response)) decrypted)
    as (wc & Hd & Hfsc & Hextc); [by apply lookup_insert_eq|done|].
  rewrite (bind_ok _ _ _ _ _ Hd).
  simpl in Hfsc, Hextc. rewrite insert_insert_eq, Hfs1 in Hfsc.
  assert (Hembed : ∃ wd,
    embed_metadata K lib config track tmp final indent wc = (Ok true, wd)
    ∧ fs wd = <[tmp := tagged]> (fs w) ∧ ext wd = s2).
  { unfold embed_metadata. destruct (skip_metadata config); simpl.
    - subst tagged. by exists wc.
    - destruct Hmeta as (Hcover & Hext & Htag).
      destruct (resolve_flac_run config track tmp indent wc decrypted tagged)
        as (wd & Hr & Hfsd & Hextd);
        [by rewrite Hfsc, lookup_insert_eq|done..|].
      exists wd. unfold try_except_InvalidFileError.
      rewrite (bind_ok _ _ _ _ _ Hr).
      rewrite Hfsd, Hfsc, insert_insert_eq. split; [done|].
      split; [done|congruence]. }
  destruct Hembed as (wd & He & Hfsd & Hextd).
  rewrite (bind_ok _ _ _ _ _ He).
  erewrite os_rename_run; [|by rewrite Hfsd, lookup_insert_eq].
  eexists. split; [reflexivity|]. simpl.
  by rewrite Hfsd, delete_insert_eq.
Qed.

End MoreDownload.

(** * Whole runs: console output, albums and discographies *)

Section Whole.

Context {St : Type} `{unicode : !Unicode}.
Local Abbreviation M := (@M St).
Local Abbreviation world := (world St).
Local Abbreviation sound := (@sound St _).
Local Abbreviation extends := (@extends St).
Implicit Types (client : Client St) (w : world) (d : list event).
Context (K : Constants) (lib : Modules St).

(** [log] prints only when [quiet] is off. *)
Lemma sound_log_when (P : event → Prop) Q config message indent :
  (quiet config = false → ∀ line, P (EvPrint line)) →
  sound P Q (log K config message indent).
Proof.
  intros H. unfold log. destruct (quiet config); simpl.
  - apply sound_ret.
  - apply sound_emit. by apply H.
Qed.

Ltac sound_whole :=
  repeat first
    [ progress cbv zeta
    | apply sound_log_when; solve [auto]
    | apply sound_isfile; solve [auto]
    | apply sound_makedirs; solve [auto]
    | apply sound_raise_for_status
    | apply sound_open; solve [auto]
    | apply sound_for_each_chunk; intros ?
    | apply sound_write; solve [auto]
    | apply sound_in_place; solve [auto]
    | apply sound_remove; solve [auto]
    | apply sound_rename; solve [auto]
    | sound_step ].

(** Every effect of [download_track] but its console output and the
    listing of an artist's albums, which it never asks for. *)
Lemma sound_download_track_whole (P : event → Prop) (Q : str → Prop) client
    config track siblings include_artist include_album indent :
  (quiet config = false → ∀ line, P (EvPrint line)) →
  (∀ ev, is_print ev = false → is_artist_listing ev = false → P ev) →
  (∀ p, Q p) →
  sound P Q (download_track K lib client config track siblings
               include_artist include_album indent).
Proof.
  intros Hlog HP HQ.
  unfold download_track, get_track_path, request_media, stream_payload,
    decrypt_payload, embed_metadata, resolve_metadata.
  sound_whole.
Qed.

Lemma sound_download_album_whole (P : event → Prop) (Q : str → Prop) client
    config album include_artist indent :
  (quiet config = false → ∀ line, P (EvPrint line)) →
  (∀ ev, is_print ev = false → is_artist_listing ev = false → P ev) →
  (∀ p, Q p) →
  sound P Q (download_album K lib client config album include_artist
               indent).
Proof.
  intros Hlog HP HQ. unfold download_album.
  repeat first
    [ apply sound_log_when; solve [auto]
    | apply sound_download_track_whole; solve [auto]
    | match goal with |- sound _ _ (let '(_, _) := ?x in _) =>
        destruct x end
    | sound_step ].
Qed.

Lemma sound_download_discography_whole (P : event → Prop) (Q : str → Prop)
    client config artist indent :
  (quiet config = false → ∀ line, P (EvPrint line)) →
  (∀ ev, is_print ev = false → P ev) →
  (∀ p, Q p) →
  sound P Q (download_discography K lib client config artist indent).
Proof.
  intros Hlog HP HQ. unfold download_discography.
  repeat first
    [ apply sound_log_when; solve [auto]
    | apply sound_download_album_whole; solve [auto]
    | match goal with |- sound _ _ (let '(_, _) := ?x in _) =>
        destruct x end
    | sound_step ].
Qed.

(** X12: with [quiet] set nothing is printed, whatever a download of a
    track, of an album or of a discography runs into. *)
Theorem quiet_is_silent client config :
  quiet config = true →
  (∀ track siblings include_artist include_album indent,
     silent (download_track K lib client config track siblings
               include_artist include_album indent))
  ∧ (∀ album include_artist indent,
       silent (download_album K lib client config album include_artist
                 indent))
  ∧ (∀ artist indent,
       silent (download_discography K lib client config artist indent)).
Proof.
  intros Hquiet.
  assert (Hlog : quiet config = false
                 → ∀ line, is_print (EvPrint line) = false)
    by (rewrite Hquiet; discriminate).
  repeat split; intros; intros w r w' H.
  - by apply (sound_download_track_whole
                (fun ev => is_print ev = false) (fun _ => True)) in H
      as [? _].
  - by apply (sound_download_album_whole
                (fun ev => is_print ev = false) (fun _ => True)) in H
      as [? _].
  - by apply (sound_download_discography_whole
                (fun ev => is_print ev = false) (fun _ => True)) in H
      as [? _].
Qed.

(** X13: an extension other than [mp4] and [flac] has no tag writer.
    [resolve_metadata] prints its line and asks for the cover, if the
    album has one, before it looks the writer up: a cover request that
    fails ends the call with its own exception, and otherwise the lookup
    raises [KeyError] with the extension as key.  No embedder is called
    and no file is touched. *)
Theorem resolve_metadata_unknown_extension config track path indent w :
  Track.extension track ≠ u "mp4" →
  Track.extension track ≠ u "flac" →
  resolve_metadata K lib config track path indent w
  = match Album.cover_url (Track.album track) with
    | Some (c :: url) =>
        let (answer, s) := requests_get lib (c :: url) false (ext w) in
        (match answer with
         | Raise e => Raise e
         | Ok response =>
             if ((400 <=? status_code response)
                 && (status_code response <? 600))%Z
             then Raise (HTTPError response)
             else Raise (KeyError (Track.extension track))
         end,
         after w s
           (log_events K config (u "Resolving metadata...") indent
              ++ [EvRequestsGet (c :: url) false]))
    | _ =>
        (Raise (KeyError (Track.extension track)),
         after w (ext w)
           (log_events K config (u "Resolving metadata...") indent))
    end.
Proof.
  intros Hmp4 Hflac. unfold resolve_metadata.
  rewrite (bind_ok _ _ _ _ _ (log_run K _ _ _ _)).
  rewrite !bool_decide_eq_false_2 by done.
  destruct (Album.cover_url (Track.album track)) as [[|c url]|]; try done.
  unfold mbind at 1, M_bind at 1. unfold mbind at 1, M_bind at 1.
  unfold external. cbn [fs ext trace after].
  destruct (requests_get lib (c :: url) false (ext w)) as [[response|e] s];
    unfold after; cbn [fs ext trace]; rewrite <- ?app_assoc; [|done].
  unfold raise_for_status.
  by destruct ((400 <=? status_code response)
               && (status_code response <? 600))%Z.
Qed.

(** *** Loops that end early *)

(** A loop that raises does so in the body of one element, all the
    elements before it done and none after it begun. *)
Lemma for_each_raise {A} (body : A → M unit) l : ∀ w e w',
  for_each l body w = (Raise e, w') →
  ∃ n x w0,
    l !! n = Some x
    ∧ for_each (take n l) body w = (Ok tt, w0)
    ∧ body x w0 = (Raise e, w').
Proof.
  induction l as [|x l IH]; intros w e w' H; [discriminate H|].
  cbn [for_each] in H.
  apply bind_inv in H as [(e' & H & He)|([] & w1 & H & H')].
  - injection He as ->. by exists 0%nat, x, w.
  - apply IH in H' as (n & y & w0 & Hn & Hpre & Hy).
    exists (S n), y, w0. split; [done|]. split; [|done].
    cbn [take for_each]. by rewrite (bind_ok _ _ _ _ _ H).
Qed.

Lemma enumerate_take {A} (l : list A) : ∀ n start,
  take n (enumerate l start) = enumerate (take n l) start.
Proof.
  induction l as [|x l IH]; intros [|n] start; try done.
  cbn [enumerate take]. by rewrite IH.
Qed.

Lemma enumerate_lookup {A} (l : list A) : ∀ n start p,
  enumerate l start !! n = Some p →
  ∃ x, l !! n = Some x ∧ p = ((start + n)%nat, x).
Proof.
  induction l as [|x l IH]; intros [|n] start p H; try done.
  - injection H as <-. exists x. by rewrite Nat.add_0_r.
  - cbn [enumerate] in H. simpl in H.
    apply IH in H as (y & Hy & ->). exists y. split; [done|].
    f_equal. lia.
Qed.

(** X14: when [download_album] raises, either the listing of the album
    failed, or the download of one track raised that exception: every
    track before it was checked, in the order of the listing, and the run
    ends in the state in which that track left it, with no later track
    begun. *)
Theorem download_album_failure client config album include_artist indent
    w e w' :
  download_album K lib client config album include_artist indent w
  = (Raise e, w') →
  (∃ s, get_album_tracks client album (ext w) = (Raise e, s)
        ∧ w' = after w s [EvGetAlbumTracks album])
  ∨ (∃ tracks s n track w0 d0,
       get_album_tracks client album (ext w) = (Ok tracks, s)
       ∧ tracks !! n = Some track
       ∧ trace w0 = trace w ++ d0
       ∧ Forall2
           (fun track ev =>
              ∃ track_path w1,
                get_track_path client config track (Some tracks)
                  include_artist true w1 = (Ok track_path, w1)
                ∧ ev = EvIsFile (final_path_of track_path track))
           (take n tracks) (List.filter is_isfile d0)
       ∧ download_track K lib client config track (Some tracks)
           include_artist true (S indent) w0 = (Raise e, w')).
Proof.
  intros H. unfold download_album in H.
  destruct (get_album_tracks client album (ext w)) as [listing s] eqn:E.
  apply bind_inv in H as [(e' & H1 & He)|(tracks & w1 & H1 & H)];
    rewrite (external_run _ _ _ _ _ E) in H1.
  { injection He as ->. injection H1 as -> <-. left. by exists s. }
  injection H1 as -> <-. right.
  destruct tracks as [|s0 l]; [discriminate H|].
  apply for_each_raise in H as (n & [index track] & w0 & Hn & Hpre & Hbody).
  rewrite enumerate_take in Hpre.
  apply enumerate_lookup in Hn as (x & Hx & Hp). injection Hp as -> <-.
  apply download_album_loop in Hpre as (d & T & _ & C).
  rewrite (bind_ok _ _ _ _ _ (log_run K _ _ _ _)) in Hbody.
  eexists (s0 :: l), s, n, track, _, _.
  split; [done|]. split; [exact Hx|]. split; [|split; [|exact Hbody]].
  - cbn [trace after]. rewrite T. cbn [trace after].
    rewrite <- !app_assoc. reflexivity.
  - rewrite !List.filter_app, filter_log_events by done.
    rewrite app_nil_r. simpl. by apply C.
Qed.

(** *** download_discography *)

(** The one album listing of a run of [download_album] is that of its
    album. *)
Lemma download_album_listing client config album include_artist indent
    w r w' :
  download_album K lib client config album include_artist indent w
  = (r, w') →
  ∃ d, trace w' = trace w ++ d
    ∧ List.filter is_listing d = [EvGetAlbumTracks album]
    ∧ count is_artist_listing d = 0%nat.
Proof.
  intros H.
  assert (Ha : ∃ d, trace w' = trace w ++ d
                    ∧ Forall (fun ev => is_artist_listing ev = false) d).
  { by apply (sound_download_album_whole
                (fun ev => is_artist_listing ev = false) (fun _ => True))
      in H as [? _]. }
  destruct Ha as (d & T & Ha). exists d. split; [done|].
  split; [|by apply count_none].
  unfold download_album in H.
  destruct (get_album_tracks client album (ext w)) as [listing s] eqn:E.
  apply bind_inv in H as [(e' & H1 & He)|(tracks & w1 & H1 & H)];
    rewrite (external_run _ _ _ _ _ E) in H1.
  { injection H1 as _ <-. simpl in T. by apply app_inv_head in T as <-. }
  injection H1 as -> <-.
  destruct tracks as [|s0 l].
  { injection H as _ <-. simpl in T. by apply app_inv_head in T as <-. }
  apply download_album_loop in H as (d' & T' & L & _).
  rewrite T' in T. simpl in T. rewrite <- app_assoc in T.
  apply app_inv_head in T as <-. simpl.
  apply length_zero_iff_nil in L. by rewrite L.
Qed.

(** The loop of [download_discography] over a part [rest] of the
    listing. *)
Lemma download_discography_loop client config total indent rest :
  ∀ index w r w',
  for_each (enumerate rest index) (fun '(index, album) =>
    log K config
      (u "Downloading " ++ [QUOTE] ++ Album.name album ++ [QUOTE]
         ++ u " (" ++ str_of_N (N.of_nat index) ++ u " of "
         ++ str_of_N (N.of_nat total) ++ u " album(s))...")
      indent;;
    download_album K lib client config album true (S indent)) w = (r, w') →
  ∃ d n, trace w' = trace w ++ d
    ∧ count is_artist_listing d = 0%nat
    ∧ List.filter is_listing d = map EvGetAlbumTracks (take n rest)
    ∧ (r = Ok tt → n = length rest).
Proof.
  induction rest as [|album rest IH]; intros index w r w' H.
  { injection H as <- <-. exists [], 0%nat. by rewrite app_nil_r. }
  cbn [enumerate for_each] in H.
  apply bind_inv in H as [(e & H1 & ->)|([] & w1 & H1 & H)];
    rewrite (bind_ok _ _ _ _ _ (log_run K _ _ _ _)) in H1;
    apply download_album_listing in H1 as (d1 & T1 & L1 & A1);
    simpl in T1; rewrite <- app_assoc in T1.
  { eexists _, 1%nat. split; [exact T1|].
    split; [by rewrite count_app, count_log_events, A1|].
    split; [|done].
    by rewrite List.filter_app, filter_log_events, L1. }
  apply IH in H as (d2 & n & T2 & A2 & L2 & C2).
  eexists _, (S n). split; [by rewrite T2, T1, <- !app_assoc|].
  split; [by rewrite !count_app, count_log_events, A1, A2|].
  split; [|by intros ->; rewrite C2].
  by rewrite !List.filter_app, filter_log_events, L1, L2.
Qed.

(** X15: [download_discography] asks for the artist's albums once and
    then takes them in the order of that listing, each with the artist
    directory forced and one level deeper in the log, its position
    counted from one in the progress line.  The albums listed are the
    first ones of the artist's listing, in its order, each once: all of
    them when the run returns, and up to the one that raised
    otherwise. *)
Theorem download_discography_in_order client config artist indent w r w' :
  download_discography K lib client config artist indent w = (r, w') →
  ∃ d, trace w' = trace w ++ d
    ∧ count is_artist_listing d = 1%nat
    ∧ ∃ listing s,
        get_artist_albums client artist (ext w) = (listing, s)
        ∧ match listing with
          | Raise e => r = Raise e ∧ w' = after w s [EvGetArtistAlbums artist]
          | Ok albums =>
              (r, w')
              = for_each
                  (imap
                     (fun i album =>
                        log K config
                          (album_progress_message album (S i)
                             (length albums)) indent;;
                        download_album K lib client config album true
                          (S indent))
                     albums)
                  (fun m => m) (after w s [EvGetArtistAlbums artist])
              ∧ ∃ n, List.filter is_listing d
                     = map EvGetAlbumTracks (take n albums)
                     ∧ (r = Ok tt → n = length albums)
          end.
Proof.
  intros H. unfold download_discography in H.
  destruct (get_artist_albums client artist (ext w)) as [listing s] eqn:E.
  apply bind_inv in H as [(e & H1 & ->)|(albums & w1 & H1 & H)];
    rewrite (external_run _ _ _ _ _ E) in H1; injection H1 as -> <-.
  { exists [EvGetArtistAlbums artist]. split; [done|]. split; [done|].
    by exists (Raise e), s. }
  assert (Heq : (r, w')
    = for_each
        (imap
           (fun i album =>
              log K config
                (album_progress_message album (S i) (length albums))
                indent;;
              download_album K lib client config album true (S indent))
           albums)
        (fun m => m) (after w s [EvGetArtistAlbums artist])).
  { rewrite <- H. by rewrite for_each_enumerate. }
  apply download_discography_loop in H as (d & n & T & A & L & C).
  exists (EvGetArtistAlbums artist :: d). simpl in T.
  rewrite <- app_assoc in T. split; [exact T|].
  split; [by rewrite count_cons, A|].
  exists (Ok albums), s. split; [done|]. split; [exact Heq|].
  exists n. by split.
Qed.

End Whole.

(** * load_config *)

Arguments get : simpl never.
Arguments resolve : simpl never.

Lemma resolve_args a f d : a ≠ VNone → resolve a f d = a.
Proof. by destruct a. Qed.

Lemma resolve_file f d : f ≠ VNone → resolve VNone f d = f.
Proof. by destruct f. Qed.

Lemma config_path_not_output_directory :
  u "config-path" ≠ u "output-directory".
Proof. by vm_compute. Qed.

(** What [config_of] returns, entry by entry. *)
Lemma config_of_ok C platform args config_path table config :
  config_of C platform args config_path table = Ok config →
  config !! u "config-path" = Some config_path
  ∧ (∃ s, resolve (get args (u "output-directory"))
            (get table (u "output-directory")) <$>
            DEFAULT_CONFIG_TOML C !! u "output-directory" = Some (VStr s)
          ∧ config !! u "output-directory"
            = Some (VStr (expanduser platform s)))
  ∧ (∀ key, key ≠ u "config-path" → key ≠ u "output-directory" →
       config !! key
       = resolve (get args key) (get table key) <$>
           DEFAULT_CONFIG_TOML C !! key).
Proof.
  unfold config_of. cbv zeta. rewrite map_lookup_imap.
  destruct (DEFAULT_CONFIG_TOML C !! u "output-directory") as [d|] eqn:Hd;
    [|discriminate]. simpl.
  destruct (resolve _ _ d) as [| | |s] eqn:Hr; try discriminate.
  intros H. injection H as <-. split; [by rewrite lookup_insert_eq|].
  split.
  - exists s. split; [done|].
    rewrite lookup_insert_ne by apply config_path_not_output_directory.
    by rewrite lookup_insert_eq.
  - intros key H1 H2. rewrite !lookup_insert_ne by done.
    rewrite map_lookup_imap. by destruct (DEFAULT_CONFIG_TOML C !! key).
Qed.

Section Loading.

Context {St : Type}.
Local Abbreviation M := (@M St).
Local Abbreviation world := (world St).
Implicit Types (w : world) (args config table : gmap str value).
Context (C : ConfigConstants) (platform : Platform).

(** The run of [default_config_path]. *)
Lemma default_config_path_run w :
  default_config_path C w
  = match fs w !! CONFIG_PATH C with
    | Some _ =>
        (Ok (VStr (CONFIG_PATH C)),
         after w (ext w) [EvIsFile (CONFIG_PATH C)])
    | None =>
        match os_path_dirname (CONFIG_PATH C) with
        | [] =>
            (Raise FileNotFoundError,
             after w (ext w) [EvIsFile (CONFIG_PATH C)])
        | _ =>
            match in_the_way (fs w) (os_path_dirname (CONFIG_PATH C)) with
            | Some e =>
                (Raise e, after w (ext w) [EvIsFile (CONFIG_PATH C)])
            | None =>
                (Ok (VStr (CONFIG_PATH C)),
                 {| fs := <[CONFIG_PATH C := DEFAULT_CONFIG C]> (fs w);
                    ext := ext w;
                    trace := trace w
                      ++ [EvIsFile (CONFIG_PATH C);
                          EvMakedirs (os_path_dirname (CONFIG_PATH C));
                          EvOpen (CONFIG_PATH C);
                          EvWrite (CONFIG_PATH C) (DEFAULT_CONFIG C)] |})
            end
        end
    end.
Proof.
  unfold default_config_path.
  rewrite (bind_ok _ _ _ _ _ (isfile_run _ _)).
  destruct (fs w !! CONFIG_PATH C) as [c|] eqn:E.
  - by rewrite bool_decide_eq_true_2 by eauto.
  - rewrite bool_decide_eq_false_2 by (by intros [? ?]).
    destruct (os_path_dirname (CONFIG_PATH C)) as [|c dir] eqn:Ed; [done|].
    destruct (in_the_way (fs w) (c :: dir)) as [e|] eqn:Ew.
    + rewrite (bind_raise _ _ _ e
                 (after w (ext w) [EvIsFile (CONFIG_PATH C)])); [done|].
      rewrite (bind_raise _ _ _ e
                 (after w (ext w) [EvIsFile (CONFIG_PATH C)])); [done|].
      by apply makedirs_refused.
    + rewrite (bind_ok _ _ _ _ _
                 (bind_ok _ _ _ _ _
                    (makedirs_run (c :: dir)
                       (after w (ext w) [EvIsFile (CONFIG_PATH C)])
                       ltac:(done) Ew))).
      unfold mbind, M_bind, mret, M_ret, emit, open_wb, write, set_fs,
        after.
      simpl. do 2 f_equal.
      * by rewrite alter_insert_eq.
      * by rewrite <- !app_assoc.
Qed.

(** [toml_load] reads and leaves everything as it is. *)
Lemma toml_load_run path w :
  toml_load platform path w
  = (match path with
     | VStr p =>
         match fs w !! p with
         | Some c => toml_loads platform c
         | None => Raise FileNotFoundError
         end
     | _ => Raise (OtherException (u "TypeError"))
     end, w).
Proof.
  unfold toml_load. destruct path as [| | |p]; try done.
  unfold mbind, M_bind, read_file. by destruct (fs w !! p).
Qed.

(** A run that returns: the path settled on, the file read and its
    table. *)
Lemma load_config_ok args w config w' :
  load_config C platform args w = (Ok config, w') →
  ∃ given path content table,
    args !! u "config-path" = Some given
    ∧ (if truthy given then given else VStr (CONFIG_PATH C)) = VStr path
    ∧ fs w' !! path = Some content
    ∧ toml_loads platform content = Ok table
    ∧ config_of C platform args (VStr path) table = Ok config.
Proof.
  intros H. unfold load_config in H.
  destruct (args !! u "config-path") as [given|]; [|discriminate H].
  unfold mbind at 1, M_bind at 1, mret at 1, M_ret at 1 in H.
  assert (Htail : ∀ config_path w1,
    (toml_load platform config_path ≫= λ config_toml,
       of_result (config_of C platform args config_path config_toml)) w1
    = (Ok config, w') →
    w1 = w' ∧ ∃ path content table,
      config_path = VStr path ∧ fs w' !! path = Some content
      ∧ toml_loads platform content = Ok table
      ∧ config_of C platform args (VStr path) table = Ok config).
  { intros config_path w1 Ht.
    apply bind_inv in Ht as [(e & _ & He)|(table & w2 & Ht & Hc)];
      [discriminate He|].
    rewrite toml_load_run in Ht. injection Ht as Ht <-.
    unfold of_result in Hc. injection Hc as Hc <-. split; [done|].
    destruct config_path as [| | |path]; try discriminate Ht.
    destruct (fs w1 !! path) as [content|] eqn:Hf; [|discriminate Ht].
    by exists path, content, table. }
  exists given. destruct (truthy given) eqn:Hg.
  - unfold mbind at 1, M_bind at 1, mret at 1, M_ret at 1 in H.
    apply Htail in H as (_ & path & content & table & -> & ? & ? & ?).
    by exists path, content, table.
  - apply bind_inv in H as [(e & _ & He)|(config_path & w1 & Hp & H)];
      [discriminate He|].
    apply Htail in H as (-> & path & content & table & -> & ? & ? & ?).
    exists path, content, table.
    rewrite default_config_path_run in Hp.
    destruct (fs w !! CONFIG_PATH C);
      [|destruct (os_path_dirname (CONFIG_PATH C)) as [|c dir];
        [discriminate Hp|];
        destruct (in_the_way (fs w) (c :: dir)); [discriminate Hp|]];
      injection Hp as <- _; done.
Qed.

(** X16: the precedence of [load_config].  For a key of the defaults
    other than the two set by name, a command-line value other than
    [None] wins, be it [False] or the empty string; failing that, the
    value of the configuration file that was read; failing that, the
    default. *)
Theorem load_config_precedence args w config w' key default :
  load_config C platform args w = (Ok config, w') →
  DEFAULT_CONFIG_TOML C !! key = Some default →
  key ≠ u "config-path" → key ≠ u "output-directory" →
  ∃ path content table,
    config !! u "config-path" = Some (VStr path)
    ∧ fs w' !! path = Some content
    ∧ toml_loads platform content = Ok table
    ∧ (∀ a, args !! key = Some a → a ≠ VNone → config !! key = Some a)
    ∧ (∀ f, get args key = VNone → table !! key = Some f → f ≠ VNone →
         config !! key = Some f)
    ∧ (get args key = VNone → get table key = VNone →
         config !! key = Some default).
Proof.
  intros H Hd H1 H2.
  apply load_config_ok in H
    as (given & path & content & table & _ & _ & Hf & Ht & Hc).
  apply config_of_ok in Hc as (Hp & _ & Hk).
  exists path, content, table. rewrite (Hk key H1 H2), Hd. simpl.
  split; [done|]. split; [done|]. split; [done|]. split; [|split].
  - intros a Ha Hn. unfold get at 1. rewrite Ha. simpl.
    by rewrite resolve_args.
  - intros f -> Hf' Hn. unfold get. rewrite Hf'. simpl.
    by rewrite resolve_file.
  - by intros -> ->.
Qed.

(** X17: the keys of the table returned are those of the defaults and
    [config-path]: what the arguments or the file hold under another key
    is dropped.  The output directory is a string, expanded. *)
Theorem load_config_keys args w config w' :
  load_config C platform args w = (Ok config, w') →
  (∀ key, is_Some (config !! key)
          ↔ key = u "config-path" ∨ is_Some (DEFAULT_CONFIG_TOML C !! key))
  ∧ ∃ s, config !! u "output-directory"
         = Some (VStr (expanduser platform s)).
Proof.
  intros H.
  apply load_config_ok in H
    as (given & path & content & table & _ & _ & _ & _ & Hc).
  apply config_of_ok in Hc as (Hp & (s & Hs & Ho) & Hk).
  split; [|by exists s]. intros key.
  destruct (decide (key = u "config-path")) as [->|H1].
  { rewrite Hp. split; [by left|by eauto]. }
  destruct (decide (key = u "output-directory")) as [->|H2].
  { rewrite Ho. split; [|by eauto]. intros _. right.
    by destruct (DEFAULT_CONFIG_TOML C !! u "output-directory"). }
  rewrite (Hk key H1 H2), fmap_is_Some. split; [by right|].
  by intros [?|?].
Qed.

(** X18: with no configuration path given, no file and no directory at
    the default path and nothing in the way of its directory, the default text is written
    there, under a directory made for it, and this text is what is read
    back: the outcome is that of its table, or the exception of the TOML
    reader. *)
Theorem load_config_writes_default args w given :
  args !! u "config-path" = Some given → truthy given = false →
  fs w !! CONFIG_PATH C = None →
  os_path_dirname (CONFIG_PATH C) ≠ [] →
  in_the_way (fs w) (os_path_dirname (CONFIG_PATH C)) = None →
  ¬ is_directory (fs w) (CONFIG_PATH C) →
  ∃ w',
    load_config C platform args w
    = (match toml_loads platform (DEFAULT_CONFIG C) with
       | Ok table => config_of C platform args (VStr (CONFIG_PATH C)) table
       | Raise e => Raise e
       end, w')
    ∧ fs w' = <[CONFIG_PATH C := DEFAULT_CONFIG C]> (fs w)
    ∧ trace w'
      = trace w
          ++ [EvIsFile (CONFIG_PATH C);
              EvMakedirs (os_path_dirname (CONFIG_PATH C));
              EvOpen (CONFIG_PATH C);
              EvWrite (CONFIG_PATH C) (DEFAULT_CONFIG C)].
Proof.
  intros Hargs Hgiven Hfile Hdir Hclear _. unfold load_config.
  rewrite Hargs. unfold mbind at 1, M_bind at 1, mret at 1, M_ret at 1.
  rewrite Hgiven.
  pose proof (default_config_path_run w) as Hrun.
  rewrite Hfile, Hclear in Hrun.
  destruct (os_path_dirname (CONFIG_PATH C)) as [|c dir] eqn:E;
    [by destruct Hdir|].
  rewrite (bind_ok _ _ _ _ _ Hrun).
  unfold mbind, M_bind. rewrite toml_load_run. cbn [fs].
  rewrite lookup_insert_eq. eexists.
  split; [unfold of_result;
          by destruct (toml_loads platform (DEFAULT_CONFIG C))|done].
Qed.


(** X20: the only file [load_config] ever writes is the default one, and
    only when no path was given and the file was not there; an existing
    configuration file is never rewritten. *)
Theorem load_config_frame args w r w' p :
  load_config C platform args w = (r, w') →
  fs w' !! p ≠ fs w !! p →
  p = CONFIG_PATH C
  ∧ fs w !! p = None
  ∧ fs w' !! p = Some (DEFAULT_CONFIG C)
  ∧ truthy (get args (u "config-path")) = false.
Proof.
  intros H Hp. unfold load_config in H.
  destruct (args !! u "config-path") as [given|] eqn:Hargs.
  2:{ injection H as _ <-. done. }
  unfold mbind at 1, M_bind at 1, mret at 1, M_ret at 1 in H.
  assert (Htail : ∀ config_path w1,
    (toml_load platform config_path ≫= λ config_toml,
       of_result (config_of C platform args config_path config_toml)) w1
    = (r, w') → w1 = w').
  { intros config_path w1 Ht. unfold mbind, M_bind in Ht.
    rewrite toml_load_run in Ht.
    destruct (match config_path with VStr _ => _ | _ => _ end);
      by injection Ht as _ <-. }
  unfold get. rewrite Hargs. simpl.
  destruct (truthy given) eqn:Hg.
  { unfold mbind at 1, M_bind at 1, mret at 1, M_ret at 1 in H.
    apply Htail in H as <-. done. }
  apply bind_inv in H as [(e & Hd & _)|(config_path & w1 & Hd & H)].
  2: apply Htail in H as ->.
  all: rewrite default_config_path_run in Hd.
  all: destruct (fs w !! CONFIG_PATH C) as [c|] eqn:Hf;
    [by injection Hd as _ <-|].
  all: destruct (os_path_dirname (CONFIG_PATH C)) as [|c dir];
    [by injection Hd as _ <-|].
  all: destruct (in_the_way (fs w) (c :: dir));
    [by injection Hd as _ <-|]; try discriminate Hd.
  injection Hd as _ <-. simpl in Hp.
  destruct (decide (p = CONFIG_PATH C)) as [->|Hne].
  - simpl. by rewrite lookup_insert_eq.
  - by rewrite lookup_insert_ne in Hp.
Qed.

End Loading.

(** * Examples *)

(** The examples are run with the character tables [unicode0]. *)
#[global] Existing Instance unicode0.

(** With [full-structure] and no sibling at hand the album is listed before
    the existence check: a call leaves the process although the final file
    is there. *)
Lemma download_track_existing_lists_album :
  (get_track_path client0 cfg_full track0 None false false w_present).1
  = Ok path_full
  ∧ is_Some (fs w_present !! final_path_of path_full track0)
  ∧ (download_track K0 lib0 client0 cfg_full track0 None false false 0
       w_present).1 = Ok tt
  ∧ trace (download_track K0 lib0 client0 cfg_full track0 None false false 0
             w_present).2
    = [EvGetAlbumTracks album0;
       EvIsFile (u "out/Ann/Demo/Disc 1/03 Song.flac");
       EvPrint (u "Skipping download of 03 Song.flac; it already exists.")]
  ∧ count is_listing
      (trace (download_track K0 lib0 client0 cfg_full track0 None false false
                0 w_present).2) ≠ 0%nat.
Proof.
  split; [by vm_compute|]. split; [by vm_compute; eexists|].
  split; [by vm_compute|]. split; by vm_compute.
Qed.

Lemma download_track_existing_witness :
  get_track_path client0 cfg_full track0 None false false w_present
  = (Ok path_full, after w_present tt [EvGetAlbumTracks album0])
  ∧ is_Some (fs w_present !! final_path_of path_full track0)
  ∧ ∃ w',
      download_track K0 lib0 client0 cfg_full track0 None false false 0
        w_present = (Ok tt, w')
      ∧ fs w' = fs w_present
      ∧ count is_get_media (trace w') = 0%nat
      ∧ count is_transfer (trace w') = 0%nat.
Proof.
  assert (H1 : get_track_path client0 cfg_full track0 None false false
                 w_present
               = (Ok path_full, after w_present tt [EvGetAlbumTracks album0]))
    by (by vm_compute).
  assert (H2 : is_Some (fs w_present !! final_path_of path_full track0))
    by (by vm_compute; eexists).
  split; [exact H1|]. split; [exact H2|].
  destruct (download_track_existing K0 lib0 client0 cfg_full track0 None
              false false 0 w_present path_full _ H1 H2)
    as (w' & Hrun & Hfs & Htr & _).
  exists w'. split; [exact Hrun|]. split; [exact Hfs|].
  rewrite Htr. split; reflexivity.
Defined.

Lemma get_track_path_padding_witness :
  true || full_structure cfg_plain = true
  ∧ get_track_path client0 cfg_plain track0 (Some [track1; track0]) false true
      w_empty = (Ok (u "out/Demo/Disc 1/03 Song"), w_empty)
  ∧ get_track_path client0 cfg_plain track0 (Some [track0; track1]) false true
      w_empty = (Ok (u "out/Demo/Disc 1/03 Song"), w_empty).
Proof.
  assert (H1 : true || full_structure cfg_plain = true) by reflexivity.
  assert (H2 : get_track_path client0 cfg_plain track0 (Some [track1; track0])
                 false true w_empty
               = (Ok (u "out/Demo/Disc 1/03 Song"), w_empty))
    by (by vm_compute).
  split; [exact H1|]. split; [exact H2|].
  destruct (get_track_path_padding client0 cfg_plain track0
              (Some [track1; track0]) false true w_empty _ _ H1 H2)
    as (sibs & max_disc & max_track & artist_path & disc_path & Hsibs & _
        & _ & _ & _ & _ & _ & _ & Hperm).
  destruct Hsibs as [([= <-] & _ & _)|([[=]|[=]] & _)].
  apply Hperm. apply Permutation_swap.
Defined.

Lemma get_track_path_artist_witness :
  true || full_structure cfg_plain = true
  ∧ Album.artists (Track.album track1) = [artist0]
  ∧ get_track_path client0 cfg_plain track1 None true false w_empty
    = (Ok (u "out/Ann/Tune"), w_empty)
  ∧ u "out/Ann" `prefix_of` u "out/Ann/Tune"
  ∧ get_track_path client0 cfg_plain (with_artists track1 []) None true false
      w_empty
    = get_track_path client0 cfg_plain track1 None true false w_empty.
Proof.
  assert (H1 : true || full_structure cfg_plain = true) by reflexivity.
  assert (H2 : Album.artists (Track.album track1) = [artist0])
    by reflexivity.
  assert (H3 : get_track_path client0 cfg_plain track1 None true false
                 w_empty = (Ok (u "out/Ann/Tune"), w_empty))
    by (vm_compute; reflexivity).
  split; [exact H1|]. split; [exact H2|]. split; [exact H3|].
  destruct (get_track_path_artist client0 cfg_plain track1 None true false
              w_empty H1) as (_ & Hpath & Hown).
  split; [|apply Hown].
  destruct (Hpath artist0 [] (u "out/Ann/Tune") w_empty H2 H3)
    as (album_path & disc_path & file_path & _ & _ & _ & _ & Hprefix & _).
  exact Hprefix.
Defined.

Lemma download_track_rate_limited_witness :
  get_track_path client_limited cfg_plain track0 None false false w_empty
  = (Ok path_plain, w_empty)
  ∧ fs w_empty !! final_path_of path_plain track0 = None
  ∧ get_media client_limited track0 (ext w_empty)
    = (Raise (HTTPError too_many_requests), tt)
  ∧ status_code too_many_requests = 429%Z
  ∧ (download_track K0 lib0 client_limited cfg_plain track0 None false false
       0 w_empty).1 = Raise (HTTPError too_many_requests)
  ∧ count is_authenticate
      (trace (download_track K0 lib0 client_limited cfg_plain track0 None
                false false 0 w_empty).2) = 1%nat
  ∧ count is_get_media
      (trace (download_track K0 lib0 client_limited cfg_plain track0 None
                false false 0 w_empty).2) = 2%nat.
Proof.
  assert (H1 : get_track_path client_limited cfg_plain track0 None false
                 false w_empty = (Ok path_plain, w_empty))
    by (by vm_compute).
  assert (H2 : fs w_empty !! final_path_of path_plain track0 = None)
    by (by vm_compute).
  assert (H3 : get_media client_limited track0 (ext w_empty)
               = (Raise (HTTPError too_many_requests), tt)) by reflexivity.
  assert (H4 : status_code too_many_requests = 429%Z) by reflexivity.
  do 4 (split; [done|]).
  destruct (download_track K0 lib0 client_limited cfg_plain track0 None false
              false 0 w_empty) as [r w'] eqn:Hrun.
  destruct (download_track_rate_limited K0 lib0 client_limited cfg_plain
              track0 None false false 0 w_empty path_plain w_empty
              too_many_requests tt r w' H1 H2 H3 H4 Hrun)
    as (d & Htr & Ha & _ & Hretry).
  destruct (Hretry tt eq_refl) as [Hg Hsecond].
  destruct (Hsecond too_many_requests tt eq_refl eq_refl) as (Hr & _ & _ & _).
  simpl. rewrite Htr. split; [exact Hr|].
  change (trace w_empty ++ EvIsFile (final_path_of path_plain track0) :: d)
    with (EvIsFile (final_path_of path_plain track0) :: d).
  rewrite !count_cons. simpl. split; [exact Ha|exact Hg].
Defined.

Lemma download_track_not_entitled_witness :
  get_track_path client_unlicensed cfg_plain track0 None false false w_empty
  = (Ok path_plain, w_empty)
  ∧ fs w_empty !! final_path_of path_plain track0 = None
  ∧ download_track K0 lib0 client_unlicensed cfg_plain track0 None false
      false 0 w_empty
    = (Ok tt,
       after w_empty tt
         [EvIsFile (u "out/Song.flac"); EvGetMedia track0;
          EvPrint
            (u "Skipping download of Song.flac; track is not available.")]).
Proof.
  assert (H1 : get_track_path client_unlicensed cfg_plain track0 None false
                 false w_empty = (Ok path_plain, w_empty))
    by (by vm_compute).
  assert (H2 : fs w_empty !! final_path_of path_plain track0 = None)
    by (by vm_compute).
  do 2 (split; [done|]).
  destruct (download_track_not_entitled K0 lib0 client_unlicensed cfg_plain
              track0 None false false 0 w_empty path_plain w_empty H1 H2)
    as (_ & Hfirst & _ & _ & _).
  rewrite (Hfirst not_licensed tt eq_refl); [reflexivity|].
  by vm_compute.
Defined.

Lemma download_track_finalization_witness :
  get_track_path client0 cfg_plain track0 None false false w_empty
  = (Ok path_plain, w_empty)
  ∧ ∃ d0,
      trace (download_track K0 lib0 client0 cfg_plain track0 None false false
               0 w_empty).2
      = trace w_empty ++ d0
          ++ [EvRename (u "out/Song.part.flac") (u "out/Song.flac")]
      ∧ Forall (before_rename (u "out/Song.part.flac")) d0.
Proof.
  assert (H1 : get_track_path client0 cfg_plain track0 None false false
                 w_empty = (Ok path_plain, w_empty))
    by (by vm_compute).
  split; [exact H1|].
  destruct (download_track_finalization K0 lib0 client0 cfg_plain track0 None
              false false 0 w_empty path_plain w_empty _ _ H1
              (surjective_pairing _))
    as (_ & d & Htr & [[_ Hl]|(_ & _ & d0 & ? & ? & ? & ? & ? & ? & ?
                                 & Hd & Hd0 & _)]).
  - vm_compute in Hl. discriminate Hl.
  - exists d0. rewrite Htr, Hd. split; [reflexivity|exact Hd0].
Defined.

Lemma download_track_invalid_file_witness :
  get_track_path client0 cfg_plain track0 None false false w_empty
  = (Ok path_plain, w_empty)
  ∧ fs w_empty !! final_path_of path_plain track0 = None
  ∧ skip_metadata cfg_plain = false
  ∧ resolve_metadata K0 lib_invalid cfg_plain track0
      (temporary_path_of K0 path_plain track0) 0 w_streamed
    = (Raise InvalidFileError, w_rejected)
  ∧ ∃ w',
      download_track K0 lib_invalid client0 cfg_plain track0 None false false
        0 w_empty = (Ok tt, w')
      ∧ fs w' !! temporary_path_of K0 path_plain track0 = None
      ∧ fs w' !! final_path_of path_plain track0 = None.
Proof.
  assert (H1 : get_track_path client0 cfg_plain track0 None false false
                 w_empty = (Ok path_plain, w_empty))
    by (vm_compute; reflexivity).
  assert (H2 : fs w_empty !! final_path_of path_plain track0 = None)
    by (vm_compute; reflexivity).
  assert (H3 : request_media K0 client0 cfg_plain track0
                 (final_path_of path_plain track0) 0
                 (after w_empty (ext w_empty)
                    [EvIsFile (final_path_of path_plain track0)])
               = (Ok (Some (u "http://m", None)), w_located))
    by (vm_compute; reflexivity).
  assert (H4 : stream_payload lib_invalid cfg_plain (u "http://m")
                 (temporary_path_of K0 path_plain track0)
                 (final_path_of path_plain track0) w_located
               = (Ok tt, w_streamed))
    by (vm_compute; reflexivity).
  assert (H5 : decrypt_payload K0 cfg_plain None
                 (temporary_path_of K0 path_plain track0) 0 w_streamed
               = (Ok tt, w_streamed)) by reflexivity.
  assert (H6 : skip_metadata cfg_plain = false) by reflexivity.
  assert (H7 : resolve_metadata K0 lib_invalid cfg_plain track0
                 (temporary_path_of K0 path_plain track0) 0 w_streamed
               = (Raise InvalidFileError, w_rejected))
    by (vm_compute; reflexivity).
  split; [exact H1|]. split; [exact H2|]. split; [exact H6|].
  split; [exact H7|].
  destruct (download_track_invalid_file K0 lib_invalid client0 cfg_plain
              track0 None false false 0 w_empty path_plain w_empty
              (u "http://m") None w_located w_streamed w_streamed w_rejected
              H1 H2 H3 H4 H5 H6 H7)
    as (w' & Hrun & _ & Htmp & Hfinal & _).
  exists w'. split; [exact Hrun|]. split; [exact Htmp|exact Hfinal].
Defined.

Lemma download_album_in_order_witness :
  ∃ d,
    trace (download_album K0 lib0 client0 cfg_plain album0 false 0 w_empty).2
    = trace w_empty ++ d
    ∧ count is_listing d = 1%nat.
Proof.
  destruct (download_album_in_order K0 lib0 client0 cfg_plain album0 false 0
              w_empty _ _ (surjective_pairing _))
    as (d & Htr & Hl & _).
  exists d. split; [exact Htr|exact Hl].
Defined.


(** The same rejected payload under the two settings of [skip-metadata]:
    kept as the final file, or removed. *)
Example rejected_payload_is_finalized_when_metadata_is_skipped :
  (download_track K0 lib_invalid client0 cfg_skip track0 None false false 0
     w_empty).1 = Ok tt
  ∧ fs (download_track K0 lib_invalid client0 cfg_skip track0 None false
          false 0 w_empty).2 !! u "out/Song.flac"
    = Some [Byte.x01; Byte.x02]
  ∧ fs (download_track K0 lib_invalid client0 cfg_plain track0 None false
          false 0 w_empty).2 !! u "out/Song.flac" = None.
Proof. split; [|split]; by vm_compute. Qed.

(** The album of the specification's scenario: two discs, twelve as the
    greatest track number. *)
Example album_paths :
  map (fun track =>
         (get_track_path client0 cfg_plain track (Some [track0; track1])
            false true w_empty).1)
      [track0; track1]
  = [Ok (u "out/Demo/Disc 1/03 Song"); Ok (u "out/Demo/Disc 2/12 Tune")].
Proof. by vm_compute. Qed.

(** * The further properties on the examples *)

(** The tables of the examples have what the shape of the nice style
    asks for. *)
Lemma unicode0_lower_app s t : lower (s ++ t) = lower s ++ lower t.
Proof. unfold lower. simpl. by rewrite map_app, concat_app. Qed.

Lemma unicode0_lower_hyphen s t :
  lower (s ++ HYPHEN :: t) = lower s ++ HYPHEN :: lower t.
Proof.
  rewrite unicode0_lower_app. by f_equal.
Qed.

Lemma unicode0_lower_chars (P : char → Prop) s :
  (∀ c, c ∈ s → P (ascii_lower c)) → (304 ∈ s → P 105 ∧ P 775) →
  Forall P (lower s).
Proof.
  unfold lower. simpl. induction s as [|c s IH]; intros Hc Hi; [constructor|].
  simpl. apply Forall_app. split.
  - destruct (N.eqb_spec c 304) as [->|Hne].
    + destruct Hi as [? ?]; [left|]. by repeat constructor.
    + constructor; [|constructor]. apply Hc. left.
  - apply IH; [intros x Hx; apply Hc; by right|intros Hx; apply Hi; by right].
Qed.

Lemma unicode0_lower_fresh s c :
  c ∈ lower s → c = HYPHEN ∨ c = SPACE → c ∈ s.
Proof.
  intros Hin Hc.
  assert (H : Forall (fun x => x = HYPHEN ∨ x = SPACE → x ∈ s) (lower s)).
  { apply unicode0_lower_chars.
    - intros x Hx Hl. unfold ascii_lower in *.
      destruct (isupper x) eqn:Hu; [exfalso|done].
      unfold isupper in Hu. apply andb_true_iff in Hu as [H1 _].
      apply N.leb_le in H1. unfold HYPHEN, SPACE in Hl. lia.
    - intros _. split; intros [?|?]; discriminate. }
  rewrite Forall_forall in H. by apply (H c).
Qed.

Lemma unicode0_lower_small s c : c ∈ lower s → isupper c = false.
Proof.
  intros Hin.
  assert (H : Forall (fun x => isupper x = false) (lower s)).
  { apply unicode0_lower_chars; [|done].
    intros x _. unfold ascii_lower.
    destruct (isupper x) eqn:Hu; [|done].
    unfold isupper in *. apply andb_true_iff in Hu as [H1 _].
    apply N.leb_le in H1. apply andb_false_iff. right. apply N.leb_gt. lia. }
  rewrite Forall_forall in H. by apply (H c).
Qed.

Lemma sanitize_nice_shape_witness :
  nice_format cfg_nice = true
  ∧ ∃ ws, sanitize cfg_nice (u "Hello  World - B/W") = join [HYPHEN] ws
          ∧ Forall slug_word ws.
Proof.
  assert (H : nice_format cfg_nice = true) by reflexivity.
  exact (conj H (sanitize_nice_shape unicode0_lower_hyphen
                   unicode0_lower_fresh unicode0_lower_small cfg_nice
                   (u "Hello  World - B/W") H)).
Defined.

Lemma get_track_path_under_output_directory_witness :
  get_track_path client0 cfg_full track0 None false false w_present
  = (Ok path_full, after w_present tt [EvGetAlbumTracks album0])
  ∧ u "out" `prefix_of` path_full.
Proof.
  assert (H : get_track_path client0 cfg_full track0 None false false
                w_present
              = (Ok path_full, after w_present tt [EvGetAlbumTracks album0]))
    by (by vm_compute).
  split; [exact H|].
  exact (get_track_path_under_output_directory client0 cfg_full track0 None
           false false w_present path_full _ H).
Defined.

Lemma get_track_path_reads_only_witness :
  get_track_path client0 cfg_full track0 None false false w_present
  = (Ok path_full, after w_present tt [EvGetAlbumTracks album0])
  ∧ fs (after w_present tt [EvGetAlbumTracks album0]) = fs w_present.
Proof.
  assert (H : get_track_path client0 cfg_full track0 None false false
                w_present
              = (Ok path_full, after w_present tt [EvGetAlbumTracks album0]))
    by (by vm_compute).
  split; [exact H|].
  destruct (get_track_path_reads_only client0 cfg_full track0 None false
              false w_present _ _ H) as (Hfs & _).
  exact Hfs.
Defined.

Lemma get_track_path_empty_listing_witness :
  listing_needed cfg_full None false = true
  ∧ Album.artists (Track.album track0) ≠ []
  ∧ get_album_tracks client_empty (Track.album track0) (ext w_empty)
    = (Ok [], tt)
  ∧ get_track_path client_empty cfg_full track0 None false false w_empty
    = (Raise ValueError, after w_empty tt [EvGetAlbumTracks album0]).
Proof.
  assert (H1 : listing_needed cfg_full None false = true) by reflexivity.
  assert (H2 : Album.artists (Track.album track0) ≠ []) by discriminate.
  assert (H3 : get_album_tracks client_empty (Track.album track0)
                 (ext w_empty) = (Ok [], tt)) by reflexivity.
  split; [exact H1|]. split; [exact H2|]. split; [exact H3|].
  exact (get_track_path_empty_listing client_empty cfg_full track0 None false
           false w_empty tt H1 (fun _ => H2) H3).
Defined.

Lemma download_track_frame_witness :
  fs (download_track K0 lib0 client0 cfg_plain track0 None false false 0
        w_empty).2 !! u "out/Song.flac"
  ≠ fs w_empty !! u "out/Song.flac"
  ∧ ∃ track_path w1,
      get_track_path client0 cfg_plain track0 None false false w_empty
      = (Ok track_path, w1)
      ∧ (u "out/Song.flac" = temporary_path_of K0 track_path track0
         ∨ u "out/Song.flac" = final_path_of track_path track0).
Proof.
  assert (H : fs (download_track K0 lib0 client0 cfg_plain track0 None false
                    false 0 w_empty).2 !! u "out/Song.flac"
              ≠ fs w_empty !! u "out/Song.flac")
    by (vm_compute; discriminate).
  split; [exact H|].
  exact (download_track_frame K0 lib0 client0 cfg_plain track0 None false false
           0 w_empty _ _ (u "out/Song.flac") (surjective_pairing _) H).
Defined.

(** On a disk without regular files nothing is a directory. *)
Lemma no_directory_on_empty_disk path : ¬ is_directory (∅ : gmap str bytes) path.
Proof. intros (p & [c Hc] & _). by rewrite lookup_empty in Hc. Qed.

Lemma stream_payload_content_witness :
  os_path_dirname (u "out/Song.flac") ≠ []
  ∧ in_the_way (fs w_located) (os_path_dirname (u "out/Song.flac")) = None
  ∧ requests_get lib0 (u "http://m") true (ext w_located) = (Ok payload0, tt)
  ∧ (quiet cfg_plain = false → is_Some (content_length payload0))
  ∧ ∃ w',
      stream_payload lib0 cfg_plain (u "http://m") (u "out/Song.part.flac")
        (u "out/Song.flac") w_located = (Ok tt, w')
      ∧ fs w' = <[u "out/Song.part.flac" := [Byte.x01; Byte.x02]]>
                  (fs w_located).
Proof.
  assert (H1 : os_path_dirname (u "out/Song.flac") ≠ [])
    by (vm_compute; discriminate).
  assert (Hc : in_the_way (fs w_located) (os_path_dirname (u "out/Song.flac"))
               = None) by (vm_compute; reflexivity).
  assert (Hd : ¬ is_directory (fs w_located) (u "out/Song.part.flac"))
    by apply no_directory_on_empty_disk.
  assert (H2 : requests_get lib0 (u "http://m") true (ext w_located)
               = (Ok payload0, tt)) by reflexivity.
  assert (H3 : (status_code payload0 < 400 ∨ 600 <= status_code payload0)%Z)
    by (left; reflexivity).
  assert (H4 : quiet cfg_plain = false → is_Some (content_length payload0))
    by (intros _; by eexists).
  split; [exact H1|]. split; [exact Hc|]. split; [exact H2|].
  split; [exact H4|].
  exact (stream_payload_content lib0 cfg_plain (u "http://m")
           (u "out/Song.part.flac") (u "out/Song.flac") w_located payload0 tt
           H1 Hc Hd H2 H3 H4).
Defined.

Lemma stream_payload_without_length_witness :
  os_path_dirname (u "out/Song.flac") ≠ []
  ∧ in_the_way (fs w_located) (os_path_dirname (u "out/Song.flac")) = None
  ∧ content_length payload_headless = None
  ∧ (∃ w',
       stream_payload lib_headless cfg_plain (u "http://m")
         (u "out/Song.part.flac") (u "out/Song.flac") w_located
       = (Raise (KeyError (u "content-length")), w')
       ∧ fs w' = <[u "out/Song.part.flac" := []]> (fs w_located))
  ∧ ∃ w',
      stream_payload lib_headless cfg_skip (u "http://m")
        (u "out/Song.part.flac") (u "out/Song.flac") w_located = (Ok tt, w')
      ∧ fs w' = <[u "out/Song.part.flac" := [Byte.x01; Byte.x02]]>
                  (fs w_located).
Proof.
  assert (H1 : os_path_dirname (u "out/Song.flac") ≠ [])
    by (vm_compute; discriminate).
  assert (Hc : in_the_way (fs w_located) (os_path_dirname (u "out/Song.flac"))
               = None) by (vm_compute; reflexivity).
  assert (Hd : ¬ is_directory (fs w_located) (u "out/Song.part.flac"))
    by apply no_directory_on_empty_disk.
  assert (H2 : requests_get lib_headless (u "http://m") true (ext w_located)
               = (Ok payload_headless, tt)) by reflexivity.
  assert (H3 : (status_code payload_headless < 400
                ∨ 600 <= status_code payload_headless)%Z)
    by (left; reflexivity).
  assert (H4 : content_length payload_headless = None) by reflexivity.
  split; [exact H1|]. split; [exact Hc|]. split; [exact H4|]. split.
  - exact (stream_payload_without_length lib_headless cfg_plain (u "http://m")
             (u "out/Song.part.flac") (u "out/Song.flac") w_located
             payload_headless tt H1 Hc Hd H2 H3 H4).
  - exact (stream_payload_without_length lib_headless cfg_skip (u "http://m")
             (u "out/Song.part.flac") (u "out/Song.flac") w_located
             payload_headless tt H1 Hc Hd H2 H3 H4).
Defined.

Lemma download_track_flat_directory_witness :
  output_directory cfg_flat = []
  ∧ (SLASH ∉ Track.extension track0)
  ∧ fs w_empty !! u "Song.flac" = None
  ∧ download_track K0 lib0 client0 cfg_flat track0 None false false 0 w_empty
    = (Raise FileNotFoundError,
       after w_empty tt [EvIsFile (u "Song.flac"); EvGetMedia track0]).
Proof.
  assert (H1 : output_directory cfg_flat = []) by reflexivity.
  assert (H2 : full_structure cfg_flat = false) by reflexivity.
  assert (H3 : SLASH ∉ Track.extension track0).
  { vm_compute. intros H. repeat (apply elem_of_cons in H as [H|H];
      [discriminate H|]). by apply elem_of_nil in H. }
  assert (H4 : fs w_empty !! (sanitize cfg_flat (Track.name track0) ++ [DOT]
                                ++ Track.extension track0) = None)
    by reflexivity.
  assert (H5 : get_media client0 track0 (ext w_empty)
               = (Ok (u "http://m", None), tt)) by reflexivity.
  split; [exact H1|]. split; [exact H3|]. split; [exact H4|].
  exact (download_track_flat_directory K0 lib0 client0 cfg_flat track0 None 0
           w_empty _ tt H1 H2 H3 H4 H5).
Defined.

Lemma download_track_content_witness :
  get_track_path client0 cfg_plain track0 None false false w_empty
  = (Ok path_plain, w_empty)
  ∧ fs w_empty !! final_path_of path_plain track0 = None
  ∧ ∃ w',
      download_track K0 lib0 client0 cfg_plain track0 None false false 0
        w_empty = (Ok tt, w')
      ∧ fs w' = <[u "out/Song.flac" := [Byte.x01; Byte.x02; Byte.xff]]>
                  (delete (u "out/Song.part.flac") (fs w_empty)).
Proof.
  assert (H1 : get_track_path client0 cfg_plain track0 None false false
                 w_empty = (Ok path_plain, w_empty)) by (by vm_compute).
  assert (H2 : fs w_empty !! final_path_of path_plain track0 = None)
    by (by vm_compute).
  assert (H3 : get_media client0 track0 (ext w_empty)
               = (Ok (u "http://m", None), tt)) by reflexivity.
  assert (H4 : os_path_dirname (final_path_of path_plain track0) ≠ [])
    by (vm_compute; discriminate).
  assert (Hc : in_the_way (fs w_empty)
                 (os_path_dirname (final_path_of path_plain track0)) = None)
    by (vm_compute; reflexivity).
  assert (H5 : requests_get lib0 (u "http://m") true tt = (Ok payload0, tt))
    by reflexivity.
  assert (H6 : (status_code payload0 < 400 ∨ 600 <= status_code payload0)%Z)
    by (left; reflexivity).
  assert (H7 : broken payload0 = false) by reflexivity.
  assert (H8 : quiet cfg_plain = false → is_Some (content_length payload0))
    by (intros _; by eexists).
  split; [exact H1|]. split; [exact H2|].
  destruct (download_track_content K0 lib0 client0 cfg_plain track0 None
              false false 0 w_empty path_plain w_empty (u "http://m") None tt
              payload0 tt [Byte.x01; Byte.x02]
              [Byte.x01; Byte.x02; Byte.xff]
              H1 H2 H3 H4 Hc (no_directory_on_empty_disk _)
              (no_directory_on_empty_disk _) H5 H6 H7 H8 eq_refl
              (conj eq_refl (conj eq_refl eq_refl)))
    as (w' & Hrun & Hfs & _).
  exists w'. split; [exact Hrun|exact Hfs].
Defined.

Lemma quiet_is_silent_witness :
  quiet cfg_skip = true
  ∧ silent (download_discography K0 lib0 client0 cfg_skip artist0 0).
Proof.
  assert (H : quiet cfg_skip = true) by reflexivity.
  split; [exact H|].
  destruct (quiet_is_silent K0 lib0 client0 cfg_skip H) as (_ & _ & Hd).
  exact (Hd artist0 0%nat).
Defined.

Lemma resolve_metadata_unknown_extension_witness :
  Track.extension track_ogg ≠ u "mp4"
  ∧ Track.extension track_ogg ≠ u "flac"
  ∧ Album.cover_url (Track.album track_ogg) = Some (u "http://c")
  ∧ resolve_metadata K0 lib0 cfg_plain track_ogg (u "out/Reel.part.ogg") 0
      w_empty
    = (Raise (KeyError (u "ogg")),
       after w_empty tt
         [EvPrint (u "Resolving metadata...");
          EvRequestsGet (u "http://c") false]).
Proof.
  assert (H1 : Track.extension track_ogg ≠ u "mp4")
    by (vm_compute; discriminate).
  assert (H2 : Track.extension track_ogg ≠ u "flac")
    by (vm_compute; discriminate).
  split; [exact H1|]. split; [exact H2|]. split; [reflexivity|].
  rewrite (resolve_metadata_unknown_extension K0 lib0 cfg_plain track_ogg
             (u "out/Reel.part.ogg") 0 w_empty H1 H2).
  vm_compute. reflexivity.
Defined.

Lemma download_album_failure_witness :
  (download_album K0 lib0 client_limited cfg_skip album0 false 0 w_empty).1
  = Raise (HTTPError too_many_requests)
  ∧ ∃ n track w0,
      [track0; track1] !! n = Some track
      ∧ download_track K0 lib0 client_limited cfg_skip track
          (Some [track0; track1]) false true 1 w0
        = (Raise (HTTPError too_many_requests),
           (download_album K0 lib0 client_limited cfg_skip album0 false 0
              w_empty).2).
Proof.
  assert (Hr : (download_album K0 lib0 client_limited cfg_skip album0 false 0
                  w_empty).1 = Raise (HTTPError too_many_requests))
    by (by vm_compute).
  assert (H : download_album K0 lib0 client_limited cfg_skip album0 false 0
                w_empty
              = (Raise (HTTPError too_many_requests),
                 (download_album K0 lib0 client_limited cfg_skip album0 false
                    0 w_empty).2)).
  { rewrite <- Hr. apply surjective_pairing. }
  split; [exact Hr|].
  destruct (download_album_failure K0 lib0 client_limited cfg_skip album0
              false 0 w_empty _ _ H)
    as [(s & Hl & _)|(tracks & s & n & track & w0 & d0 & Hl & Hn & _ & _ & Hd)].
  - discriminate Hl.
  - injection Hl as <- _. by exists n, track, w0.
Defined.

Lemma download_discography_in_order_witness :
  ∃ d,
    trace (download_discography K0 lib0 client0 cfg_skip artist0 0 w_empty).2
    = trace w_empty ++ d
    ∧ count is_artist_listing d = 1%nat.
Proof.
  destruct (download_discography_in_order K0 lib0 client0 cfg_skip artist0 0
              w_empty _ _ (surjective_pairing _)) as (d & T & A & _).
  exists d. split; [exact T|exact A].
Defined.

Lemma load_config_precedence_witness :
  DEFAULT_CONFIG_TOML C0 !! u "quiet" = Some (VBool false)
  ∧ args0 !! u "quiet" = Some (VBool false)
  ∧ ∃ config w',
      load_config C0 platform0 args0 w_configured = (Ok config, w')
      ∧ config !! u "quiet" = Some (VBool false).
Proof.
  assert (H : ∃ config w',
                load_config C0 platform0 args0 w_configured = (Ok config, w'))
    by (eexists _, _; vm_compute; reflexivity).
  destruct H as (config & w' & H).
  assert (H1 : DEFAULT_CONFIG_TOML C0 !! u "quiet" = Some (VBool false))
    by (vm_compute; reflexivity).
  assert (H2 : u "quiet" ≠ u "config-path") by (vm_compute; discriminate).
  assert (H3 : u "quiet" ≠ u "output-directory")
    by (vm_compute; discriminate).
  assert (H4 : args0 !! u "quiet" = Some (VBool false))
    by (vm_compute; reflexivity).
  split; [exact H1|]. split; [exact H4|].
  destruct (load_config_precedence C0 platform0 args0 w_configured config w'
              (u "quiet") (VBool false) H H1 H2 H3)
    as (path & content & table & _ & _ & _ & Hargs & _ & _).
  exists config, w'. split; [exact H|].
  apply (Hargs (VBool false) H4). discriminate.
Defined.

Lemma load_config_keys_witness :
  ∃ config w',
    load_config C0 platform0 args0 w_configured = (Ok config, w')
    ∧ config !! u "colour" = None
    ∧ config !! u "query" = None
    ∧ ∃ s, config !! u "output-directory"
           = Some (VStr (expanduser platform0 s)).
Proof.
  assert (H : ∃ config w',
                load_config C0 platform0 args0 w_configured = (Ok config, w'))
    by (eexists _, _; vm_compute; reflexivity).
  destruct H as (config & w' & H).
  destruct (load_config_keys C0 platform0 args0 w_configured config w' H)
    as (Hkeys & Hout).
  exists config, w'. split; [exact H|].
  split; [|split; [|exact Hout]].
  all: apply eq_None_not_Some; intros Hs; apply Hkeys in Hs;
    destruct Hs as [Hs|Hs]; vm_compute in Hs;
    [discriminate Hs|destruct Hs as [? Hs]; discriminate Hs].
Defined.

Lemma load_config_writes_default_witness :
  args0 !! u "config-path" = Some VNone
  ∧ fs w_empty !! CONFIG_PATH C0 = None
  ∧ os_path_dirname (CONFIG_PATH C0) ≠ []
  ∧ in_the_way (fs w_empty) (os_path_dirname (CONFIG_PATH C0)) = None
  ∧ ∃ w',
      load_config C0 platform0 args0 w_empty
      = (config_of C0 platform0 args0 (VStr (u "etc/mania.toml")) ∅, w')
      ∧ fs w' = <[u "etc/mania.toml" := []]> (fs w_empty)
      ∧ trace w'
        = [EvIsFile (u "etc/mania.toml"); EvMakedirs (u "etc");
           EvOpen (u "etc/mania.toml"); EvWrite (u "etc/mania.toml") []].
Proof.
  assert (H1 : args0 !! u "config-path" = Some VNone) by (by vm_compute).
  assert (H2 : truthy VNone = false) by reflexivity.
  assert (H3 : fs w_empty !! CONFIG_PATH C0 = None) by (by vm_compute).
  assert (H4 : os_path_dirname (CONFIG_PATH C0) ≠ [])
    by (vm_compute; discriminate).
  assert (H5 : in_the_way (fs w_empty) (os_path_dirname (CONFIG_PATH C0))
               = None) by (vm_compute; reflexivity).
  split; [exact H1|]. split; [exact H3|]. split; [exact H4|].
  split; [exact H5|].
  destruct (load_config_writes_default C0 platform0 args0 w_empty VNone
              H1 H2 H3 H4 H5 (no_directory_on_empty_disk _))
    as (w' & Hrun & Hfs & Htr).
  exists w'. split; [exact Hrun|]. split; [exact Hfs|].
  rewrite Htr. by vm_compute.
Defined.


Lemma load_config_frame_witness :
  fs (load_config C0 platform0 args0 w_empty).2 !! u "etc/mania.toml"
  ≠ fs w_empty !! u "etc/mania.toml"
  ∧ fs (load_config C0 platform0 args0 w_empty).2 !! u "etc/mania.toml"
    = Some (DEFAULT_CONFIG C0).
Proof.
  assert (H : fs (load_config C0 platform0 args0 w_empty).2
                !! u "etc/mania.toml"
              ≠ fs w_empty !! u "etc/mania.toml")
    by (vm_compute; discriminate).
  split; [exact H|].
  destruct (load_config_frame C0 platform0 args0 w_empty _ _
              (u "etc/mania.toml") (surjective_pairing _) H)
    as (_ & _ & Hc & _).
  exact Hc.
Defined.

(** A regular file where the output directory should be: [os.makedirs]
    refuses before anything is requested, with [FileExistsError] when the
    file has the name of the directory to make and with
    [NotADirectoryError] when it is further up. *)
Example a_file_in_the_way :
  stream_payload lib0 cfg_plain (u "http://m") (u "out/Song.part.flac")
    (u "out/Song.flac") w_blocked
  = (Raise (OtherException (u "FileExistsError")), w_blocked)
  ∧ download_track K0 lib0 client0 cfg_plain track0 (Some [track0; track1])
      true true 0 w_blocked
    = (Raise (OtherException (u "NotADirectoryError")),
       after w_blocked tt
         [EvIsFile (u "out/Ann/Demo/Disc 1/03 Song.flac");
          EvGetMedia track0]).
Proof. split; vm_compute; reflexivity. Qed.
